(** * ChatGPT UX Suite: a shallow embedding of the content-script core

    The first half of the file embeds the sources, one module per unit:

    - [Js]: the built-ins of the host language the code relies on
      (numbers, [Array.prototype.sort], string methods, [JSON.stringify]);
    - [Dom]: the part of the document tree the code reads;
    - [TokenEstimator]: [tokenEstimator.js];
    - [Roles]: [determineMessageRole] of [unifiedContentScript.js];
    - [PromptNavigator]: the anchor engine of [unifiedContentScript.js];
    - [ContextCollector]: selection and export of [unifiedContentScript.js];
    - [PromptNavigatorStatus]: the prompt the navigator shows as current;
    - [Scanner]: visibility, the collection of conversation turns, the
      scan of the navigator and the prompt count of the session tracker;
    - [SelectionMode]: entering and leaving selection mode, the events of
      the collector's panel, and what is copied;
    - [SessionTracker]: the times the session tracker records and shows;
    - [TokenCounter]: sizes of attachments and the totals of a
      conversation.

    The modules [NavigatorSpec], [CollectorSpec], [RolesSpec],
    [EstimatorSpec], [EstimatorWords], [ScannerSpec], [SessionSpec],
    [CounterSpec] and [SelectionSpec] hold the vocabulary the properties
    are stated in, and the second half of the file proves them.

    Numbers.  The host language computes on binary64 floating point.  DOM
    geometry and the estimator's arithmetic are embedded over the rationals
    [Q], every operation exact; the decimal literals of the source
    ([0.8], [0.15], [1.33], ...) are the rationals they denote.  [NaN] is
    added where the code can produce it ([parseFloat]).  The concrete
    inputs used below are far from any rounding boundary.  One conversion
    is embedded in binary64 itself, because the code tests its result
    with [Number.isFinite]: [Number(numeric)] of [parseBytesValue]
    ([TokenCounter.toBinary64]: round to nearest, ties to even, and
    [Infinity] on overflow).

    Strings.  A string is a sequence of UTF-16 code units; the embedding
    covers the strings whose code units are below 256, one [ascii] per
    code unit.

    Identity.  An element of the document is identified by a number
    ([eid]); [===] on elements and [Map] keys compare it.  Distinct nodes of
    one document have distinct identities. *)

From Stdlib Require Import List String Ascii Bool Arith ZArith QArith.
From Stdlib Require Import Qround Qminmax Lia Lqa Permutation Sorted.
Import ListNotations.
Set Warnings "-register-all".

(* ================================================================== *)
(** * Host-language built-ins                                          *)
(* ================================================================== *)
Module Js.

Local Open Scope Q_scope.

(** [a < b] on numbers, as a test. *)
Definition Qlt_bool (a b : Q) : bool :=
  match a ?= b with Lt => true | _ => false end.

Section Sort.
Context {A : Type}.
(** The comparator of [Array.prototype.sort]: negative when its first
    argument goes first. *)
Variable compareFn : A -> A -> Q.

(** [Array.prototype.sort] is stable.  Every stable sort returns the same
    array for a comparator that is a consistent order, so a stable
    insertion sort stands for it: an element is put before the first
    element it does not come after, and elements that compare equal keep
    the order they had. *)
Fixpoint insert (x : A) (l : list A) : list A :=
  match l with
  | [] => [x]
  | h :: t => if Qle_bool (compareFn x h) 0 then x :: h :: t
              else h :: insert x t
  end.

Fixpoint sort (l : list A) : list A :=
  match l with
  | [] => []
  | x :: t => insert x (sort t)
  end.

End Sort.

(** [Math.max(0, Math.min(t, m))]. *)
Definition clamp (t m : Q) : Q := Qmax 0 (Qmin t m).

(** ** Numbers that may be [NaN] *)

Inductive Number := Num (q : Q) | NaN.

(** [a * b] where [b] is finite. *)
Definition times (a : Number) (b : Q) : Number :=
  match a with
  | Num q => Num (q * b)
  | NaN => NaN
  end.

(** [Math.ceil] and [Math.round]; the latter rounds halves up. *)
Definition ceil (q : Q) : Z := Qceiling q.
Definition round (q : Q) : Z := Qfloor (q + 0.5).

(** ** Strings *)

Local Open Scope string_scope.

(** The class [\s] on code units below 256: TAB, LF, VT, FF, CR, SP and
    NBSP. *)
Definition isWhiteSpace (c : ascii) : bool :=
  let n := nat_of_ascii c in
  ((n =? 9) || (n =? 10) || (n =? 11) || (n =? 12) || (n =? 13)
   || (n =? 32) || (n =? 160))%nat.

(** The class [\d]. *)
Definition isDigit (c : ascii) : bool :=
  let n := nat_of_ascii c in ((48 <=? n) && (n <=? 57))%nat.

(** [s.replace(/\s+/g, r)]: every maximal run of white space becomes [r];
    [inRun] tells that the previous code unit was white space. *)
Fixpoint replaceWhiteSpaceRunsFrom (inRun : bool) (r s : string) : string :=
  match s with
  | "" => ""
  | String c rest =>
      if isWhiteSpace c then
        if inRun then replaceWhiteSpaceRunsFrom true r rest
        else r ++ replaceWhiteSpaceRunsFrom true r rest
      else String c (replaceWhiteSpaceRunsFrom false r rest)
  end.

Definition replaceWhiteSpaceRuns (r s : string) : string :=
  replaceWhiteSpaceRunsFrom false r s.

(** [String.prototype.trim]. *)
Fixpoint trimStart (s : string) : string :=
  match s with
  | "" => ""
  | String c rest => if isWhiteSpace c then trimStart rest else s
  end.

Fixpoint trimEnd (s : string) : string :=
  match s with
  | "" => ""
  | String c rest =>
      match trimEnd rest with
      | "" => if isWhiteSpace c then "" else String c ""
      | r => String c r
      end
  end.

Definition trim (s : string) : string := trimEnd (trimStart s).

(** [s.split(/\s+/u)]: the pieces between the maximal runs of white space,
    empty pieces at either end included; [cur] is the piece being read. *)
Fixpoint splitWhiteSpaceFrom (inRun : bool) (cur s : string) : list string :=
  match s with
  | "" => [cur]
  | String c rest =>
      if isWhiteSpace c then
        if inRun then splitWhiteSpaceFrom true cur rest
        else cur :: splitWhiteSpaceFrom true "" rest
      else splitWhiteSpaceFrom false (cur ++ String c "") rest
  end.

Definition splitWhiteSpace (s : string) : list string :=
  splitWhiteSpaceFrom false "" s.

(** [Boolean(s)] for a string: the empty string is falsy. *)
Definition truthy (s : string) : bool := negb (String.eqb s "").

(** [String.prototype.toLowerCase] on code units below 256: the letters
    A-Z and the accented capitals U+00C0-U+00DE (U+00D7 is the
    multiplication sign) move up by 32. *)
Definition toLowerCaseUnit (c : ascii) : ascii :=
  let n := nat_of_ascii c in
  if (((65 <=? n) && (n <=? 90))
      || ((192 <=? n) && (n <=? 222) && negb (n =? 215)))%nat
  then ascii_of_nat (n + 32) else c.

Fixpoint toLowerCase (s : string) : string :=
  match s with
  | "" => ""
  | String c rest => String (toLowerCaseUnit c) (toLowerCase rest)
  end.

(** [s.startsWith(p)] and [s.includes(p)]. *)
Fixpoint startsWith (s p : string) {struct p} : bool :=
  match p, s with
  | "", _ => true
  | String _ _, "" => false
  | String a p', String b s' => Ascii.eqb a b && startsWith s' p'
  end.

Fixpoint includes (s p : string) : bool :=
  startsWith s p ||
  match s with
  | "" => false
  | String _ rest => includes rest p
  end.

(** [a.join(sep)] on an array of strings. *)
Fixpoint join (sep : string) (l : list string) : string :=
  match l with
  | [] => ""
  | [x] => x
  | x :: rest => x ++ sep ++ join sep rest
  end.

(** [s.replace(/c/g, '')] for a single code unit [c]. *)
Fixpoint removeAll (c : ascii) (s : string) : string :=
  match s with
  | "" => ""
  | String a rest => if Ascii.eqb a c then removeAll c rest
                     else String a (removeAll c rest)
  end.

(** ** JSON.stringify *)

Definition LF : string := String (ascii_of_nat 10) "".
Definition TAB : string := String (ascii_of_nat 9) "".
Definition DQUOTE : string := String (ascii_of_nat 34) "".

Definition hexDigit (n : nat) : ascii :=
  if (n <? 10)%nat then ascii_of_nat (48 + n) else ascii_of_nat (87 + n).

(** The escape of one code unit in [QuoteJSONString]. *)
Definition quoteUnit (c : ascii) : string :=
  let n := nat_of_ascii c in
  if (n =? 8)%nat then "\b"
  else if (n =? 9)%nat then "\t"
  else if (n =? 10)%nat then "\n"
  else if (n =? 12)%nat then "\f"
  else if (n =? 13)%nat then "\r"
  else if (n =? 34)%nat then "\" ++ DQUOTE
  else if (n =? 92)%nat then "\\"
  else if (n <? 32)%nat
       then "\u00" ++ String (hexDigit (n / 16)) (String (hexDigit (n mod 16)) "")
  else String c "".

Fixpoint quoteUnits (s : string) : string :=
  match s with
  | "" => ""
  | String c rest => quoteUnit c ++ quoteUnits rest
  end.

Definition quoteJSONString (s : string) : string :=
  DQUOTE ++ quoteUnits s ++ DQUOTE.

(** The values the export serializes. *)
Inductive Json :=
| JNull
| JString (s : string)
| JArray (items : list Json)
| JObject (properties : list (string * Json)).

(** [JSON.stringify(value, null, 2)]: [SerializeJSONProperty] with a gap
    of two spaces; [stepback] is the indentation of the enclosing value. *)
Fixpoint serializeJSON (stepback : string) (value : Json) : string :=
  let indent := stepback ++ "  " in
  let separator := "," ++ LF ++ indent in
  match value with
  | JNull => "null"
  | JString s => quoteJSONString s
  | JArray [] => "[]"
  | JArray items =>
      "[" ++ LF ++ indent
      ++ join separator (map (serializeJSON indent) items)
      ++ LF ++ stepback ++ "]"
  | JObject [] => "{}"
  | JObject properties =>
      "{" ++ LF ++ indent
      ++ join separator
           (map (fun kv => let '(k, v) := kv in
                           quoteJSONString k ++ ": " ++ serializeJSON indent v)
                properties)
      ++ LF ++ stepback ++ "}"
  end.

Definition JSON_stringify_2 (value : Json) : string := serializeJSON "" value.

(** [s.replace(/\\e/g, r)]: every backslash followed by the code unit [e]
    becomes [r], from left to right. *)
Fixpoint replaceEscape (e : ascii) (r : string) (s : string) : string :=
  match s with
  | "" => ""
  | String a rest =>
      match rest with
      | String b rest' =>
          if Ascii.eqb a "\" && Ascii.eqb b e
          then r ++ replaceEscape e r rest'
          else String a (replaceEscape e r rest)
      | "" => String a ""
      end
  end.

End Js.

(* ================================================================== *)
(** * The document tree                                                *)
(* ================================================================== *)
Module Dom.

(** What [getBoundingClientRect] returns, as far as the code reads it. *)
Record DOMRect := mkRect { rect_top : Q; rect_height : Q }.

(** An element: its identity (what [===] and a [Map] key compare), its
    attributes in source order, its box, and its child elements. *)
Inductive Element :=
  mkElement (eid : nat) (attributes : list (string * string))
            (rect : DOMRect) (children : list Element).

Definition eid (el : Element) : nat :=
  let 'mkElement i _ _ _ := el in i.
Definition attributes (el : Element) : list (string * string) :=
  let 'mkElement _ a _ _ := el in a.
Definition getBoundingClientRect (el : Element) : DOMRect :=
  let 'mkElement _ _ r _ := el in r.
Definition children (el : Element) : list Element :=
  let 'mkElement _ _ _ c := el in c.

(** [el.getAttribute(name)]: [null] when the attribute is absent. *)
Fixpoint lookupAttribute (attrs : list (string * string)) (name : string)
    : option string :=
  match attrs with
  | [] => None
  | (n, v) :: rest => if String.eqb n name then Some v
                      else lookupAttribute rest name
  end.

Definition getAttribute (el : Element) (name : string) : option string :=
  lookupAttribute (attributes el) name.

Definition hasAttribute (el : Element) (name : string) : bool :=
  match getAttribute el name with Some _ => true | None => false end.

(** The first element in document order, among [el] and its descendants,
    that carries the attribute [name]. *)
Fixpoint firstWithAttribute (name : string) (el : Element) : option Element :=
  if hasAttribute el name then Some el
  else
    (fix inList (l : list Element) : option Element :=
       match l with
       | [] => None
       | c :: rest =>
           match firstWithAttribute name c with
           | Some x => Some x
           | None => inList rest
           end
       end) (children el).

(** [el.querySelector('[name]')]: the first descendant of [el] in document
    order that carries the attribute; [el] itself is not a candidate. *)
Fixpoint querySelectorAttribute (name : string) (cs : list Element)
    : option Element :=
  match cs with
  | [] => None
  | c :: rest =>
      match firstWithAttribute name c with
      | Some x => Some x
      | None => querySelectorAttribute name rest
      end
  end.

End Dom.

(* ================================================================== *)
(** * tokenEstimator.js                                                *)
(* ================================================================== *)
Module TokenEstimator.
Import Js.
Local Open Scope string_scope.

Definition WORD_TOKEN_MULTIPLIER : Q := 1.33.
Definition CHARS_PER_TOKEN : Q := 4.
Definition BYTES_PER_TOKEN : Q := 4.

(** One item of what [Intl.Segmenter.prototype.segment] iterates over. *)
Record SegmentData := mkSegment { segment : string; isWordLike : bool }.

(** A word segmenter, as the platform provides it: [segmenter.segment]. *)
Definition Segmenter : Type := string -> list SegmentData.

(** [countWords].  [segmenter] is what [getWordSegmenter()] returns:
    [None] where [Intl.Segmenter] is missing or cannot be created. *)
Definition countWords (segmenter : option Segmenter) (text : string) : Z :=
  match segmenter with
  | None => Z.of_nat (List.length (filter truthy (splitWhiteSpace text)))
  | Some seg => Z.of_nat (List.length (filter isWordLike (seg text)))
  end.

Record TokenEstimate := mkEstimate {
  tokens : Z;
  words : Z;
  characters : Z;
  graphemes : option Z   (* absent from the two early returns *)
}.

Definition estimateTokensFromText (segmenter : option Segmenter)
    (text : string) : TokenEstimate :=
  if negb (truthy text) then mkEstimate 0 0 0 None
  else
    let cleaned := trim (replaceWhiteSpaceRuns " " text) in
    if negb (truthy cleaned) then mkEstimate 0 0 0 None
    else
      let words := countWords segmenter cleaned in
      let characters :=
        Z.of_nat (String.length (replaceWhiteSpaceRuns "" cleaned)) in
      let graphemes := Z.of_nat (String.length cleaned) in
      let byWord :=
        ceil (inject_Z (if (words =? 0)%Z then 1 else words)
              * WORD_TOKEN_MULTIPLIER) in
      let byCharacter := ceil (inject_Z characters / CHARS_PER_TOKEN) in
      let blended :=
        round (inject_Z byWord * 0.4 + inject_Z byCharacter * 0.6) in
      let tokens := Z.max 1 (Z.max (Z.max byWord byCharacter) blended) in
      mkEstimate tokens words characters (Some graphemes).

(** [estimateTokensFromBytes]; [!bytes] holds for [0] and for [NaN]. *)
Definition estimateTokensFromBytes (bytes : Number) : Z :=
  match bytes with
  | NaN => 0
  | Num b => if Qeq_bool b 0 then 0
             else Z.max 1 (ceil (b / BYTES_PER_TOKEN))
  end.

(** *** The pattern [/([\d.]+)\s*(kib|kb|mib|mb|gib|gb|tib|tb|b)/i] *)

Definition isDigitOrDot (c : ascii) : bool :=
  isDigit c || Ascii.eqb c ".".

(** The ways a greedy [c*] can match at the start of [s], the longest
    first: what is matched and what is left. *)
Fixpoint starSplits (p : ascii -> bool) (s : string) : list (string * string) :=
  match s with
  | "" => [("", "")]
  | String c rest =>
      if p c
      then map (fun mr => (String c (fst mr), snd mr)) (starSplits p rest)
           ++ [("", s)]
      else [("", s)]
  end.

(** The same for [c+]. *)
Definition plusSplits (p : ascii -> bool) (s : string) : list (string * string) :=
  filter (fun mr => truthy (fst mr)) (starSplits p s).

(** The alternatives of the second group, in the order of the pattern. *)
Definition unitAlternatives : list string :=
  ["kib"; "kb"; "mib"; "mb"; "gib"; "gb"; "tib"; "tb"; "b"].

(** The first alternative that matches at the start of [s], letter case
    ignored, as the text it matched. *)
Definition matchUnit (s : string) : option string :=
  match find (fun u => startsWith (toLowerCase s) u) unitAlternatives with
  | Some u => Some (substring 0 (String.length u) s)
  | None => None
  end.

(** The first success among the candidates, in order. *)
Fixpoint firstSome {A B : Type} (f : A -> option B) (l : list A) : option B :=
  match l with
  | [] => None
  | x :: rest => match f x with
                 | Some y => Some y
                 | None => firstSome f rest
                 end
  end.

(** A match that starts at the first code unit of [s], by backtracking:
    the two groups. *)
Definition matchHere (s : string) : option (string * string) :=
  firstSome (fun num =>
    firstSome (fun ws =>
      match matchUnit (snd ws) with
      | Some u => Some (fst num, u)
      | None => None
      end) (starSplits isWhiteSpace (snd num)))
    (plusSplits isDigitOrDot s).

(** [s.match(pattern)]: the leftmost match. *)
Fixpoint matchSize (s : string) : option (string * string) :=
  match matchHere s with
  | Some m => Some m
  | None => match s with
            | "" => None
            | String _ rest => matchSize rest
            end
  end.

(** *** [parseFloat] on a run of digits and dots, which is all the first
    group can hold: the longest prefix that is a decimal literal. *)

Fixpoint takeDigits (s : string) : string * string :=
  match s with
  | "" => ("", "")
  | String c rest =>
      if isDigit c then let '(d, r) := takeDigits rest in (String c d, r)
      else ("", s)
  end.

Definition digitValue (c : ascii) : Z := Z.of_nat (nat_of_ascii c - 48).

(** The integer a string of digits denotes, [acc] being the value read so
    far. *)
Fixpoint digitsValueFrom (acc : Z) (s : string) : Z :=
  match s with
  | "" => acc
  | String c rest => digitsValueFrom (10 * acc + digitValue c) rest
  end.

Definition digitsValue (s : string) : Z := digitsValueFrom 0 s.

Definition parseFloat (s : string) : Number :=
  let '(int, afterInt) := takeDigits s in
  let frac :=
    match afterInt with
    | String "." rest => fst (takeDigits rest)
    | _ => ""
    end in
  if negb (truthy int) && negb (truthy frac) then NaN
  else Num (inject_Z (digitsValue int)
            + inject_Z (digitsValue frac)
              / inject_Z (10 ^ Z.of_nat (String.length frac))).

Definition parseFileSizeToBytes (sizeText : string) : Number :=
  if negb (truthy sizeText) then Num 0
  else
    match matchSize (removeAll "," sizeText) with
    | None => Num 0
    | Some (group1, group2) =>
        let value := parseFloat group1 in
        let unit := toLowerCase group2 in
        let base : Q := 1024 in
        if String.eqb unit "tib" || String.eqb unit "tb"
        then times value (base ^ 4)
        else if String.eqb unit "gib" || String.eqb unit "gb"
        then times value (base ^ 3)
        else if String.eqb unit "mib" || String.eqb unit "mb"
        then times value (base ^ 2)
        else if String.eqb unit "kib" || String.eqb unit "kb"
        then times value base
        else value
    end.

(** [estimateTokensFromFileSizeString]: [{ tokens, bytes }]. *)
Definition estimateTokensFromFileSizeString (sizeText : string)
    : Z * Number :=
  let bytes := parseFileSizeToBytes sizeText in
  (estimateTokensFromBytes bytes, bytes).

End TokenEstimator.

(* ================================================================== *)
(** * Shared utilities: determineMessageRole                           *)
(* ================================================================== *)
Module Roles.
Import Js Dom.
Local Open Scope string_scope.

(** [a || b] on values that are a string or [null]/[undefined]. *)
Definition orElse (a b : option string) : option string :=
  match a with
  | Some s => if truthy s then a else b
  | None => b
  end.

(** [if (v)] on such a value. *)
Definition isTruthy (v : option string) : bool :=
  match v with
  | Some s => truthy s
  | None => false
  end.

(** [(v || '')] *)
Definition orEmpty (v : option string) : string :=
  match v with
  | Some s => s
  | None => ""
  end.

(** [determineMessageRole(el, index)].  The value returned is a string,
    or whatever [getAttribute] returns in the nested case.
    [el.dataset.messageAuthorRole] reads the same attribute as
    [el.getAttribute('data-message-author-role')]. *)
Definition determineMessageRole (el : Element) (index : nat) : option string :=
  let roleAttr :=
    orElse (getAttribute el "data-message-author-role")
           (getAttribute el "data-message-author-role") in
  if isTruthy roleAttr then roleAttr
  else
    match querySelectorAttribute "data-message-author-role" (children el) with
    | Some nestedRoleEl => getAttribute nestedRoleEl "data-message-author-role"
    | None =>
        let testId := toLowerCase (orEmpty (getAttribute el "data-testid")) in
        if includes testId "user" then Some "user"
        else if includes testId "assistant" || includes testId "model"
                || includes testId "gpt" then Some "assistant"
        else
          let ariaLabel :=
            toLowerCase (orEmpty (getAttribute el "aria-label")) in
          if includes ariaLabel "you" then Some "user"
          else if includes ariaLabel "chatgpt"
                  || includes ariaLabel "assistant" then Some "assistant"
          else if (index mod 2 =? 0)%nat then Some "user"
          else Some "assistant"
    end.

End Roles.

(* ================================================================== *)
(** * Feature 2: Prompt Navigator                                      *)
(* ================================================================== *)
Module PromptNavigator.
Import Js Dom.
Local Open Scope Q_scope.

(** The [kind] of an anchor: ['top'], ['bottom'], ['chat-bottom']. *)
Inductive Kind := top | bottom | chat_bottom.

Definition Kind_eqb (a b : Kind) : bool :=
  match a, b with
  | top, top | bottom, bottom | chat_bottom, chat_bottom => true
  | _, _ => false
  end.

(** An anchor holds a reference to its element ([null] for the trailing
    one); the reference is the element's identity. *)
Record Anchor := mkAnchor {
  element : option nat;
  kind : Kind;
  y : Q;
  promptIndex : nat
}.

(** The result of [getScrollContext], with the [scrollHeight] of the
    container it found. *)
Record ScrollContext := mkContext {
  scrollTop : Q;
  viewHeight : Q;
  containerTop : Q;
  isWindow : bool;
  container_scrollHeight : Q
}.

(** [context.isWindow ? document.documentElement.scrollHeight
                      : context.container.scrollHeight] *)
Definition scrollHeightOf (documentElement_scrollHeight : Q)
    (context : ScrollContext) : Q :=
  if isWindow context then documentElement_scrollHeight
  else container_scrollHeight context.

(** The body of [prompts.forEach((el, index) => ...)] in [buildAnchors]. *)
Fixpoint pushPromptAnchors (context : ScrollContext) (largeThreshold : Q)
    (els : list Element) (index : nat) : list Anchor :=
  match els with
  | [] => []
  | el :: rest =>
      let rect := getBoundingClientRect el in
      let topY := scrollTop context + (rect_top rect - containerTop context) in
      let height := rect_height rect in
      (mkAnchor (Some (eid el)) top topY index
         :: (if Qlt_bool largeThreshold height
             then [mkAnchor (Some (eid el)) bottom (topY + height) index]
             else []))
      ++ pushPromptAnchors context largeThreshold rest (S index)
  end.

Definition unsortedAnchors (docH : Q) (prompts : list Element)
    (context : ScrollContext) : list Anchor :=
  let largeThreshold := viewHeight context * 0.8 in
  pushPromptAnchors context largeThreshold prompts 0
  ++ [mkAnchor None chat_bottom (scrollHeightOf docH context)
               (List.length prompts)].

Definition buildAnchors (docH : Q) (prompts : list Element)
    (context : ScrollContext) : list Anchor :=
  sort (fun a b => y a - y b) (unsortedAnchors docH prompts context).

(** The recorded anchor: [{ element, kind }]. *)
Definition LastAnchor : Type := (option nat * Kind)%type.

Definition sameAnchor (la : LastAnchor) (a : Anchor) : bool :=
  match element a, fst la with
  | Some i, Some j => Nat.eqb i j
  | None, None => true
  | _, _ => false
  end && Kind_eqb (kind a) (snd la).

(** [Array.prototype.findIndex]: the first index that satisfies the
    predicate, [-1] when there is none. *)
Fixpoint findIndex {A : Type} (p : A -> bool) (l : list A) : Z :=
  match l with
  | [] => (-1)%Z
  | x :: t => if p x then 0%Z
              else let r := findIndex p t in
                   if (r =? -1)%Z then (-1)%Z else (r + 1)%Z
  end.

(** [getTargetScroll], the helper local to [findTargetAnchor]. *)
Definition getTargetScroll (docH : Q) (context : ScrollContext)
    (anchor : Anchor) : Q :=
  let scrollOffset := viewHeight context * 0.15 in
  match kind anchor with
  | chat_bottom => scrollHeightOf docH context - viewHeight context
  | top => y anchor - scrollOffset
  | bottom => y anchor - viewHeight context + viewHeight context * 0.2
  end.

(** Array indexing with a number that is an integer here. *)
Definition at_index {A : Type} (l : list A) (i : Z) : option A :=
  if (i <? 0)%Z then None else nth_error l (Z.to_nat i).

Definition findTargetAnchor (docH : Q) (lastAnchor : option LastAnchor)
    (anchors : list Anchor) (context : ScrollContext) (direction : string)
    : option Anchor :=
  let currentScroll := scrollTop context in
  let currentIndex :=
    match lastAnchor with
    | Some la => findIndex (sameAnchor la) anchors
    | None => (-1)%Z
    end in
  if (currentIndex =? -1)%Z then
    let tolerance := 10 in
    if String.eqb direction "previous" then
      find (fun a => Qlt_bool (getTargetScroll docH context a)
                              (currentScroll - tolerance))
           (rev anchors)
    else
      find (fun a => Qlt_bool (currentScroll + tolerance)
                              (getTargetScroll docH context a))
           anchors
  else if String.eqb direction "next" then
    if (currentIndex >=? Z.of_nat (List.length anchors) - 1)%Z then None
    else at_index anchors (currentIndex + 1)
  else
    if (currentIndex <=? 0)%Z then None
    else at_index anchors (currentIndex - 1).

Inductive Behavior := behavior_auto | behavior_smooth.

(** The argument of [scrollTo]. *)
Record ScrollTo := mkScrollTo { scroll_top : Q; scroll_behavior : Behavior }.

(** The module state the navigator keeps between calls. *)
Record State := mkState {
  prompts : list Element;
  lastAnchor : option LastAnchor;
  lastJumpTime : Z
}.

(** [scrollToAnchor]: the new [lastJumpTime] and the scroll it requests;
    [now] is [Date.now()]. *)
Definition scrollToAnchor (docH : Q) (now : Z) (lastJump : Z)
    (anchor : Anchor) (context : ScrollContext) : Z * ScrollTo :=
  let isRapid := (now - lastJump <? 300)%Z in
  let behavior := if isRapid then behavior_auto else behavior_smooth in
  let targetScrollTop :=
    match kind anchor with
    | chat_bottom => scrollHeightOf docH context - viewHeight context
    | top => y anchor - viewHeight context * 0.15
    | bottom => y anchor - viewHeight context + viewHeight context * 0.2
    end in
  let maxScroll := scrollHeightOf docH context - viewHeight context in
  (now, mkScrollTo (clamp targetScrollTop maxScroll) behavior).

Inductive JumpResult :=
| Success (promptIndex : nat) (total : nat)
| Failure (reason : string).

(** [jump(direction)].  [docH], [context] and [now] are what the call
    reads from the page and the clock; the result comes with the new
    module state and the scroll that was requested, if any. *)
Definition jump (docH : Q) (context : ScrollContext) (now : Z)
    (st : State) (direction : string)
    : JumpResult * State * option ScrollTo :=
  match prompts st with
  | [] => (Failure "no_prompts", st, None)
  | _ :: _ =>
      let anchors := buildAnchors docH (prompts st) context in
      match anchors with
      | [] => (Failure "no_anchors", st, None)
      | _ :: _ =>
          match findTargetAnchor docH (lastAnchor st) anchors context
                                 direction with
          | None => (Failure "no_target", st, None)
          | Some target =>
              let '(t, cmd) :=
                scrollToAnchor docH now (lastJumpTime st) target context in
              (Success (promptIndex target) (List.length (prompts st)),
               mkState (prompts st) (Some (element target, kind target)) t,
               Some cmd)
          end
      end
  end.

End PromptNavigator.

(* ================================================================== *)
(** * Feature 5: Context Collector                                     *)
(* ================================================================== *)
Module ContextCollector.
Import Js Dom Roles.
Local Open Scope string_scope.

(** What [selectTurn] captures for a turn. *)
Record Entry := mkEntry {
  index : nat;
  role : option string;
  text : string;
  tokens : Z
}.

(** [selectedTurns]: a [Map] from turn elements to entries.  A [Map]
    iterates in insertion order and compares keys by identity: it is the
    list of its entries, oldest first, no key twice. *)
Definition SelectionMap : Type := list (nat * Entry).

Fixpoint has (m : SelectionMap) (k : nat) : bool :=
  match m with
  | [] => false
  | (k', _) :: rest => Nat.eqb k' k || has rest k
  end.

(** [m.set(k, v)]: a present key keeps its place, a new one goes last. *)
Fixpoint set (m : SelectionMap) (k : nat) (v : Entry) : SelectionMap :=
  match m with
  | [] => [(k, v)]
  | (k', v') :: rest =>
      if Nat.eqb k' k then (k', v) :: rest else (k', v') :: set rest k v
  end.

(** [m.delete(k)] *)
Definition delete (m : SelectionMap) (k : nat) : SelectionMap :=
  filter (fun kv => negb (Nat.eqb (fst kv) k)) m.

Definition DELIMITER_PRESETS : list (string * string) :=
  [ ("newline", LF ++ LF);
    ("dash", LF ++ LF ++ "---" ++ LF ++ LF);
    ("equals", LF ++ LF ++ "===" ++ LF ++ LF);
    ("custom", "") ].

Record Delimiter := mkDelimiter { preset : string; custom : string }.

(** The module state of the collector. *)
Record State := mkState {
  selectedTurns : SelectionMap;
  lastClickedIndex : Z;
  allTurns : list Element;
  currentDelimiter : Delimiter
}.

Definition withSelection (st : State) (m : SelectionMap) : State :=
  mkState m (lastClickedIndex st) (allTurns st) (currentDelimiter st).

Fixpoint lookupPreset (presets : list (string * string)) (name : string)
    : option string :=
  match presets with
  | [] => None
  | (n, v) :: rest => if String.eqb n name then Some v
                      else lookupPreset rest name
  end.

Definition getDelimiterValue (st : State) : string :=
  let d := currentDelimiter st in
  if String.eqb (preset d) "custom" then
    replaceEscape "t" TAB
      (replaceEscape "n" LF (if truthy (custom d) then custom d else LF ++ LF))
  else
    match lookupPreset DELIMITER_PRESETS (preset d) with
    | Some v => if truthy v then v else LF ++ LF
    | None => LF ++ LF
    end.

Section Collector.
(** [extractTurnText]: the text the page renders for a turn, cleaned of
    interface chrome.  It reads the rendered text of the live document,
    which is outside this model. *)
Variable extractTurnText : Element -> string.

(** [window.ChatGPTTokenEstimator]: absent when the estimator script is
    not loaded; otherwise the word segmenter it works with. *)
Variable estimator : option (option TokenEstimator.Segmenter).

Definition selectTurn (st : State) (index : nat) : State :=
  match nth_error (allTurns st) index with
  | None => st
  | Some turn =>
      if has (selectedTurns st) (eid turn) then st
      else
        let role := determineMessageRole turn index in
        let text := extractTurnText turn in
        let tokens :=
          match estimator with
          | Some segmenter =>
              TokenEstimator.tokens
                (TokenEstimator.estimateTokensFromText segmenter text)
          | None => 0%Z
          end in
        withSelection st
          (set (selectedTurns st) (eid turn) (mkEntry index role text tokens))
  end.

Definition toggleTurn (st : State) (index : nat) : State :=
  match nth_error (allTurns st) index with
  | None => st
  | Some turn =>
      if has (selectedTurns st) (eid turn)
      then withSelection st (delete (selectedTurns st) (eid turn))
      else selectTurn st index
  end.

(** [for (let i = start; i <= end; i++) selectTurn(i)], and the same loop
    with [i < end]: [count] iterations from [start]. *)
Fixpoint selectRange (st : State) (start count : nat) : State :=
  match count with
  | O => st
  | S count' => selectRange (selectTurn st start) (S start) count'
  end.

(** [handleTurnClick(index, isShiftClick)]; [index] is the position the
    clicked checkbox was created with. *)
Definition handleTurnClick (st : State) (index : nat) (isShiftClick : bool)
    : State :=
  let st' :=
    if isShiftClick && (lastClickedIndex st >=? 0)%Z then
      let start := Z.min (lastClickedIndex st) (Z.of_nat index) in
      let end_ := Z.max (lastClickedIndex st) (Z.of_nat index) in
      selectRange st (Z.to_nat start) (Z.to_nat (end_ - start + 1))
    else toggleTurn st index in
  mkState (selectedTurns st') (Z.of_nat index) (allTurns st')
          (currentDelimiter st').

Definition clearSelection (st : State) : State :=
  mkState [] (-1) (allTurns st) (currentDelimiter st).

Definition selectAll (st : State) : State :=
  selectRange st 0 (List.length (allTurns st)).

Definition selectLast (st : State) (n : Z) : State :=
  let st' := clearSelection st in
  let len := Z.of_nat (List.length (allTurns st')) in
  let start := Z.max 0 (len - n) in
  selectRange st' (Z.to_nat start) (Z.to_nat (len - start)).

(** [turnRole === role] *)
Definition roleIs (turnRole : option string) (role : string) : bool :=
  match turnRole with
  | Some r => String.eqb r role
  | None => false
  end.

(** The body of [allTurns.forEach((turn, i) => ...)] in [selectByRole],
    from position [i] on. *)
Fixpoint selectRoleFrom (st : State) (role : string) (turns : list Element)
    (i : nat) : State :=
  match turns with
  | [] => st
  | turn :: rest =>
      let turnRole := determineMessageRole turn i in
      selectRoleFrom (if roleIs turnRole role then selectTurn st i else st)
                     role rest (S i)
  end.

Definition selectByRole (st : State) (role : string) : State :=
  let st' := clearSelection st in
  selectRoleFrom st' role (allTurns st') 0.
End Collector.

(** [Array.from(selectedTurns.entries()).sort((a, b) => a[1].index - b[1].index)] *)
Definition sortedEntries (m : SelectionMap) : list (nat * Entry) :=
  sort (fun a b => inject_Z (Z.of_nat (index (snd a)))
                   - inject_Z (Z.of_nat (index (snd b)))) m.

Definition roleValue (r : option string) : Json :=
  match r with
  | Some s => JString s
  | None => JNull
  end.

Definition formatOutputAs (st : State) (format : string) : string :=
  let sorted := sortedEntries (selectedTurns st) in
  let delimiter := getDelimiterValue st in
  if String.eqb format "plain" then
    join delimiter
      (map (fun e => let data := snd e in
                     let roleLabel :=
                       if roleIs (role data) "user" then "User"
                       else "Assistant" in
                     roleLabel ++ ":" ++ LF ++ text data) sorted)
  else if String.eqb format "json" then
    let messages :=
      map (fun e => let data := snd e in
                    JObject [("role", roleValue (role data));
                             ("content", JString (text data))]) sorted in
    JSON_stringify_2 (JArray messages)
  else if String.eqb format "xml" then
    join LF
      (map (fun e => let data := snd e in
                     let tag := if roleIs (role data) "user" then "user"
                                else "assistant" in
                     "<" ++ tag ++ ">" ++ LF ++ text data ++ LF
                     ++ "</" ++ tag ++ ">") sorted)
  else "".

End ContextCollector.

(* ================================================================== *)
(** * Feature 2: Prompt Navigator, the position indicator             *)
(* ================================================================== *)
Module PromptNavigatorStatus.
Import Js Dom PromptNavigator.
Local Open Scope Q_scope.

(** The loop of [getCurrentPromptIndex], from position [i] on:
    [activeIndex] is the last position found so far. *)
Fixpoint activeIndexFrom (context : ScrollContext) (thresholdY : Q)
    (els : list Element) (i : nat) (activeIndex : Z) : Z :=
  match els with
  | [] => activeIndex
  | el :: rest =>
      let rect := getBoundingClientRect el in
      let topY := scrollTop context + (rect_top rect - containerTop context) in
      if Qle_bool topY thresholdY
      then activeIndexFrom context thresholdY rest (S i) (Z.of_nat i)
      else activeIndex
  end.

(** [getCurrentPromptIndex()], on the prompts of the last scan and the
    scroll context it reads. *)
Definition getCurrentPromptIndex (prompts : list Element)
    (context : ScrollContext) : Z :=
  match prompts with
  | [] => (-1)%Z
  | _ :: _ =>
      let thresholdY := scrollTop context + (viewHeight context / 2) in
      activeIndexFrom context thresholdY prompts 0 (-1)
  end.

End PromptNavigatorStatus.

(* ================================================================== *)
(** * Shared utilities: finding the turns of the conversation          *)
(* ================================================================== *)
Module Scanner.
Import Js Dom Roles.
Local Open Scope string_scope.

(** What [window.getComputedStyle] returns, as far as the code reads
    it. *)
Record Style := mkStyle {
  display : string;
  visibility : string;
  opacity : string
}.

(** What the code reads of an element besides its attributes, its
    children and the top and height of its box: its local name, the width
    of its box and its computed style, by the identity of the element. *)
Record Page := mkPage {
  localName : nat -> string;
  rect_width : nat -> Q;
  computedStyle : nat -> Style
}.

(** [isElementVisible(el)] for an element that is not [null]. *)
Definition isElementVisible (page : Page) (el : Element) : bool :=
  let rect := getBoundingClientRect el in
  if Qeq_bool (rect_height rect) 0 || Qeq_bool (rect_width page (eid el)) 0
  then false
  else
    let style := computedStyle page (eid el) in
    negb (String.eqb (display style) "none")
    && negb (String.eqb (visibility style) "hidden")
    && negb (String.eqb (opacity style) "0").

(** The selector [[data-testid^="conversation-turn"]]. *)
Definition isTurnContainer (el : Element) : bool :=
  match getAttribute el "data-testid" with
  | Some v => startsWith v "conversation-turn"
  | None => false
  end.

(** The selector [[data-message-author-role]]. *)
Definition hasRoleAttribute (el : Element) : bool :=
  hasAttribute el "data-message-author-role".

(** The selector [article]. *)
Definition isArticle (page : Page) (el : Element) : bool :=
  String.eqb (localName page (eid el)) "article".

(** An element and the elements below it in document order, each with
    its ancestors, the nearest first. *)
Fixpoint withAncestors (ancestors : list Element) (el : Element)
    : list (Element * list Element) :=
  (el, ancestors) :: flat_map (withAncestors (el :: ancestors)) (children el).

(** [root.querySelectorAll(selector)]: the descendants of [root] that
    match, in document order; [rootAncestors] are the ancestors of
    [root]. *)
Definition querySelectorAll (selector : Element -> bool) (root : Element)
    (rootAncestors : list Element) : list (Element * list Element) :=
  filter (fun n => selector (fst n))
         (flat_map (withAncestors (root :: rootAncestors)) (children root)).

(** [node.closest(selector)]: the node itself or its nearest ancestor
    that matches. *)
Definition closest (selector : Element -> bool)
    (node : Element * list Element) : option Element :=
  find selector (fst node :: snd node).

(** The body of [candidates.forEach] in [collectConversationTurns];
    [seen] holds the identities of the containers pushed so far. *)
Fixpoint collectFrom (page : Page) (seen : list nat)
    (candidates : list (Element * list Element)) : list Element :=
  match candidates with
  | [] => []
  | node :: rest =>
      let container :=
        match closest isTurnContainer node with
        | Some c => c
        | None => match closest (isArticle page) node with
                  | Some c => c
                  | None => fst node
                  end
        end in
      if existsb (Nat.eqb (eid container)) seen
      then collectFrom page seen rest
      else container :: collectFrom page (eid container :: seen) rest
  end.

Definition collectConversationTurns (page : Page) (root : Element)
    (rootAncestors : list Element) : list Element :=
  let candidates :=
    querySelectorAll (fun el => isTurnContainer el || hasRoleAttribute el)
                     root rootAncestors in
  match candidates with
  | [] => map fst (querySelectorAll (isArticle page) root rootAncestors)
  | _ :: _ => collectFrom page [] candidates
  end.

(** [role === 'user'] *)
Definition isUser (role : option string) : bool :=
  match role with
  | Some r => String.eqb r "user"
  | None => false
  end.

(** The body of [turns.forEach((turn, index) => ...)] in [scan], from
    position [index] on: the visible turns classified as user turns. *)
Fixpoint userPromptsFrom (page : Page) (turns : list Element) (index : nat)
    : list Element :=
  match turns with
  | [] => []
  | turn :: rest =>
      if negb (isElementVisible page turn)
      then userPromptsFrom page rest (S index)
      else if isUser (determineMessageRole turn index)
      then turn :: userPromptsFrom page rest (S index)
      else userPromptsFrom page rest (S index)
  end.

(** [PromptNavigator.scan()]: the new value of [prompts].  [main] is what
    [getConversationMain()] returns, with its ancestors. *)
Definition scan (page : Page) (main : option (Element * list Element))
    : list Element :=
  match main with
  | None => []
  | Some (root, rootAncestors) =>
      let turns := collectConversationTurns page root rootAncestors in
      let userPrompts := userPromptsFrom page turns 0 in
      match userPrompts, turns with
      | [], _ :: _ => filter (isElementVisible page) turns
      | _, _ => userPrompts
      end
  end.

(** [SessionTracker.getCurrentPromptCount()] *)
Definition getCurrentPromptCount (page : Page)
    (main : option (Element * list Element)) : nat :=
  match main with
  | None => 0
  | Some (root, rootAncestors) =>
      List.length
        (userPromptsFrom page
           (collectConversationTurns page root rootAncestors) 0)
  end.

End Scanner.

(* ================================================================== *)
(** * Feature 5: Context Collector, selection mode                     *)
(* ================================================================== *)
Module SelectionMode.
Import Js Dom Roles Scanner ContextCollector.
Local Open Scope string_scope.

(** The collector's state with the flag [selectionMode]. *)
Record Session := mkSession {
  selectionMode : bool;
  collector : State
}.

Section Mode.
(** [isThinkingIndicator]: whether the text of a turn is only the marker
    of a reasoning phase.  It reads the rendered text of the live
    document. *)
Variable isThinkingIndicator : Element -> bool.
Variable extractTurnText : Element -> string.
Variable estimator : option (option TokenEstimator.Segmenter).

(** [scanTurns()]: the new value of [allTurns]. *)
Definition scanTurns (page : Page) (main : option (Element * list Element))
    : list Element :=
  match main with
  | None => []
  | Some (root, rootAncestors) =>
      filter (fun t => isElementVisible page t && negb (isThinkingIndicator t))
             (collectConversationTurns page root rootAncestors)
  end.

Definition enterSelectionMode (page : Page)
    (main : option (Element * list Element)) (s : Session) : Session :=
  mkSession true
    (mkState (selectedTurns (collector s)) (lastClickedIndex (collector s))
             (scanTurns page main) (currentDelimiter (collector s))).

Definition exitSelectionMode (s : Session) : Session :=
  mkSession false
    (mkState [] (-1) (allTurns (collector s))
             (currentDelimiter (collector s))).

Definition toggleSelectionMode (page : Page)
    (main : option (Element * list Element)) (s : Session) : Session :=
  if selectionMode s then exitSelectionMode s
  else enterSelectionMode page main s.

(** [setDelimiter(delimiter)], and the input handler of the custom
    delimiter field, which assigns [currentDelimiter] the same way. *)
Definition setDelimiter (delimiter : Delimiter) (st : State) : State :=
  mkState (selectedTurns st) (lastClickedIndex st) (allTurns st) delimiter.

(** What the user can do.  The checkboxes and the panel exist in
    selection mode only; the key handler tests [selectionMode]. *)
Inductive Event :=
| ClickFab (page : Page) (main : option (Element * list Element))
| ClickCheckbox (index : nat) (shiftKey : bool)
| QuickSelectAll
| QuickSelectLast (n : Z)
| QuickSelectByRole (role : string)
| QuickClear
| ChooseDelimiter (delimiter : Delimiter)
| PressEscape
| Disable.

Definition inMode (s : Session) (f : State -> State) : Session :=
  if selectionMode s then mkSession true (f (collector s)) else s.

(** The handler of each event. *)
Definition handle (s : Session) (e : Event) : Session :=
  match e with
  | ClickFab page main => toggleSelectionMode page main s
  | ClickCheckbox index shiftKey =>
      inMode s (fun st =>
        handleTurnClick extractTurnText estimator st index shiftKey)
  | QuickSelectAll => inMode s (selectAll extractTurnText estimator)
  | QuickSelectLast n =>
      inMode s (fun st => selectLast extractTurnText estimator st n)
  | QuickSelectByRole role =>
      inMode s (fun st => selectByRole extractTurnText estimator st role)
  | QuickClear => inMode s clearSelection
  | ChooseDelimiter delimiter => inMode s (setDelimiter delimiter)
  | PressEscape => if selectionMode s then exitSelectionMode s else s
  | Disable => exitSelectionMode s
  end.

Definition run (s : Session) (events : list Event) : Session :=
  fold_left handle events s.

End Mode.

(** [copyAs(format)]: the text written to the clipboard, if any. *)
Definition copyAs (st : State) (format : string) : option string :=
  let output := formatOutputAs st format in
  if truthy output then Some output else None.

(** The session when the script is loaded. *)
Definition loaded (delimiter : Delimiter) : Session :=
  mkSession false (mkState [] (-1) [] delimiter).

End SelectionMode.

(* ================================================================== *)
(** * Feature 4: Session Time Tracker                                  *)
(* ================================================================== *)
Module SessionTracker.
Import Js Dom Scanner.
Local Open Scope Z_scope.

(** The module state: two times in milliseconds, [None] for [null], and
    the number of prompts last seen. *)
Record State := mkState {
  sessionStartTime : option Z;
  lastPromptTime : option Z;
  lastPromptCount : nat
}.

(** Whether a time is truthy: neither [null] nor [0]. *)
Definition isSet (t : option Z) : bool :=
  match t with
  | Some z => negb (z =? 0)
  | None => false
  end.

(** What [formatCompactTime] returns: ['—'], [`${days}d`],
    [`${hours}h`], [`${minutes}m`] and ['<1m']. *)
Inductive CompactTime :=
| NoTime
| Days (days : Z)
| Hours (hours : Z)
| Minutes (minutes : Z)
| UnderMinute.

(** [formatCompactTime(timestamp)], [now] being what [Date.now()]
    returns. *)
Definition formatCompactTime (now : Z) (timestamp : option Z) : CompactTime :=
  match timestamp with
  | None => NoTime
  | Some t =>
      if negb (isSet timestamp) then NoTime
      else
        let diff := now - t in
        let minutes := Qfloor (inject_Z diff / 60000) in
        let hours := Qfloor (inject_Z minutes / 60) in
        let days := Qfloor (inject_Z hours / 24) in
        if 0 <? days then Days days
        else if 0 <? hours then Hours hours
        else if 0 <? minutes then Minutes minutes
        else UnderMinute
  end.

(** What [loadSessionData()] reads of a stored session. *)
Record SessionData := mkData {
  storedStartTime : option Z;
  storedPromptTime : option Z
}.

(** [t || null] *)
Definition orNull (t : option Z) : option Z := if isSet t then t else None.

(** [initSession()]; [existingData] is what [loadSessionData()] returns. *)
Definition initSession (page : Page) (main : option (Element * list Element))
    (existingData : option SessionData) : State :=
  let currentCount := getCurrentPromptCount page main in
  match existingData with
  | Some data =>
      mkState (orNull (storedStartTime data)) (orNull (storedPromptTime data))
              currentCount
  | None => mkState None None currentCount
  end.

(** [checkForNewPrompts()], [now] being what [Date.now()] returns. *)
Definition checkForNewPrompts (page : Page)
    (main : option (Element * list Element)) (now : Z) (st : State) : State :=
  let currentCount := getCurrentPromptCount page main in
  if (lastPromptCount st <? currentCount)%nat then
    let start :=
      if negb (isSet (sessionStartTime st)) && (currentCount =? 1)%nat
      then Some now else sessionStartTime st in
    let last :=
      if (2 <=? currentCount)%nat then Some now else lastPromptTime st in
    mkState start last currentCount
  else st.

End SessionTracker.

(* ================================================================== *)
(** * Feature 1: Token Counter                                         *)
(* ================================================================== *)
Module TokenCounter.
Import Js Dom Roles TokenEstimator.
Local Open Scope string_scope.

(** ** Regular expressions

    The fragment the size pattern is written in: classes of code units,
    sequence, alternation, the greedy [?], and the greedy [*] and [+] on
    a class. *)
Inductive Regex :=
| Class (p : ascii -> bool)
| Seq (a b : Regex)
| Alt (a b : Regex)
| Opt (a : Regex)
| Star (p : ascii -> bool)
| Plus (p : ascii -> bool).

Section Matcher.
Context {A : Type}.

(** A greedy [c*] at the start of [s]: the longest run first, then
    shorter ones, until the continuation [k] accepts what is left. *)
Fixpoint star (p : ascii -> bool) (s : string) (k : string -> option A)
    : option A :=
  match s with
  | String c rest =>
      if p c then
        match star p rest k with
        | Some x => Some x
        | None => k s
        end
      else k s
  | "" => k s
  end.

(** The backtracking matcher: [r] at the start of [s], then [k] on what
    is left; the first success in the order of the pattern. *)
Fixpoint matchAt (r : Regex) (s : string) (k : string -> option A)
    : option A :=
  match r with
  | Class p =>
      match s with
      | String c rest => if p c then k rest else None
      | "" => None
      end
  | Seq a b => matchAt a s (fun s' => matchAt b s' k)
  | Alt a b =>
      match matchAt a s k with
      | Some x => Some x
      | None => matchAt b s k
      end
  | Opt a =>
      match matchAt a s k with
      | Some x => Some x
      | None => k s
      end
  | Star p => star p s k
  | Plus p =>
      match s with
      | String c rest => if p c then star p rest k else None
      | "" => None
      end
  end.

End Matcher.

(** The text [r] matches at the start of [s]. *)
Definition matchedAt (r : Regex) (s : string) : option string :=
  match matchAt r s Some with
  | Some rest => Some (substring 0 (String.length s - String.length rest) s)
  | None => None
  end.

(** [s.match(r)] for a pattern without the flag [g]: the text of the
    leftmost match. *)
Fixpoint matchFirst (r : Regex) (s : string) : option string :=
  match matchedAt r s with
  | Some m => Some m
  | None => match s with
            | "" => None
            | String _ rest => matchFirst r rest
            end
  end.

(** A letter under the flag [i]. *)
Definition letter (l : ascii) : Regex :=
  Class (fun c => Ascii.eqb (toLowerCaseUnit c) l).

(** [[kmgt]] under the flag [i]. *)
Definition kmgt : Regex :=
  Class (fun c => let l := toLowerCaseUnit c in
                  Ascii.eqb l "k" || Ascii.eqb l "m" || Ascii.eqb l "g"
                  || Ascii.eqb l "t").

(** [[\d.,]] *)
Definition isSizeDigit (c : ascii) : bool :=
  isDigit c || Ascii.eqb c "." || Ascii.eqb c ",".

(** [SIZE_PATTERN]:
    [/([\d.,]+\s*(?:[kmgt]i?b|[kmgt]?b|bytes?))/i].  Its only group is
    the whole pattern. *)
Definition SIZE_PATTERN : Regex :=
  Seq (Plus isSizeDigit)
   (Seq (Star isWhiteSpace)
     (Alt (Seq kmgt (Seq (Opt (letter "i")) (letter "b")))
     (Alt (Seq (Opt kmgt) (letter "b"))
          (Seq (letter "b") (Seq (letter "y") (Seq (letter "t")
            (Seq (letter "e") (Opt (letter "s"))))))))).

(** ** Numbers as text *)

Definition digitChar (d : Z) : ascii := ascii_of_nat (48 + Z.to_nat d).

(** The decimal digits of [n], the most significant first, before
    [acc]. *)
Fixpoint digitsOf (fuel : nat) (n : Z) (acc : string) : string :=
  match fuel with
  | O => acc
  | S fuel' =>
      let acc' := String (digitChar (n mod 10)) acc in
      if (n <? 10)%Z then acc' else digitsOf fuel' (n / 10) acc'
  end.

(** The decimal representation of an integer that is not negative.  It
    has no more digits than [n] has bits. *)
Definition integerDigits (n : Z) : string :=
  digitsOf (S (Z.to_nat (Z.log2 n))) n "".

Fixpoint zeros (n : nat) : string :=
  match n with
  | O => ""
  | S n' => String "0" (zeros n')
  end.

Section Format.
(** [String(x)] for a number [x] that is 1e21 or more, which is written
    with an exponent.  The digits are those of the binary64 value. *)
Variable exponentNotation : Q -> string.

(** [x.toFixed(f)] for [x] not negative: the integer [n] nearest to
    [x * 10^f], the larger of two, written with [f] digits after the
    point. *)
Definition toFixed (x : Q) (f : nat) : string :=
  if Qle_bool (inject_Z (10 ^ 21)) x then exponentNotation x
  else
    let n := Qfloor (x * inject_Z (10 ^ Z.of_nat f) + (1 # 2))%Q in
    let m := integerDigits n in
    if Nat.eqb f 0 then m
    else
      let m := zeros (f + 1 - String.length m) ++ m in
      let k := String.length m in
      substring 0 (k - f) m ++ "." ++ substring (k - f) f m.

Definition units : list string := ["B"; "KB"; "MB"; "GB"; "TB"].

(** The loop of [formatBytes]; it runs four times at most, [unitIndex]
    starting at 0. *)
Fixpoint scale (fuel : nat) (value : Q) (unitIndex : nat) : Q * nat :=
  match fuel with
  | O => (value, unitIndex)
  | S fuel' =>
      if Qle_bool 1024 value && (unitIndex <? List.length units - 1)%nat
      then scale fuel' (value / 1024)%Q (S unitIndex)
      else (value, unitIndex)
  end.

(** [formatBytes(bytes)]; [None] is [null], as an argument and as the
    result. *)
Definition formatBytes (bytes : option Number) : option string :=
  match bytes with
  | Some (Num b) =>
      if Qle_bool b 0 then None
      else
        let '(value, unitIndex) := scale 4 b 0 in
        let precision :=
          if Qle_bool 100 value then 0%nat
          else if Qle_bool 10 value then 1%nat else 2%nat in
        Some (toFixed value precision ++ " " ++ nth unitIndex units "")
  | _ => None
  end.

(** [s.replace(/[^0-9.]/g, '')] *)
Fixpoint keepDigitsAndDots (s : string) : string :=
  match s with
  | "" => ""
  | String c rest =>
      if isDigitOrDot c then String c (keepDigitsAndDots rest)
      else keepDigitsAndDots rest
  end.

(** ** The Number type

    [Number(s)] is a binary64 value: the decimal numeral is rounded to
    the nearest value with a 53-bit significand, a tie going to the even
    significand, and a numeral too large for the format is [Infinity]. *)

(** [2^k], for [k] of either sign. *)
Definition pow2 (k : Z) : Q :=
  if (0 <=? k)%Z then inject_Z (2 ^ k) else (/ inject_Z (2 ^ (- k)))%Q.

(** The integer nearest to [q], the even one of two. *)
Definition roundTiesToEven (q : Q) : Z :=
  let f := Qfloor q in
  match (q - inject_Z f ?= 1 # 2)%Q with
  | Lt => f
  | Gt => (f + 1)%Z
  | Eq => if Z.even f then f else (f + 1)%Z
  end.

(** The [e] with [2^e <= q < 2^(e+1)], for [q] above 0. *)
Definition binaryExponent (q : Q) : Z :=
  let e := (Z.log2 (Qnum q) - Z.log2 (Zpos (Qden q)))%Z in
  if Qlt_bool q (pow2 e) then (e - 1)%Z else e.

(** The binary64 value of a rational [q] that is not negative; [None]
    is [Infinity].  The significand has 53 bits down to the exponent
    -1022, and fewer below (the subnormal values); rounding to [2^1024]
    or more overflows. *)
Definition toBinary64 (q : Q) : option Q :=
  if Qle_bool q 0 then Some 0%Q
  else
    let e := Z.max (binaryExponent q) (-1022) in
    let ulp := pow2 (e - 52) in
    let rounded := (inject_Z (roundTiesToEven (q / ulp)) * ulp)%Q in
    if Qle_bool (pow2 1024) rounded then None else Some rounded.

(** The values [Number(s)] has here. *)
Inductive NumberValue :=
| Finite (q : Q)
| Infinity
| NotANumber.

Definition ofDecimal (q : Q) : NumberValue :=
  match toBinary64 q with
  | Some x => Finite x
  | None => Infinity
  end.

(** [Number(s)] on digits and dots, which is all [numeric] can hold: a
    decimal literal, all of [s], or [NaN]; the empty string is 0. *)
Definition toNumber (s : string) : NumberValue :=
  let '(int, afterInt) := takeDigits s in
  match afterInt with
  | "" => ofDecimal (inject_Z (digitsValue int))
  | String "." rest =>
      let '(frac, afterFrac) := takeDigits rest in
      if truthy afterFrac then NotANumber
      else if negb (truthy int) && negb (truthy frac) then NotANumber
      else ofDecimal (inject_Z (digitsValue int)
                      + inject_Z (digitsValue frac)
                        / inject_Z (10 ^ Z.of_nat (String.length frac)))
  | _ => NotANumber
  end.

(** What [parseBytesValue] returns, and [resolveAttachmentSize]:
    [{ sizeText, bytes, source }], [None] for [null]. *)
Record Size := mkSize {
  sizeText : option string;
  bytes : option Number;
  source : option string
}.

(** [if (n)] on a number or [null]. *)
Definition numberTruthy (n : option Number) : bool :=
  match n with
  | Some (Num q) => negb (Qeq_bool q 0)
  | _ => false
  end.

(** [parseBytesValue(value, source)] *)
Definition parseBytesValue (value : option string) (source : string)
    : option Size :=
  match value with
  | None => None
  | Some v =>
      let string := trim v in
      if negb (truthy string) then None
      else
        let fromPattern :=
          match matchFirst SIZE_PATTERN string with
          | Some sizeText =>
              let bytes := parseFileSizeToBytes sizeText in
              if numberTruthy (Some bytes)
              then Some (mkSize (Some sizeText) (Some bytes) (Some source))
              else None
          | None => None
          end in
        match fromPattern with
        | Some size => Some size
        | None =>
            let numeric := keepDigitsAndDots string in
            if negb (truthy numeric) then None
            else
              match toNumber numeric with
              | Finite bytes =>
                  if Qle_bool bytes 0 then None
                  else Some (mkSize (formatBytes (Some (Num bytes)))
                                    (Some (Num bytes)) (Some source))
              | Infinity | NotANumber => None
              end
        end
  end.

(** [parsed.sizeText && parsed.bytes] *)
Definition complete (size : Size) : bool :=
  isTruthy (sizeText size) && numberTruthy (bytes size).

(** The first loop of [resolveAttachmentSize]. *)
Fixpoint resolveFromText (resolved : option Size)
    (candidates : list (option string)) : option Size :=
  match candidates with
  | [] => resolved
  | candidate :: rest =>
      match parseBytesValue candidate "text" with
      | Some parsed =>
          if complete parsed then Some parsed
          else resolveFromText (Some parsed) rest
      | None => resolveFromText resolved rest
      end
  end.

Definition attributeNames : list string :=
  ["data-size"; "data-filesize"; "data-file-size"; "data-size-bytes";
   "data-bytes"].

(** [attributeCandidates]: the value and the source of each. *)
Fixpoint attributeCandidates (element : Element) (names : list string)
    : list (string * string) :=
  match names with
  | [] => []
  | name :: rest =>
      match getAttribute element name with
      | Some attr =>
          if truthy attr
          then (attr, "attr:" ++ name) :: attributeCandidates element rest
          else attributeCandidates element rest
      | None => attributeCandidates element rest
      end
  end.

(** The second loop. *)
Fixpoint resolveFromAttributes (resolved : option Size)
    (candidates : list (string * string)) : option Size :=
  match candidates with
  | [] => resolved
  | candidate :: rest =>
      match parseBytesValue (Some (fst candidate)) (snd candidate) with
      | None => resolveFromAttributes resolved rest
      | Some parsed =>
          match resolved with
          | None =>
              if complete parsed then Some parsed
              else resolveFromAttributes (Some parsed) rest
          | Some r =>
              let r' :=
                if negb (numberTruthy (bytes r)) && numberTruthy (bytes parsed)
                then mkSize (orElse (sizeText r) (sizeText parsed))
                            (bytes parsed) (source parsed)
                else r in
              if complete r' then Some r'
              else resolveFromAttributes (Some r') rest
          end
      end
  end.

(** [resolveAttachmentSize(element, candidates)] *)
Definition resolveAttachmentSize (element : Element)
    (candidates : list (option string)) : Size :=
  let resolved := resolveFromText None candidates in
  let resolved :=
    resolveFromAttributes resolved
      (attributeCandidates element attributeNames) in
  match resolved with
  | Some size => size
  | None => mkSize None None None
  end.

(** ** The totals of a conversation *)

Record Message := mkMessage {
  id : string;
  role : option string;
  text : string
}.

Record Attachment := mkAttachment {
  label : string;
  attachmentSizeText : option string;
  attachmentBytes : option Number
}.

Record AttachmentDetail := mkDetail {
  detailLabel : string;
  detailSizeText : option string;
  detailBytes : option Number;
  detailTokens : Z
}.

Record Snapshot := mkSnapshot {
  totalTokens : Z;
  userTokens : Z;
  assistantTokens : Z;
  totalWords : Z;
  attachments : list (string * option string * Z)
}.

Record Estimation := mkEstimation {
  enrichedMessages : list (Message * TokenEstimate);
  attachmentDetails : list AttachmentDetail;
  snapshot : Snapshot
}.

(** The word segmenter the estimator works with.  The counter runs
    with the estimator loaded: [init] returns at once without it. *)
Variable segmenter : option Segmenter.

(** [acc.byRole]: the own properties of the object, the newest first.
    The key of a role that is [null] is the text [null].  The object
    inherits properties, none of them named [user] or [assistant],
    the two that are read. *)
Definition roleKey (r : option string) : string :=
  match r with
  | Some s => s
  | None => "null"
  end.

Fixpoint lookupRole (byRole : list (string * Z)) (key : string) : Z :=
  match byRole with
  | [] => 0
  | (k, v) :: rest => if String.eqb k key then v else lookupRole rest key
  end.

(** [totals]: the accumulator of [reduce], [{ totalTokens, totalWords,
    byRole }]. *)
Definition addMessage (acc : Z * Z * list (string * Z))
    (msg : Message * TokenEstimate) : Z * Z * list (string * Z) :=
  let '(tokensSoFar, wordsSoFar, byRole) := acc in
  let stats := snd msg in
  let key := roleKey (role (fst msg)) in
  ((tokensSoFar + tokens stats)%Z,
   (wordsSoFar + words stats)%Z,
   (key, (lookupRole byRole key + tokens stats)%Z) :: byRole).

(** The body of [attachments.map] in [estimateConversationStats]. *)
Definition attachmentDetail (att : Attachment) : AttachmentDetail :=
  let '(bytes, tokens) :=
    if negb (numberTruthy (attachmentBytes att))
       && isTruthy (attachmentSizeText att)
    then
      let est :=
        estimateTokensFromFileSizeString (orEmpty (attachmentSizeText att)) in
      (Some (snd est), fst est)
    else if numberTruthy (attachmentBytes att)
    then (attachmentBytes att,
          match attachmentBytes att with
          | Some b => estimateTokensFromBytes b
          | None => 0%Z
          end)
    else (attachmentBytes att, 0%Z) in
  mkDetail (label att)
           (if isTruthy (attachmentSizeText att) then attachmentSizeText att
            else formatBytes bytes)
           bytes tokens.

(** [estimateConversationStats(messages, attachments)], [None] for
    [null]. *)
Definition estimateConversationStats (messages : list Message)
    (attachments : list Attachment) : option Estimation :=
  match messages, attachments with
  | [], [] => None
  | _, _ =>
      let enrichedMessages :=
        map (fun msg => (msg, estimateTokensFromText segmenter (text msg)))
            messages in
      let totals := fold_left addMessage enrichedMessages (0%Z, 0%Z, []) in
      let '(messageTokens, messageWords, byRole) := totals in
      let attachmentDetails := map attachmentDetail attachments in
      let attachmentTokens :=
        fold_left (fun sum item => (sum + detailTokens item)%Z)
                  attachmentDetails 0%Z in
      Some (mkEstimation enrichedMessages attachmentDetails
              (mkSnapshot
                 (messageTokens + attachmentTokens)%Z
                 (lookupRole byRole "user")
                 (lookupRole byRole "assistant")
                 messageWords
                 (map (fun item => (detailLabel item, detailSizeText item,
                                    detailTokens item)) attachmentDetails)))
  end.

End Format.

End TokenCounter.

(* ================================================================== *)
(** * Vocabulary for the navigator's properties                        *)
(* ================================================================== *)
Module NavigatorSpec.
Import Js Dom PromptNavigator.
Local Open Scope Q_scope.

(** The absolute offset of a turn's top edge, as [buildAnchors] computes
    it. *)
Definition topY (context : ScrollContext) (el : Element) : Q :=
  scrollTop context + (rect_top (getBoundingClientRect el) - containerTop context).

Definition height (el : Element) : Q := rect_height (getBoundingClientRect el).

Definition topAnchor (context : ScrollContext) (el : Element) (i : nat) :=
  mkAnchor (Some (eid el)) top (topY context el) i.

Definition bottomAnchor (context : ScrollContext) (el : Element) (i : nat) :=
  mkAnchor (Some (eid el)) bottom (topY context el + height el) i.

Definition endAnchor (docH : Q) (prompts : list Element)
    (context : ScrollContext) :=
  mkAnchor None chat_bottom (scrollHeightOf docH context) (List.length prompts).

(** What identifies an anchor for [findTargetAnchor]: element and kind. *)
Definition key (a : Anchor) : LastAnchor := (element a, kind a).

(** Where an anchor comes from: its turn's position and its kind. *)
Definition origin (a : Anchor) : nat * Kind := (promptIndex a, kind a).

(** A turn none of whose anchors lies beyond the scrollable extent. *)
Definition within_extent (docH : Q) (context : ScrollContext) (el : Element)
    : Prop :=
  topY context el <= scrollHeightOf docH context /\
  (viewHeight context * 0.8 < height el ->
   topY context el + height el <= scrollHeightOf docH context).

(** The index of the recorded anchor in the list a call rebuilds, [-1]
    when nothing is recorded or the recorded anchor is not found. *)
Definition recordedIndex (docH : Q) (context : ScrollContext) (st : State) : Z :=
  match lastAnchor st with
  | Some la => findIndex (sameAnchor la) (buildAnchors docH (prompts st) context)
  | None => (-1)%Z
  end.

(** What [scan()] does to the module state before a call of [jump]: it
    replaces [prompts] by the turns of the fresh scan. *)
Definition rescan (ps : list Element) (st : State) : State :=
  mkState ps (lastAnchor st) (lastJumpTime st).

(** [maxScroll] of [scrollToAnchor]. *)
Definition maxScroll (docH : Q) (context : ScrollContext) : Q :=
  scrollHeightOf docH context - viewHeight context.

(** The three components of what [jump] returns. *)
Definition result_of (r : JumpResult * State * option ScrollTo) : JumpResult :=
  fst (fst r).
Definition state_of (r : JumpResult * State * option ScrollTo) : State :=
  snd (fst r).
Definition scroll_of (r : JumpResult * State * option ScrollTo)
    : option ScrollTo := snd r.

(** Pages used as concrete inputs: a window of height 1000 over a document
    of height 2000. *)
Definition windowAt (s : Q) : ScrollContext := mkContext s 1000 0 true 0.

Definition turnAt (i : nat) (viewportTop h : Q) : Element :=
  mkElement i [] (mkRect viewportTop h) [].

Definition fresh (ps : list Element) : State := mkState ps None 0.

(** The vertical midpoint of the viewport, as an absolute offset. *)
Definition midpoint (context : ScrollContext) : Q :=
  scrollTop context + (viewHeight context / 2).

(** The number of leading elements of a list that satisfy [p]. *)
Fixpoint leadingCount {A : Type} (p : A -> bool) (l : list A) : nat :=
  match l with
  | [] => 0
  | x :: rest => if p x then S (leadingCount p rest) else 0
  end.

End NavigatorSpec.

(* ================================================================== *)
(** * Vocabulary for the collector's properties                        *)
(* ================================================================== *)
Module CollectorSpec.
Import Js Dom Roles ContextCollector.
Local Open Scope string_scope.

(** The turns a selection holds, oldest first. *)
Definition keys (m : SelectionMap) : list nat := map fst m.

(** The entry [selectTurn] captures for the turn at position [i]. *)
Definition entryOf (extractTurnText : Element -> string)
    (estimator : option (option TokenEstimator.Segmenter))
    (turn : Element) (i : nat) : Entry :=
  mkEntry i (determineMessageRole turn i) (extractTurnText turn)
    match estimator with
    | Some segmenter =>
        TokenEstimator.tokens
          (TokenEstimator.estimateTokensFromText segmenter
             (extractTurnText turn))
    | None => 0%Z
    end.

(** [k] is the turn at some position between [lo] and [hi], both
    included. *)
Definition turnBetween (turns : list Element) (lo hi : nat) (k : nat) : Prop :=
  exists j el, (lo <= j <= hi)%nat /\ nth_error turns j = Some el /\ eid el = k.

(** A selection made within one scan: no turn twice, and every entry
    carries the position its turn has in [allTurns]. *)
Definition wellFormed (st : State) : Prop :=
  NoDup (keys (selectedTurns st)) /\
  forall k e, In (k, e) (selectedTurns st) ->
    exists el, nth_error (allTurns st) (index e) = Some el /\ eid el = k.

(** The state on entering selection mode. *)
Definition entered (turns : list Element) : State :=
  mkState [] (-1) turns (mkDelimiter "newline" "").

(** A conversation of four turns for concrete inputs, with a constant
    text extractor and no estimator. *)
Definition turn (i : nat) (r : string) : Element :=
  mkElement i [("data-message-author-role", r)] (mkRect 0 0) [].

Definition fourTurns : list Element :=
  [turn 10 "user"; turn 11 "assistant"; turn 12 "user"; turn 13 "assistant"].

Definition textOf (el : Element) : string :=
  if Nat.eqb (eid el) 10 then "Hi"
  else if Nat.eqb (eid el) 11 then "Hello"
  else if Nat.eqb (eid el) 12 then "Bye"
  else "See you".

(** Plain clicks, one after the other. *)
Definition clicks (st : State) (l : list nat) : State :=
  fold_left (fun s i => handleTurnClick textOf None s i false) l st.

(** Every entry of the selection holds what [selectTurn] captures for
    its turn at the position recorded. *)
Definition captured (extractTurnText : Element -> string)
    (estimator : option (option TokenEstimator.Segmenter)) (st : State)
    : Prop :=
  forall k e, In (k, e) (selectedTurns st) ->
    exists el, nth_error (allTurns st) (index e) = Some el /\ eid el = k
               /\ e = entryOf extractTurnText estimator el (index e).

(** *** The three serializations of a list of entries

    What the export is to hold for the entries [entries], in the order
    they are given in: for [plain] each message as its role label, a
    colon, a line break and its text, the messages joined by the
    delimiter; for [json] the list of the records of role and content;
    for [xml] each message between the tags of its role, the messages
    joined by a line break. *)
Definition roleLabel (e : Entry) : string :=
  if roleIs (role e) "user" then "User" else "Assistant".

Definition roleTag (e : Entry) : string :=
  if roleIs (role e) "user" then "user" else "assistant".

Definition plainMessage (e : Entry) : string :=
  roleLabel e ++ ":" ++ LF ++ text e.

Definition messageRecord (e : Entry) : Json :=
  JObject [("role", match role e with
                    | Some r => JString r
                    | None => JNull
                    end);
           ("content", JString (text e))].

Definition taggedMessage (e : Entry) : string :=
  "<" ++ roleTag e ++ ">" ++ LF ++ text e ++ LF ++ "</" ++ roleTag e ++ ">".

Definition listing (format delimiter : string) (entries : list Entry)
    : string :=
  if String.eqb format "plain" then join delimiter (map plainMessage entries)
  else if String.eqb format "json" then
    JSON_stringify_2 (JArray (map messageRecord entries))
  else if String.eqb format "xml" then join LF (map taggedMessage entries)
  else "".

(** The entries of [m] are in the order of their turn index. *)
Definition ascending (m : list (nat * Entry)) : Prop :=
  StronglySorted (fun a b => (index (snd a) <= index (snd b))%nat) m.

End CollectorSpec.

(* ================================================================== *)
(** * Vocabulary for role classification                               *)
(* ================================================================== *)
Module RolesSpec.
Import Js Dom Roles.
Local Open Scope string_scope.

(** An element and everything below it, in document order. *)
Fixpoint subtree (el : Element) : list Element :=
  el :: flat_map subtree (children el).

(** The elements nested in [el], in document order. *)
Definition descendants (el : Element) : list Element :=
  flat_map subtree (children el).

(** A signal either does not match, or matches and gives the role. *)
Definition Signal : Type := Element -> option (option string).

(** 1. The role attribute of the element itself, when it is not empty. *)
Definition explicitRole : Signal := fun el =>
  match getAttribute el "data-message-author-role" with
  | Some r => if truthy r then Some (Some r) else None
  | None => None
  end.

(** 2. The role attribute of the first nested element that has one. *)
Definition nestedRole : Signal := fun el =>
  match find (fun d => hasAttribute d "data-message-author-role")
             (descendants el) with
  | Some d => Some (getAttribute d "data-message-author-role")
  | None => None
  end.

(** 3. Substrings of the test-id, letter case ignored. *)
Definition testIdMatch : Signal := fun el =>
  let testId := toLowerCase (orEmpty (getAttribute el "data-testid")) in
  if includes testId "user" then Some (Some "user")
  else if includes testId "assistant" || includes testId "model"
          || includes testId "gpt" then Some (Some "assistant")
  else None.

(** 4. Substrings of the aria-label, letter case ignored. *)
Definition ariaLabelMatch : Signal := fun el =>
  let ariaLabel := toLowerCase (orEmpty (getAttribute el "aria-label")) in
  if includes ariaLabel "you" then Some (Some "user")
  else if includes ariaLabel "chatgpt" || includes ariaLabel "assistant"
  then Some (Some "assistant")
  else None.

(** 5. The positional fallback. *)
Definition positional (index : nat) : option string :=
  if Nat.even index then Some "user" else Some "assistant".

(** The first signal of the list that matches. *)
Fixpoint firstMatch (signals : list Signal) (el : Element)
    : option (option string) :=
  match signals with
  | [] => None
  | signal :: rest =>
      match signal el with
      | Some r => Some r
      | None => firstMatch rest el
      end
  end.

(** The classification the specification describes: the signals in their
    order of priority, the first match wins, the position decides when
    none matches. *)
Definition classify (el : Element) (index : nat) : option string :=
  match firstMatch [explicitRole; nestedRole; testIdMatch; ariaLabelMatch] el with
  | Some r => r
  | None => positional index
  end.

End RolesSpec.

(* ================================================================== *)
(** * Vocabulary for the estimator's properties                        *)
(* ================================================================== *)
Module EstimatorSpec.
Import Js TokenEstimator.
Local Open Scope string_scope.

(** Every code unit of [s] satisfies [p]. *)
Fixpoint allOf (p : ascii -> bool) (s : string) : bool :=
  match s with
  | "" => true
  | String c rest => p c && allOf p rest
  end.

(** Empty or white space only. *)
Definition whiteSpaceOnly (s : string) : bool := allOf isWhiteSpace s.

(** The number of code units that are not white space. *)
Fixpoint nonWhiteSpaceCount (s : string) : nat :=
  match s with
  | "" => 0
  | String c rest =>
      (if isWhiteSpace c then 0 else 1) + nonWhiteSpaceCount rest
  end.

(** The text after white-space normalization. *)
Definition normalized (t : string) : string :=
  trim (replaceWhiteSpaceRuns " " t).

(** The token count the specification gives for [words] words and
    [chars] characters:
    [max(1, max(byWord, byChar, blended))]. *)
Definition specTokens (words chars : Z) : Z :=
  let byWord := ceil (inject_Z words * 1.33) in
  let byChar := ceil (inject_Z chars / 4) in
  let blended := round (inject_Z byWord * 0.4 + inject_Z byChar * 0.6) in
  Z.max 1 (Z.max (Z.max byWord byChar) blended).

(** What a word segmenter returns on a text made of punctuation marks:
    one segment per mark, none of them word-like. *)
Definition punctuationSegmenter : Segmenter := fun text =>
  map (fun c => mkSegment (String c "") false) (list_ascii_of_string text).

(** Equality of numbers: [NaN] only equals itself here. *)
Definition NumEq (a b : Number) : Prop :=
  match a, b with
  | Num x, Num y => x == y
  | NaN, NaN => True
  | _, _ => False
  end.

(** The power of 1024 a unit stands for, the unit in lower case. *)
Definition unitExponent (u : string) : option Z :=
  if String.eqb u "b" then Some 0%Z
  else if String.eqb u "kb" || String.eqb u "kib" then Some 1%Z
  else if String.eqb u "mb" || String.eqb u "mib" then Some 2%Z
  else if String.eqb u "gb" || String.eqb u "gib" then Some 3%Z
  else if String.eqb u "tb" || String.eqb u "tib" then Some 4%Z
  else None.

(** The first letters of the units, in lower case. *)
Definition isUnitLetter (c : ascii) : bool :=
  Ascii.eqb c "k" || Ascii.eqb c "m" || Ascii.eqb c "g" || Ascii.eqb c "t"
  || Ascii.eqb c "b".

(** [s] is empty or starts with a code unit outside the class [p]. *)
Definition stopsAt (p : ascii -> bool) (s : string) : Prop :=
  match s with
  | "" => True
  | String c _ => p c = false
  end.

(** The text holds a size: a run of digits and dots, optional white space
    and a unit, letter case ignored. *)
Definition sizeOccurs (s : string) : Prop :=
  exists pre n ws u rest k,
    s = pre ++ n ++ ws ++ u ++ rest
    /\ n <> "" /\ allOf isDigitOrDot n = true
    /\ allOf isWhiteSpace ws = true
    /\ unitExponent (toLowerCase u) = Some k.

(** The text starts with a size. *)
Definition sizeStarts (t : string) : Prop :=
  exists n ws u rest k,
    t = n ++ ws ++ u ++ rest
    /\ n <> "" /\ allOf isDigitOrDot n = true
    /\ allOf isWhiteSpace ws = true
    /\ unitExponent (toLowerCase u) = Some k.

(** No size starts at a position of [pre] in the text [pre ++ t]. *)
Fixpoint noSizeBefore (pre t : string) : Prop :=
  match pre with
  | "" => True
  | String c pre' =>
      ~ sizeStarts (String c (pre' ++ t)) /\ noSizeBefore pre' t
  end.

(** The first size of the text [s]: the number [n] and the power [k] of
    its unit, where no size starts further left. *)
Definition firstSize (s n : string) (k : Z) : Prop :=
  exists pre ws u rest,
    s = pre ++ n ++ ws ++ u ++ rest
    /\ n <> "" /\ allOf isDigitOrDot n = true
    /\ allOf isWhiteSpace ws = true
    /\ unitExponent (toLowerCase u) = Some k
    /\ noSizeBefore pre (n ++ ws ++ u ++ rest).

(** A run of digits and dots that starts with no decimal numeral: a dot
    that no digit follows. *)
Definition holdsNoNumeral (n : string) : Prop :=
  exists r, n = String "." r /\ stopsAt isDigit r.

(** The value of the decimal numeral [int.frac]. *)
Definition decimalValue (int frac : string) : Q :=
  inject_Z (digitsValue int)
  + inject_Z (digitsValue frac) / inject_Z (10 ^ Z.of_nat (String.length frac)).

End EstimatorSpec.

(* ================================================================== *)
(** * More vocabulary for the estimator                                *)
(* ================================================================== *)
Module EstimatorWords.
Import Js TokenEstimator.
Local Open Scope string_scope.

(** The number of words of a text: its maximal runs of code units that
    are not white space.  [inWord] tells that the previous code unit
    belongs to a word. *)
Fixpoint wordRunsFrom (inWord : bool) (s : string) : nat :=
  match s with
  | "" => 0
  | String c rest =>
      if isWhiteSpace c then wordRunsFrom false rest
      else (if inWord then 0 else 1) + wordRunsFrom true rest
  end.

Definition wordRuns (s : string) : nat := wordRunsFrom false s.

(** The number of words [byWord] is computed from: [words || 1]. *)
Definition wordsOrOne (words : Z) : Z := if (words =? 0)%Z then 1%Z else words.

(** The two candidates that decide the estimate. *)
Definition byWordOf (words : Z) : Z :=
  ceil (inject_Z (wordsOrOne words) * WORD_TOKEN_MULTIPLIER).

Definition byCharacterOf (characters : Z) : Z :=
  ceil (inject_Z characters / CHARS_PER_TOKEN).

(** A text whose white space is collapsed: every white-space code unit is
    a space and no two of them are adjacent.  [afterSpace] tells that the
    previous code unit was such a space. *)
Fixpoint collapsedFrom (afterSpace : bool) (s : string) : bool :=
  match s with
  | "" => true
  | String c rest =>
      if isWhiteSpace c
      then Ascii.eqb c " " && negb afterSpace && collapsedFrom true rest
      else collapsedFrom false rest
  end.

(** [s] is empty or starts with a code unit that is not white space. *)
Definition startsClean (s : string) : Prop :=
  match s with
  | "" => True
  | String c _ => isWhiteSpace c = false
  end.

End EstimatorWords.

(* ================================================================== *)
(** * Vocabulary for the scanner's properties                          *)
(* ================================================================== *)
Module ScannerSpec.
Import Js Dom Roles RolesSpec Scanner.
Local Open Scope string_scope.

(** A turn that is visible and classified as a user turn at position
    [i]. *)
Definition visibleUserTurn (page : Page) (turn : Element) (i : nat) : Prop :=
  isElementVisible page turn = true
  /\ determineMessageRole turn i = Some "user".

(** A page for concrete inputs: every element is a [div], 600 wide and
    displayed, except the elements [hidden] names. *)
Definition plainPage (hidden : nat -> bool) : Page :=
  mkPage (fun _ => "div") (fun _ => 600%Q)
         (fun i => if hidden i then mkStyle "none" "visible" "1"
                   else mkStyle "block" "visible" "1").

(** A message of the given role inside a turn wrapper. *)
Definition wrappedTurn (i : nat) (r : string) : Element :=
  mkElement i [("data-testid", "conversation-turn-" ++ r)] (mkRect 0 100)
    [mkElement (100 + i) [("data-message-author-role", r)] (mkRect 0 80) []].

(** The conversation [user, assistant, user] under a [main] element. *)
Definition threeTurnMain : Element :=
  mkElement 0 [] (mkRect 0 300)
    [wrappedTurn 1 "user"; wrappedTurn 2 "assistant"; wrappedTurn 3 "user"].

End ScannerSpec.

(* ================================================================== *)
(** * Vocabulary for the session tracker's properties                  *)
(* ================================================================== *)
Module SessionSpec.
Import Js Dom Scanner SessionTracker.
Local Open Scope Z_scope.

(** One run of [checkForNewPrompts]: the document it reads and the
    time. *)
Record Observation := mkObservation {
  page : Page;
  main : option (Element * list Element);
  now : Z
}.

(** The number of prompts an observation counts. *)
Definition seen (o : Observation) : nat :=
  getCurrentPromptCount (page o) (main o).

Definition observe (st : State) (o : Observation) : State :=
  checkForNewPrompts (page o) (main o) (now o) st.

(** The checks of a list of observations, one after the other. *)
Definition observeAll (st : State) (l : list Observation) : State :=
  fold_left observe l st.

(** An observation of the conversation [threeTurnMain], which has two
    prompts, and one of a conversation with one prompt. *)
Definition twoPrompts (t : Z) : Observation :=
  mkObservation (ScannerSpec.plainPage (fun _ => false))
                (Some (ScannerSpec.threeTurnMain, [])) t.

Definition onePrompt (t : Z) : Observation :=
  mkObservation (ScannerSpec.plainPage (fun _ => false))
                (Some (mkElement 0 [] (mkRect 0 300)
                         [ScannerSpec.wrappedTurn 1 "user"], [])) t.

Definition noPrompt : Page * option (Element * list Element) :=
  (ScannerSpec.plainPage (fun _ => false), None).

(** What holds after the checks of [l], begun with no recorded time and
    [c0] prompts. *)
Definition tracked (c0 : nat) (l : list Observation) (st : State) : Prop :=
  (c0 <= lastPromptCount st)%nat
  /\ (forall s, sessionStartTime st = Some s ->
        c0 = 0%nat /\ (1 <= lastPromptCount st)%nat
        /\ (exists o, In o l /\ now o = s /\ seen o = 1%nat)
        /\ (forall t, lastPromptTime st = Some t -> s <= t))
  /\ (forall t, lastPromptTime st = Some t ->
        (2 <= lastPromptCount st)%nat
        /\ exists o, In o l /\ now o = t /\ (2 <= seen o)%nat).

End SessionSpec.

(* ================================================================== *)
(** * Vocabulary for the token counter's properties                    *)
(* ================================================================== *)
Module CounterSpec.
Import Js Dom Roles TokenEstimator TokenCounter.
Local Open Scope string_scope.

(** The values [resolveAttachmentSize] looks at, in the order it looks
    at them, each with its source: the candidates it is given, then the
    size attributes of the element. *)
Definition sizeCandidates (element : Element)
    (candidates : list (option string)) : list (option string * string) :=
  map (fun c => (c, "text")) candidates
  ++ map (fun a => (Some (fst a), snd a))
         (attributeCandidates element attributeNames).

(** The sum of [f] over a list. *)
Definition total {A : Type} (f : A -> Z) (l : list A) : Z :=
  fold_right (fun x acc => (f x + acc)%Z) 0%Z l.

(** The messages of a role. *)
Definition ofRole (r : string) (messages : list Message) : list Message :=
  filter (fun msg => match role msg with
                     | Some s => String.eqb s r
                     | None => false
                     end) messages.

(** A host that writes every large number the same way, for concrete
    inputs. *)
Definition someExponent (x : Q) : string := "1e+21".

(** The units of [SIZE_PATTERN], its last part. *)
Definition unitPattern : Regex :=
  Alt (Seq kmgt (Seq (Opt (letter "i")) (letter "b")))
  (Alt (Seq (Opt kmgt) (letter "b"))
       (Seq (letter "b") (Seq (letter "y") (Seq (letter "t")
         (Seq (letter "e") (Opt (letter "s"))))))).

(** Whether a pattern cannot match the empty text. *)
Fixpoint consumes (r : Regex) : bool :=
  match r with
  | Class _ => true
  | Seq a b => consumes a || consumes b
  | Alt a b => consumes a && consumes b
  | Opt _ => false
  | Star _ => false
  | Plus _ => true
  end.

(** The constants of the units and of the precisions, evaluated. *)
Ltac constants :=
  repeat match goal with
         | H : context [(1024 ^ Z.of_nat ?k)%Q] |- _ =>
             let c := eval vm_compute in (1024 ^ Z.of_nat k)%Q in
             change (1024 ^ Z.of_nat k)%Q with c in H
         | |- context [(1024 ^ Z.of_nat ?k)%Q] =>
             let c := eval vm_compute in (1024 ^ Z.of_nat k)%Q in
             change (1024 ^ Z.of_nat k)%Q with c
         | H : context [inject_Z (10 ^ Z.of_nat ?f)] |- _ =>
             let c := eval vm_compute in (inject_Z (10 ^ Z.of_nat f)) in
             change (inject_Z (10 ^ Z.of_nat f)) with c in H
         end.

End CounterSpec.

(* ================================================================== *)
(** * Vocabulary for the properties of selection mode                  *)
(* ================================================================== *)
Module SelectionSpec.
Import Js Dom Roles ContextCollector SelectionMode CollectorSpec.

(** A selection that is well formed and holds captured entries. *)
Definition sound (extractTurnText : Element -> string)
    (estimator : option (option TokenEstimator.Segmenter)) (st : State)
    : Prop :=
  wellFormed st /\ captured extractTurnText estimator st.

(** The invariant of a session: its selection is sound, and empty
    outside selection mode. *)
Definition sessionSound (extractTurnText : Element -> string)
    (estimator : option (option TokenEstimator.Segmenter)) (s : Session)
    : Prop :=
  sound extractTurnText estimator (collector s)
  /\ (selectionMode s = false -> selectedTurns (collector s) = []).

End SelectionSpec.

(* ================================================================== *)
(** * Facts about the built-ins                                        *)
(* ================================================================== *)
Module JsFacts.
Import Js.
Local Open Scope Q_scope.

Lemma Qlt_bool_iff (a b : Q) : Qlt_bool a b = true <-> a < b.
Proof.
  unfold Qlt_bool. rewrite Qlt_alt.
  destruct (a ?= b); split; intro H; try reflexivity; discriminate.
Qed.

Lemma Qlt_bool_false_iff (a b : Q) : Qlt_bool a b = false <-> b <= a.
Proof.
  split; intro H.
  - apply Qnot_lt_le. intro L. apply Qlt_bool_iff in L. congruence.
  - destruct (Qlt_bool a b) eqn:E; [|reflexivity].
    apply Qlt_bool_iff in E. exfalso. apply (Qlt_not_le _ _ E H).
Qed.

Section SortFacts.
Context {A : Type}.
Variable compareFn : A -> A -> Q.

Lemma insert_perm (x : A) (l : list A) :
  Permutation (x :: l) (insert compareFn x l).
Proof.
  induction l as [|h t IH]; simpl.
  - apply Permutation_refl.
  - destruct (Qle_bool (compareFn x h) 0).
    + apply Permutation_refl.
    + eapply perm_trans; [apply perm_swap|].
      apply perm_skip. exact IH.
Qed.

Lemma sort_perm (l : list A) : Permutation l (sort compareFn l).
Proof.
  induction l as [|x t IH]; simpl.
  - apply perm_nil.
  - eapply perm_trans; [apply perm_skip; exact IH | apply insert_perm].
Qed.

Lemma sort_length (l : list A) : List.length (sort compareFn l) = List.length l.
Proof. symmetry. apply Permutation_length, sort_perm. Qed.

Lemma sort_In (l : list A) (x : A) : In x (sort compareFn l) <-> In x l.
Proof.
  split; intro H.
  - eapply Permutation_in; [apply Permutation_sym, sort_perm | exact H].
  - eapply Permutation_in; [apply sort_perm | exact H].
Qed.
End SortFacts.

(** Sorting by a numeric key: the comparator [key a - key b]. *)
Section SortByKey.
Context {A : Type}.
Variable key : A -> Q.
Let cmp := fun a b : A => key a - key b.

Lemma insert_sorted (x : A) (l : list A) :
  StronglySorted (fun a b => key a <= key b) l ->
  StronglySorted (fun a b => key a <= key b) (insert cmp x l).
Proof.
  induction 1 as [|h t Ht IH Hh]; simpl.
  - constructor; [constructor | constructor].
  - destruct (Qle_bool (cmp x h) 0) eqn:E.
    + apply Qle_bool_iff in E. unfold cmp in E.
      constructor; [constructor; assumption|].
      constructor; [lra|].
      rewrite Forall_forall in Hh |- *. intros z Hz.
      specialize (Hh z Hz). lra.
    + assert (L : key h <= key x).
      { destruct (Qlt_le_dec (key x) (key h)) as [L|L]; [|exact L].
        assert (Qle_bool (cmp x h) 0 = true) as E'
          by (apply Qle_bool_iff; unfold cmp; lra).
        congruence. }
      constructor; [exact IH|].
      rewrite Forall_forall in Hh |- *. intros z Hz.
      apply (Permutation_in z (Permutation_sym (insert_perm cmp x t))) in Hz.
      destruct Hz as [<-|Hz]; [exact L | exact (Hh z Hz)].
Qed.

Lemma sort_sorted (l : list A) :
  StronglySorted (fun a b => key a <= key b) (sort cmp l).
Proof.
  induction l as [|x t IH]; simpl; [constructor | apply insert_sorted, IH].
Qed.

(** An element pushed last whose key is not below any other stays last. *)
Lemma insert_snoc (x e : A) (l : list A) :
  key x <= key e -> insert cmp x (l ++ [e]) = insert cmp x l ++ [e].
Proof.
  intro Hx. induction l as [|h t IH]; simpl.
  - assert (Qle_bool (cmp x e) 0 = true) as ->
      by (apply Qle_bool_iff; unfold cmp; lra).
    reflexivity.
  - destruct (Qle_bool (cmp x h) 0); [reflexivity|].
    rewrite IH. reflexivity.
Qed.

Lemma sort_snoc (e : A) (l : list A) :
  Forall (fun a => key a <= key e) l ->
  sort cmp (l ++ [e]) = sort cmp l ++ [e].
Proof.
  induction 1 as [|x t Hx Ht IH]; simpl; [reflexivity|].
  rewrite IH. apply insert_snoc, Hx.
Qed.
End SortByKey.

End JsFacts.

(* ================================================================== *)
(** * The anchor list                                                  *)
(* ================================================================== *)
Module AnchorFacts.
Import Js Dom PromptNavigator NavigatorSpec JsFacts.
Local Open Scope Q_scope.

Lemma In_pushPromptAnchors context thr els k a :
  In a (pushPromptAnchors context thr els k) <->
  exists i el, nth_error els i = Some el /\
    (a = topAnchor context el (k + i) \/
     (thr < height el /\ a = bottomAnchor context el (k + i))).
Proof.
  revert k. induction els as [|el rest IH]; intro k; simpl.
  - split; [intros [] | intros (i & el & H & _); destruct i; discriminate].
  - rewrite in_app_iff, IH. split.
    + intros [H | [H | (i & e & Hn & H)]].
      * exists 0%nat, el. rewrite Nat.add_0_r. split; [reflexivity|].
        left. symmetry. exact H.
      * exists 0%nat, el. rewrite Nat.add_0_r. split; [reflexivity|].
        destruct (Qlt_bool thr (rect_height (getBoundingClientRect el))) eqn:E.
        -- destruct H as [H|[]]. right. split.
           ++ apply Qlt_bool_iff. exact E.
           ++ symmetry. exact H.
        -- destruct H.
      * exists (S i), e. rewrite Nat.add_succ_r. split; [exact Hn | exact H].
    + intros (i & e & Hn & H). destruct i as [|i]; simpl in Hn.
      * injection Hn as ->. rewrite Nat.add_0_r in H.
        destruct H as [H | [L H]].
        -- left. symmetry. exact H.
        -- right. left. apply Qlt_bool_iff in L. unfold height in L.
           rewrite L. left. symmetry. exact H.
      * right. right. exists i, e. rewrite Nat.add_succ_r in H.
        split; [exact Hn | exact H].
Qed.

Lemma pushPromptAnchors_index context thr els k a :
  In a (pushPromptAnchors context thr els k) ->
  (k <= promptIndex a)%nat /\ kind a <> chat_bottom /\
  exists el, nth_error els (promptIndex a - k) = Some el
             /\ element a = Some (eid el).
Proof.
  intro H. apply In_pushPromptAnchors in H.
  destruct H as (i & el & Hn & [-> | [_ ->]]); simpl;
    (split; [lia | split; [discriminate|]]);
    exists el; replace (k + i - k)%nat with i by lia; auto.
Qed.

Lemma NoDup_origin_push context thr els k :
  NoDup (map origin (pushPromptAnchors context thr els k)).
Proof.
  revert k. induction els as [|el rest IH]; intro k; simpl.
  - constructor.
  - assert (Hfresh : forall kd,
      ~ In (k, kd) (map origin (pushPromptAnchors context thr rest (S k)))).
    { intros kd Hin. apply in_map_iff in Hin. destruct Hin as (a & Ha & Hin).
      apply pushPromptAnchors_index in Hin. destruct Hin as (Hle & _).
      unfold origin in Ha. injection Ha as Ha _. lia. }
    constructor.
    + rewrite map_app, in_app_iff. intros [Hin | Hin].
      * destruct (Qlt_bool thr _); simpl in Hin.
        -- destruct Hin as [Hin|[]]. discriminate.
        -- destruct Hin.
      * exact (Hfresh top Hin).
    + rewrite map_app. destruct (Qlt_bool thr _); simpl.
      * constructor; [apply Hfresh | apply IH].
      * apply IH.
Qed.

Lemma NoDup_key_push context thr els k :
  NoDup (map eid els) ->
  NoDup (map key (pushPromptAnchors context thr els k)).
Proof.
  revert k. induction els as [|el rest IH]; intros k Hnd; simpl.
  - constructor.
  - inversion Hnd as [|? ? Hnotin Hrest]; subst.
    assert (Hfresh : forall kd,
      ~ In (Some (eid el), kd)
           (map key (pushPromptAnchors context thr rest (S k)))).
    { intros kd Hin. apply in_map_iff in Hin. destruct Hin as (a & Ha & Hin).
      apply pushPromptAnchors_index in Hin.
      destruct Hin as (_ & _ & e & Hn & He).
      unfold key in Ha. injection Ha as Ha _. rewrite He in Ha.
      injection Ha as Ha. apply Hnotin. rewrite <- Ha.
      apply in_map. eapply nth_error_In. exact Hn. }
    constructor.
    + rewrite map_app, in_app_iff. intros [Hin | Hin].
      * destruct (Qlt_bool thr _); simpl in Hin.
        -- destruct Hin as [Hin|[]]. discriminate.
        -- destruct Hin.
      * exact (Hfresh top Hin).
    + rewrite map_app. destruct (Qlt_bool thr _); simpl.
      * constructor; [apply Hfresh | apply IH; exact Hrest].
      * apply IH. exact Hrest.
Qed.

Lemma NoDup_snoc {A : Type} (l : list A) (x : A) :
  NoDup l -> ~ In x l -> NoDup (l ++ [x]).
Proof.
  intros Hl Hx. apply (Permutation_NoDup (l := x :: l)).
  - apply Permutation_cons_append.
  - constructor; assumption.
Qed.

Lemma NoDup_origin_unsorted docH prompts context :
  NoDup (map origin (unsortedAnchors docH prompts context)).
Proof.
  unfold unsortedAnchors. rewrite map_app. simpl.
  apply NoDup_snoc; [apply NoDup_origin_push|].
  intro Hin. apply in_map_iff in Hin. destruct Hin as (a & Ha & Hin).
  apply pushPromptAnchors_index in Hin. destruct Hin as (_ & Hk & _).
  unfold origin in Ha. injection Ha as _ Ha. congruence.
Qed.

Lemma NoDup_key_unsorted docH prompts context :
  NoDup (map eid prompts) ->
  NoDup (map key (unsortedAnchors docH prompts context)).
Proof.
  intro Hnd. unfold unsortedAnchors. rewrite map_app. simpl.
  apply NoDup_snoc; [apply NoDup_key_push; exact Hnd|].
  intro Hin. apply in_map_iff in Hin. destruct Hin as (a & Ha & Hin).
  apply pushPromptAnchors_index in Hin. destruct Hin as (_ & Hk & _).
  unfold key in Ha. injection Ha as _ Ha. congruence.
Qed.

Lemma buildAnchors_perm docH prompts context :
  Permutation (unsortedAnchors docH prompts context)
              (buildAnchors docH prompts context).
Proof. apply sort_perm. Qed.

Lemma NoDup_key_buildAnchors docH prompts context :
  NoDup (map eid prompts) ->
  NoDup (map key (buildAnchors docH prompts context)).
Proof.
  intro Hnd. eapply Permutation_NoDup.
  - apply Permutation_map, buildAnchors_perm.
  - apply NoDup_key_unsorted, Hnd.
Qed.

Lemma buildAnchors_length docH prompts context :
  (List.length prompts < List.length (buildAnchors docH prompts context))%nat.
Proof.
  unfold buildAnchors. rewrite sort_length. unfold unsortedAnchors.
  rewrite length_app. simpl.
  assert (forall thr els k,
    (List.length els <= List.length (pushPromptAnchors context thr els k))%nat)
    as H.
  { intros thr els. induction els as [|el rest IH]; intro k; simpl; [lia|].
    rewrite length_app. specialize (IH (S k)). lia. }
  specialize (H (viewHeight context * 0.8) prompts 0%nat). lia.
Qed.

Lemma In_buildAnchors docH prompts context a :
  In a (buildAnchors docH prompts context) <->
  (exists i el, nth_error prompts i = Some el /\ a = topAnchor context el i) \/
  (exists i el, nth_error prompts i = Some el /\
     viewHeight context * 0.8 < height el /\ a = bottomAnchor context el i) \/
  a = endAnchor docH prompts context.
Proof.
  unfold buildAnchors. rewrite sort_In. unfold unsortedAnchors.
  rewrite in_app_iff, In_pushPromptAnchors. simpl. split.
  - intros [(i & el & Hn & [H | [L H]]) | [H | []]].
    + left. exists i, el. auto.
    + right. left. exists i, el. auto.
    + right. right. symmetry. exact H.
  - intros [(i & el & Hn & H) | [(i & el & Hn & L & H) | H]].
    + left. exists i, el. auto.
    + left. exists i, el. auto.
    + right. left. symmetry. exact H.
Qed.

(** ** Finding the recorded anchor *)

Lemma Kind_eqb_eq (a b : Kind) : Kind_eqb a b = true <-> a = b.
Proof. destruct a, b; simpl; split; intro H; congruence. Qed.

Lemma sameAnchor_iff (la : LastAnchor) (a : Anchor) :
  sameAnchor la a = true <-> key a = la.
Proof.
  unfold sameAnchor, key. destruct la as [e k]. simpl. split.
  - intro H. apply andb_true_iff in H. destruct H as [H1 H2].
    apply Kind_eqb_eq in H2.
    destruct (element a), e; try discriminate;
      [apply Nat.eqb_eq in H1|]; congruence.
  - intro H. injection H as H1 H2. rewrite H1, H2.
    apply andb_true_iff. split.
    + destruct e; [apply Nat.eqb_refl | reflexivity].
    + apply Kind_eqb_eq. reflexivity.
Qed.

Lemma findIndex_range {A : Type} (p : A -> bool) (l : list A) :
  findIndex p l = (-1)%Z \/
  (0 <= findIndex p l < Z.of_nat (List.length l))%Z.
Proof.
  induction l as [|x t IH]; simpl; [left; reflexivity|].
  destruct (p x); [right; lia|].
  destruct (Z.eqb_spec (findIndex p t) (-1)); [left; reflexivity|].
  right. destruct IH; lia.
Qed.

Lemma findIndex_first {A : Type} (p : A -> bool) (l : list A) (i : nat) a :
  nth_error l i = Some a -> p a = true ->
  (forall j b, (j < i)%nat -> nth_error l j = Some b -> p b = false) ->
  findIndex p l = Z.of_nat i.
Proof.
  revert i. induction l as [|x t IH]; intros i Hn Hp Hlt.
  - destruct i; discriminate.
  - destruct i as [|i]; simpl in *.
    + injection Hn as ->. rewrite Hp. reflexivity.
    + rewrite (Hlt 0%nat x) by (lia || reflexivity).
      rewrite (IH i Hn Hp).
      * destruct (Z.eqb_spec (Z.of_nat i) (-1)); lia.
      * intros j b Hj Hb. apply (Hlt (S j) b); [lia | exact Hb].
Qed.

Lemma NoDup_map_nth_error {A B : Type} (f : A -> B) (l : list A) i j a b :
  NoDup (map f l) -> nth_error l i = Some a -> nth_error l j = Some b ->
  f a = f b -> i = j.
Proof.
  intros Hnd Hi Hj Hf.
  assert (Li : (i < List.length (map f l))%nat)
    by (rewrite length_map; apply nth_error_Some; congruence).
  apply (proj1 (NoDup_nth_error (map f l)) Hnd i j Li).
  rewrite !nth_error_map, Hi, Hj. simpl. congruence.
Qed.

Lemma findIndex_nodup (l : list Anchor) (i : nat) (a : Anchor) :
  NoDup (map key l) -> nth_error l i = Some a ->
  findIndex (sameAnchor (key a)) l = Z.of_nat i.
Proof.
  intros Hnd Hn. apply (findIndex_first _ _ _ a Hn).
  - apply sameAnchor_iff. reflexivity.
  - intros j b Hj Hb.
    destruct (sameAnchor (key a) b) eqn:E; [|reflexivity].
    apply sameAnchor_iff in E.
    pose proof (NoDup_map_nth_error key l j i b a Hnd Hb Hn E). lia.
Qed.

Lemma at_index_nat {A : Type} (l : list A) (i : nat) :
  at_index l (Z.of_nat i) = nth_error l i.
Proof.
  unfold at_index. destruct (Z.ltb_spec (Z.of_nat i) 0); [lia|].
  rewrite Nat2Z.id. reflexivity.
Qed.

Lemma at_index_In {A : Type} (l : list A) (i : Z) (a : A) :
  at_index l i = Some a -> In a l.
Proof.
  unfold at_index. destruct (i <? 0)%Z; [discriminate|]. apply nth_error_In.
Qed.

Lemma findTargetAnchor_In docH la anchors context direction a :
  findTargetAnchor docH la anchors context direction = Some a -> In a anchors.
Proof.
  unfold findTargetAnchor.
  destruct (_ =? -1)%Z.
  - destruct (String.eqb direction "previous"); intro H;
      apply find_some in H; destruct H as [H _]; [apply in_rev|]; exact H.
  - destruct (String.eqb direction "next").
    + destruct (_ >=? _)%Z; [discriminate | apply at_index_In].
    + destruct (_ <=? _)%Z; [discriminate | apply at_index_In].
Qed.

End AnchorFacts.
(* ================================================================== *)
(** * Properties of the navigator                                      *)
(* ================================================================== *)
Module NavigatorProofs.
Import Js Dom PromptNavigator NavigatorSpec JsFacts AnchorFacts.
Local Open Scope Q_scope.

(** ** buildAnchors *)

Lemma buildAnchors_sorted docH prompts context :
  StronglySorted (fun a b => y a <= y b) (buildAnchors docH prompts context).
Proof. unfold buildAnchors. apply (sort_sorted y). Qed.

Lemma buildAnchors_end_last docH prompts context :
  Forall (within_extent docH context) prompts ->
  exists l, buildAnchors docH prompts context
            = l ++ [endAnchor docH prompts context].
Proof.
  intro Hext. unfold buildAnchors, unsortedAnchors.
  eexists. apply (sort_snoc y). simpl.
  apply Forall_forall. intros a Ha.
  apply In_pushPromptAnchors in Ha.
  destruct Ha as (i & el & Hn & Ha).
  apply nth_error_In in Hn.
  rewrite Forall_forall in Hext. destruct (Hext el Hn) as [Ht Hb].
  destruct Ha as [-> | [L ->]]; simpl; [exact Ht | exact (Hb L)].
Qed.

(** C3, as stated, fails: with arbitrary geometry a turn can lie beyond the
    scrollable extent (here a turn at offset 5000 in a document of height
    1000), and then the sorted list ends with that turn's anchor, not with
    the end anchor. *)
Lemma C3_counterexample :
  map kind (buildAnchors 1000 [turnAt 1 5000 10] (windowAt 0))
    = [chat_bottom; top]
  /\ ~ (exists l a, buildAnchors 1000 [turnAt 1 5000 10] (windowAt 0) = l ++ [a]
                    /\ kind a = chat_bottom).
Proof.
  split; [reflexivity|].
  intros (l & a & H & K).
  apply (f_equal (map kind)) in H. rewrite map_app in H. simpl in H.
  rewrite K in H.
  change (map kind (buildAnchors 1000 [turnAt 1 5000 10] (windowAt 0)))
    with [chat_bottom; top] in H.
  destruct (map kind l) as [|k1 [|k2 [|k3 r]]]; simpl in H; discriminate.
Qed.

(** C3 (amended): for every list of turns with arbitrary geometry,
    [buildAnchors] returns a list sorted ascending by offset that holds
    exactly one top anchor per turn, one bottom anchor exactly for the turns
    whose height exceeds 80% of the viewport height, and one end anchor at
    the scrollable extent; the end anchor is the final element whenever no
    turn anchor lies beyond the scrollable extent. *)
Theorem C3_buildAnchors_sorted_complete docH prompts context :
  let anchors := buildAnchors docH prompts context in
  StronglySorted (fun a b => y a <= y b) anchors
  /\ (forall a, In a anchors <->
        (exists i el, nth_error prompts i = Some el
                      /\ a = topAnchor context el i) \/
        (exists i el, nth_error prompts i = Some el
                      /\ viewHeight context * 0.8 < height el
                      /\ a = bottomAnchor context el i) \/
        a = endAnchor docH prompts context)
  /\ NoDup (map origin anchors)
  /\ (Forall (within_extent docH context) prompts ->
      exists l, anchors = l ++ [endAnchor docH prompts context]).
Proof.
  intro anchors. split; [apply buildAnchors_sorted|].
  split; [intro a; apply In_buildAnchors|].
  split; [|apply buildAnchors_end_last].
  eapply Permutation_NoDup.
  - apply Permutation_map, buildAnchors_perm.
  - apply NoDup_origin_unsorted.
Qed.

Lemma C3_witness :
  Forall (within_extent 2000 (windowAt 0)) [turnAt 1 50 900; turnAt 2 1500 100]
  /\ map origin (buildAnchors 2000 [turnAt 1 50 900; turnAt 2 1500 100]
                              (windowAt 0))
     = [(0%nat, top); (0%nat, bottom); (1%nat, top); (2%nat, chat_bottom)]
  /\ exists l, buildAnchors 2000 [turnAt 1 50 900; turnAt 2 1500 100]
                            (windowAt 0)
               = l ++ [endAnchor 2000 [turnAt 1 50 900; turnAt 2 1500 100]
                                 (windowAt 0)].
Proof.
  assert (E : Forall (within_extent 2000 (windowAt 0))
                     [turnAt 1 50 900; turnAt 2 1500 100]).
  { apply Forall_cons; [|apply Forall_cons; [|apply Forall_nil]];
      (split; [|intros _]); apply Qle_bool_iff; reflexivity. }
  split; [exact E|]. split; [reflexivity|].
  exact (proj2 (proj2 (proj2
    (C3_buildAnchors_sorted_complete 2000
       [turnAt 1 50 900; turnAt 2 1500 100] (windowAt 0)))) E).
Defined.

(** ** jump *)

Lemma buildAnchors_nonempty docH prompts context :
  buildAnchors docH prompts context <> [].
Proof.
  intro H. pose proof (buildAnchors_length docH prompts context) as L.
  rewrite H in L. simpl in L. lia.
Qed.

(** [jump] on a page with turns: the 'no_anchors' exit is never taken. *)
Lemma jump_with_prompts docH context now st direction :
  prompts st <> [] ->
  jump docH context now st direction =
  match findTargetAnchor docH (lastAnchor st)
          (buildAnchors docH (prompts st) context) context direction with
  | None => (Failure "no_target", st, None)
  | Some target =>
      (Success (promptIndex target) (List.length (prompts st)),
       mkState (prompts st) (Some (element target, kind target)) now,
       Some (snd (scrollToAnchor docH now (lastJumpTime st) target context)))
  end.
Proof.
  intro Hp. unfold jump.
  destruct (prompts st) as [|p ps] eqn:E; [congruence|].
  destruct (buildAnchors docH (p :: ps) context) eqn:B.
  - exfalso. exact (buildAnchors_nonempty _ _ _ B).
  - destruct (findTargetAnchor _ _ _ _ _); reflexivity.
Qed.

Lemma scrollToAnchor_top docH now last a context :
  scroll_top (snd (scrollToAnchor docH now last a context))
  = clamp (getTargetScroll docH context a) (maxScroll docH context).
Proof. unfold scrollToAnchor, getTargetScroll. destruct (kind a); reflexivity. Qed.

Lemma findTargetAnchor_first docH la anchors context direction :
  match la with
  | Some l => findIndex (sameAnchor l) anchors
  | None => (-1)%Z
  end = (-1)%Z ->
  findTargetAnchor docH la anchors context direction =
  if String.eqb direction "previous" then
    find (fun a => Qlt_bool (getTargetScroll docH context a)
                            (scrollTop context - 10)) (rev anchors)
  else
    find (fun a => Qlt_bool (scrollTop context + 10)
                            (getTargetScroll docH context a)) anchors.
Proof. intro H. unfold findTargetAnchor. rewrite H. reflexivity. Qed.

(** With no usable recorded anchor, the target that [findTargetAnchor]
    compares with the current offset is the one before clamping: a
    successful jump moves in the requested direction unless the current
    offset already sits at the bound the target is clamped to. *)
Lemma first_jump_moves_unless_clamped docH context now st :
  recordedIndex docH context st = (-1)%Z ->
  (forall p t st' cmd,
     jump docH context now st "next" = (Success p t, st', Some cmd) ->
     scrollTop context < maxScroll docH context ->
     scrollTop context < scroll_top cmd)
  /\
  (forall p t st' cmd,
     jump docH context now st "previous" = (Success p t, st', Some cmd) ->
     0 < scrollTop context ->
     scroll_top cmd < scrollTop context).
Proof.
  intro Hidx. unfold recordedIndex in Hidx.
  split; intros p t st' cmd J Hb.
  - assert (Hp : prompts st <> [])
      by (intro Ep; unfold jump in J; rewrite Ep in J; discriminate).
    rewrite (jump_with_prompts _ _ _ _ _ Hp) in J.
    rewrite (findTargetAnchor_first _ _ _ _ _ Hidx) in J.
    change (String.eqb "next" "previous") with false in J. cbv iota in J.
    destruct (find _ _) as [a|] eqn:F; [|discriminate].
    apply find_some in F. destruct F as [_ F]. apply Qlt_bool_iff in F.
    injection J as _ _ _ <-.
    change (scroll_top _)
      with (clamp (getTargetScroll docH context a) (maxScroll docH context)).
    unfold clamp.
    destruct (Q.min_spec (getTargetScroll docH context a)
                         (maxScroll docH context)) as [[_ E]|[_ E]];
    destruct (Q.max_spec 0 (Qmin (getTargetScroll docH context a)
                         (maxScroll docH context))) as [[? E']|[? E']];
    rewrite E'; try rewrite E; lra.
  - assert (Hp : prompts st <> [])
      by (intro Ep; unfold jump in J; rewrite Ep in J; discriminate).
    rewrite (jump_with_prompts _ _ _ _ _ Hp) in J.
    rewrite (findTargetAnchor_first _ _ _ _ _ Hidx) in J.
    change (String.eqb "previous" "previous") with true in J. cbv iota in J.
    destruct (find _ _) as [a|] eqn:F; [|discriminate].
    apply find_some in F. destruct F as [_ F]. apply Qlt_bool_iff in F.
    injection J as _ _ _ <-.
    change (scroll_top _)
      with (clamp (getTargetScroll docH context a) (maxScroll docH context)).
    unfold clamp.
    destruct (Q.min_spec (getTargetScroll docH context a)
                         (maxScroll docH context)) as [[? E]|[? E]];
    destruct (Q.max_spec 0 (Qmin (getTargetScroll docH context a)
                         (maxScroll docH context))) as [[? E']|[? E']];
    rewrite E'; try rewrite E; lra.
Qed.

(** C1: the code breaks the directional guarantee where the target is
    clamped.  At the bottom of a page (offset 1000 = maxScroll) whose last
    turn starts at 1500, [jump('next')] with no recorded anchor picks that
    turn's top anchor (unclamped target 1350 > 1010), reports success and
    requests offset 1000: the offset does not grow.  At the top of a page
    (offset 0) whose first turn starts at 50, [jump('previous')] picks its
    top anchor (unclamped target -100 < -10), reports success and requests
    offset 0: the offset does not shrink. *)
Theorem C1_first_jump_can_stay_in_place :
  (exists st' cmd,
     jump 2000 (windowAt 1000) 0
          (fresh [turnAt 1 (-1000) 100; turnAt 2 500 100]) "next"
       = (Success 1 2, st', Some cmd)
     /\ scroll_top cmd == scrollTop (windowAt 1000))
  /\
  (exists st' cmd,
     jump 2000 (windowAt 0) 0
          (fresh [turnAt 1 50 100; turnAt 2 1500 100]) "previous"
       = (Success 0 2, st', Some cmd)
     /\ scroll_top cmd == scrollTop (windowAt 0)).
Proof.
  split; eexists; eexists; (split; [vm_compute; reflexivity|]);
    vm_compute; reflexivity.
Qed.

(** ** Sequential navigation *)

Lemma findTargetAnchor_sequential docH la anchors context direction :
  findIndex (sameAnchor la) anchors <> (-1)%Z ->
  findTargetAnchor docH (Some la) anchors context direction =
  let currentIndex := findIndex (sameAnchor la) anchors in
  if String.eqb direction "next" then
    if (currentIndex >=? Z.of_nat (List.length anchors) - 1)%Z then None
    else at_index anchors (currentIndex + 1)
  else
    if (currentIndex <=? 0)%Z then None
    else at_index anchors (currentIndex - 1).
Proof.
  intro H. unfold findTargetAnchor.
  destruct (Z.eqb_spec (findIndex (sameAnchor la) anchors) (-1)); [contradiction|].
  reflexivity.
Qed.

Lemma at_index_in_range {A : Type} (l : list A) (i : Z) :
  (0 <= i < Z.of_nat (List.length l))%Z ->
  exists a, at_index l i = Some a /\ nth_error l (Z.to_nat i) = Some a.
Proof.
  intro H. unfold at_index. destruct (Z.ltb_spec i 0); [lia|].
  destruct (nth_error l (Z.to_nat i)) as [a|] eqn:E.
  - exists a. auto.
  - apply nth_error_None in E. lia.
Qed.

(** C2: when a prior anchor is recorded at index [i] of the rebuilt list
    and the list rebuilt by the next call (from a fresh scan [prompts'] and
    fresh geometry) is the same, [jump('next')]
    selects and records the anchor at index [i + 1], so that the recorded
    index advances by exactly one; from the last element it fails with
    'no_target'.  [jump('previous')] moves to index [i - 1] and fails with
    'no_target' from the first element.  The turns of a scan are distinct
    elements. *)
Theorem C2_sequential_jumps docH context now st docH' context' prompts'
    (i : Z) :
  NoDup (map eid (prompts st)) ->
  prompts st <> [] ->
  recordedIndex docH context st = i ->
  (0 <= i)%Z ->
  buildAnchors docH' prompts' context'
    = buildAnchors docH (prompts st) context ->
  let anchors := buildAnchors docH (prompts st) context in
  let n := Z.of_nat (List.length anchors) in
  let next := jump docH context now st "next" in
  let previous := jump docH context now st "previous" in
  ((i + 1 < n)%Z ->
     exists a, at_index anchors (i + 1) = Some a
       /\ result_of next = Success (promptIndex a) (List.length (prompts st))
       /\ lastAnchor (state_of next) = Some (key a)
       /\ prompts (state_of next) = prompts st
       /\ recordedIndex docH' context' (rescan prompts' (state_of next))
          = (i + 1)%Z)
  /\ ((i + 1 = n)%Z ->
        result_of next = Failure "no_target" /\ state_of next = st)
  /\ ((0 < i)%Z ->
     exists a, at_index anchors (i - 1) = Some a
       /\ result_of previous = Success (promptIndex a) (List.length (prompts st))
       /\ lastAnchor (state_of previous) = Some (key a)
       /\ prompts (state_of previous) = prompts st
       /\ recordedIndex docH' context' (rescan prompts' (state_of previous))
          = (i - 1)%Z)
  /\ ((i = 0)%Z ->
        result_of previous = Failure "no_target" /\ state_of previous = st).
Proof.
  intros Hnd Hp Hi Hpos Hsame anchors n next previous.
  unfold recordedIndex in Hi.
  destruct (lastAnchor st) as [la|] eqn:Ela; [|lia].
  fold anchors in Hi.
  assert (Hne : findIndex (sameAnchor la) anchors <> (-1)%Z) by lia.
  assert (Hrange : (0 <= i < n)%Z).
  { destruct (findIndex_range (sameAnchor la) anchors) as [H|H]; [lia|].
    unfold n. lia. }
  pose proof (NoDup_key_buildAnchors docH _ context Hnd) as Hkeys.
  fold anchors in Hkeys.
  assert (Enext : next = match
      (if (i >=? n - 1)%Z then None else at_index anchors (i + 1)) with
    | None => (Failure "no_target", st, None)
    | Some target =>
      (Success (promptIndex target) (List.length (prompts st)),
       mkState (prompts st) (Some (element target, kind target)) now,
       Some (snd (scrollToAnchor docH now (lastJumpTime st) target context)))
    end).
  { unfold next. rewrite (jump_with_prompts _ _ _ _ _ Hp), Ela.
    fold anchors. rewrite (findTargetAnchor_sequential _ _ _ _ _ Hne).
    cbv zeta. rewrite Hi. reflexivity. }
  assert (Eprev : previous = match
      (if (i <=? 0)%Z then None else at_index anchors (i - 1)) with
    | None => (Failure "no_target", st, None)
    | Some target =>
      (Success (promptIndex target) (List.length (prompts st)),
       mkState (prompts st) (Some (element target, kind target)) now,
       Some (snd (scrollToAnchor docH now (lastJumpTime st) target context)))
    end).
  { unfold previous. rewrite (jump_with_prompts _ _ _ _ _ Hp), Ela.
    fold anchors. rewrite (findTargetAnchor_sequential _ _ _ _ _ Hne).
    cbv zeta. rewrite Hi. reflexivity. }
  assert (Hrec : forall j a st1,
            (0 <= j)%Z -> nth_error anchors (Z.to_nat j) = Some a ->
            st1 = mkState (prompts st) (Some (element a, kind a)) now ->
            recordedIndex docH' context' (rescan prompts' st1) = j).
  { intros j a st1 Hj Hn ->. unfold recordedIndex. simpl.
    rewrite Hsame. fold anchors.
    change (element a, kind a) with (key a).
    rewrite (findIndex_nodup anchors (Z.to_nat j) a Hkeys Hn). lia. }
  repeat split.
  - intro H. destruct (at_index_in_range anchors (i + 1)) as (a & Ha & Hn);
      [lia|].
    exists a. rewrite Enext.
    destruct (Z.geb_spec i (n - 1)); [lia|]. rewrite Ha.
    repeat split; try reflexivity.
    apply (Hrec (i + 1)%Z a); [lia | exact Hn | reflexivity].
  - rewrite Enext. destruct (Z.geb_spec i (n - 1)); [reflexivity | lia].
  - rewrite Enext. destruct (Z.geb_spec i (n - 1)); [reflexivity | lia].
  - intro H. destruct (at_index_in_range anchors (i - 1)) as (a & Ha & Hn);
      [lia|].
    exists a. rewrite Eprev.
    destruct (Z.leb_spec i 0); [lia|]. rewrite Ha.
    repeat split; try reflexivity.
    apply (Hrec (i - 1)%Z a); [lia | exact Hn | reflexivity].
  - rewrite Eprev. destruct (Z.leb_spec i 0); [reflexivity | lia].
  - rewrite Eprev. destruct (Z.leb_spec i 0); [reflexivity | lia].
Qed.

Lemma C2_witness :
  let st := mkState [turnAt 1 50 100; turnAt 2 1500 100] (Some (Some 1%nat, top)) 0 in
  let next := jump 2000 (windowAt 0) 400 st "next" in
  NoDup (map eid (prompts st))
  /\ recordedIndex 2000 (windowAt 0) st = 0%Z
  /\ buildAnchors 2000 [turnAt 1 (-950) 100; turnAt 2 500 100] (windowAt 1000)
     = buildAnchors 2000 (prompts st) (windowAt 0)
  /\ exists a, at_index (buildAnchors 2000 (prompts st) (windowAt 0)) (0 + 1)
               = Some a
       /\ result_of next = Success (promptIndex a) (List.length (prompts st))
       /\ lastAnchor (state_of next) = Some (key a)
       /\ prompts (state_of next) = prompts st
       /\ recordedIndex 2000 (windowAt 1000)
            (rescan [turnAt 1 (-950) 100; turnAt 2 500 100] (state_of next))
          = (0 + 1)%Z.
Proof.
  intros st next.
  assert (Hnd : NoDup (map eid (prompts st))).
  { simpl. constructor; [simpl; intros [H|[]]; discriminate|].
    constructor; [intros []|constructor]. }
  assert (Hs : buildAnchors 2000 [turnAt 1 (-950) 100; turnAt 2 500 100]
                 (windowAt 1000)
               = buildAnchors 2000 (prompts st) (windowAt 0))
    by reflexivity.
  split; [exact Hnd|]. split; [reflexivity|]. split; [exact Hs|].
  refine (proj1 (C2_sequential_jumps 2000 (windowAt 0) 400 st 2000
                   (windowAt 1000) [turnAt 1 (-950) 100; turnAt 2 500 100]
                   0%Z Hnd _ eq_refl _ Hs) _).
  - discriminate.
  - apply Z.le_refl.
  - reflexivity.
Defined.

(** ** Result reporting *)

(** C8, as stated, fails: when the scan found no turns the reported reason
    is 'no_prompts', not 'no_turns'. *)
Lemma C8_counterexample :
  result_of (jump 2000 (windowAt 0) 0 (fresh []) "next") = Failure "no_prompts"
  /\ result_of (jump 2000 (windowAt 0) 0 (fresh []) "next")
     <> Failure "no_turns".
Proof. split; [reflexivity | discriminate]. Qed.

Lemma anchor_turn docH prompts context a :
  In a (buildAnchors docH prompts context) ->
  match element a with
  | Some e => exists el, nth_error prompts (promptIndex a) = Some el
                         /\ eid el = e
  | None => promptIndex a = List.length prompts
  end.
Proof.
  intro H. apply In_buildAnchors in H.
  destruct H as [(i & el & Hn & ->) | [(i & el & Hn & _ & ->) | ->]]; simpl;
    try (exists el; auto); reflexivity.
Qed.

(** C8 (amended): whenever [jump] returns a failure the reported reason is
    one of 'no_prompts', 'no_anchors', 'no_target'; when the scan found no
    turns it is 'no_prompts'; a success carries the total turn count and
    the ordinal position of the turn of the anchor that was selected and
    recorded (the turn count itself for the end anchor, which has no
    turn). *)
Theorem C8_jump_results docH context now st direction :
  let r := jump docH context now st direction in
  (forall reason, result_of r = Failure reason ->
     reason = "no_prompts"%string \/ reason = "no_anchors"%string
     \/ reason = "no_target"%string)
  /\ (prompts st = [] -> result_of r = Failure "no_prompts")
  /\ (forall p t, result_of r = Success p t ->
        t = List.length (prompts st)
        /\ exists target,
             In target (buildAnchors docH (prompts st) context)
             /\ promptIndex target = p
             /\ lastAnchor (state_of r) = Some (key target)
             /\ match element target with
                | Some e => exists el, nth_error (prompts st) p = Some el
                                       /\ eid el = e
                | None => p = List.length (prompts st)
                end).
Proof.
  intro r. subst r.
  destruct (prompts st) as [|e es] eqn:Ep.
  - unfold jump. rewrite Ep. simpl.
    split; [intros reason H; injection H as <-; auto|].
    split; [reflexivity | intros p t H; discriminate].
  - assert (Hp : prompts st <> []) by (rewrite Ep; discriminate).
    rewrite (jump_with_prompts _ _ _ _ _ Hp). rewrite Ep.
    destruct (findTargetAnchor _ _ _ _ _) as [a|] eqn:F; simpl.
    + split; [intros reason H; discriminate|].
      split; [discriminate|].
      intros p t H. injection H as <- <-. split; [reflexivity|].
      exists a. apply findTargetAnchor_In in F.
      split; [exact F|]. split; [reflexivity|]. split; [reflexivity|].
      apply anchor_turn in F. exact F.
    + split; [intros reason H; injection H as <-; auto|].
      split; [discriminate | intros p t H; discriminate].
Qed.

Lemma C8_witness :
  let r := jump 2000 (windowAt 0) 0 (fresh [turnAt 1 500 100]) "next" in
  result_of r = Success 0 1
  /\ (1%nat = List.length (prompts (fresh [turnAt 1 500 100]))
      /\ exists target,
           In target (buildAnchors 2000 (prompts (fresh [turnAt 1 500 100]))
                                   (windowAt 0))
           /\ promptIndex target = 0%nat
           /\ lastAnchor (state_of r) = Some (key target)
           /\ match element target with
              | Some e =>
                  exists el,
                    nth_error (prompts (fresh [turnAt 1 500 100])) 0 = Some el
                    /\ eid el = e
              | None => 0%nat = List.length (prompts (fresh [turnAt 1 500 100]))
              end).
Proof.
  intro r. split; [reflexivity|].
  exact (proj2 (proj2 (C8_jump_results 2000 (windowAt 0) 0
                         (fresh [turnAt 1 500 100]) "next")) 0%nat 1%nat eq_refl).
Defined.

End NavigatorProofs.
(* ================================================================== *)
(** * Properties of the estimator                                     *)
(* ================================================================== *)
Module EstimatorProofs.
Import Js TokenEstimator EstimatorSpec.
Local Open Scope string_scope.

(** ** White-space normalization *)

Lemma truthy_false (s : string) : truthy s = false <-> s = "".
Proof.
  unfold truthy. rewrite negb_false_iff. apply String.eqb_eq.
Qed.

Lemma truthy_true (s : string) : truthy s = true <-> s <> "".
Proof.
  unfold truthy. rewrite negb_true_iff. apply String.eqb_neq.
Qed.

Lemma whiteSpaceOnly_count (s : string) :
  whiteSpaceOnly s = true <-> nonWhiteSpaceCount s = 0%nat.
Proof.
  unfold whiteSpaceOnly. induction s as [|c rest IH]; simpl.
  - split; reflexivity.
  - rewrite andb_true_iff, IH. destruct (isWhiteSpace c); simpl.
    + split; [intros [_ H]; exact H | auto].
    + split; [intros [H _]; discriminate | discriminate].
Qed.

Lemma count_append (a b : string) :
  nonWhiteSpaceCount (a ++ b)
  = (nonWhiteSpaceCount a + nonWhiteSpaceCount b)%nat.
Proof.
  induction a as [|c rest IH]; simpl; [reflexivity|]. rewrite IH. lia.
Qed.

Lemma count_replace_space (inRun : bool) (s : string) :
  nonWhiteSpaceCount (replaceWhiteSpaceRunsFrom inRun " " s)
  = nonWhiteSpaceCount s.
Proof.
  revert inRun. induction s as [|c rest IH]; intro inRun; simpl;
    [reflexivity|].
  destruct (isWhiteSpace c) eqn:W.
  - destruct inRun; [apply IH|]. simpl. apply IH.
  - simpl. rewrite W, IH. reflexivity.
Qed.

Lemma length_replace_empty (inRun : bool) (s : string) :
  String.length (replaceWhiteSpaceRunsFrom inRun "" s) = nonWhiteSpaceCount s.
Proof.
  revert inRun. induction s as [|c rest IH]; intro inRun; simpl;
    [reflexivity|].
  destruct (isWhiteSpace c).
  - destruct inRun; simpl; apply IH.
  - simpl. rewrite IH. reflexivity.
Qed.

Lemma count_trimStart (s : string) :
  nonWhiteSpaceCount (trimStart s) = nonWhiteSpaceCount s.
Proof.
  induction s as [|c rest IH]; simpl; [reflexivity|].
  destruct (isWhiteSpace c) eqn:W; simpl; [exact IH|].
  rewrite W. reflexivity.
Qed.

Lemma count_trimEnd (s : string) :
  nonWhiteSpaceCount (trimEnd s) = nonWhiteSpaceCount s.
Proof.
  induction s as [|c rest IH]; simpl; [reflexivity|].
  destruct (trimEnd rest) as [|c' r'] eqn:E.
  - simpl in IH. rewrite <- IH.
    destruct (isWhiteSpace c) eqn:W; simpl; [reflexivity|].
    rewrite W. reflexivity.
  - simpl nonWhiteSpaceCount at 1. rewrite <- IH. reflexivity.
Qed.

Lemma count_trim (s : string) :
  nonWhiteSpaceCount (trim s) = nonWhiteSpaceCount s.
Proof. unfold trim. rewrite count_trimEnd. apply count_trimStart. Qed.

Lemma trimStart_blank (s : string) :
  nonWhiteSpaceCount s = 0%nat -> trimStart s = "".
Proof.
  induction s as [|c rest IH]; simpl; [reflexivity|].
  destruct (isWhiteSpace c); [exact IH | discriminate].
Qed.

Lemma count_normalized (t : string) :
  nonWhiteSpaceCount (normalized t) = nonWhiteSpaceCount t.
Proof.
  unfold normalized, replaceWhiteSpaceRuns.
  rewrite count_trim. apply count_replace_space.
Qed.

(** The normalized text is empty exactly when the text is empty or white
    space only. *)
Lemma normalized_empty (t : string) :
  normalized t = "" <-> whiteSpaceOnly t = true.
Proof.
  rewrite whiteSpaceOnly_count, <- count_normalized. split.
  - intros ->. reflexivity.
  - intro H. unfold normalized in *. unfold trim in *.
    rewrite count_trimEnd, count_trimStart in H.
    rewrite (trimStart_blank _ H). reflexivity.
Qed.

(** ** Counting words by splitting *)

Lemma split_has_word (inRun : bool) (cur s : string) :
  cur <> "" \/ nonWhiteSpaceCount s <> 0%nat ->
  (1 <= List.length (filter truthy (splitWhiteSpaceFrom inRun cur s)))%nat.
Proof.
  revert inRun cur. induction s as [|c rest IH]; intros inRun cur H; simpl.
  - destruct H as [H | H]; [|contradiction].
    apply truthy_true in H. rewrite H. simpl. lia.
  - simpl in H. destruct (isWhiteSpace c).
    + destruct inRun; [apply IH; exact H|]. simpl.
      destruct (truthy cur) eqn:T; simpl; [lia|].
      apply IH. right. destruct H as [H | H]; [|exact H].
      apply truthy_false in T. contradiction.
    + apply IH. left. destruct cur; discriminate.
Qed.

Lemma countWords_fallback_positive (s : string) :
  nonWhiteSpaceCount s <> 0%nat -> (1 <= countWords None s)%Z.
Proof.
  intro H. unfold countWords, splitWhiteSpace.
  pose proof (split_has_word false "" s (or_intror H)). lia.
Qed.

(** ** estimateTokensFromText *)

(** C4, as stated, fails where a word segmenter is in use and finds no
    word in a text that is not blank: on three exclamation marks the code
    counts 0 words, computes [byWord] from 1 instead and returns 2 tokens,
    where the formula of the claim gives 1. *)
Lemma C4_counterexample :
  let r := estimateTokensFromText (Some punctuationSegmenter) "!!!" in
  words r = 0%Z /\ characters r = 3%Z /\ tokens r = 2%Z
  /\ specTokens (words r) (characters r) = 1%Z
  /\ tokens r <> specTokens (words r) (characters r).
Proof. repeat split. discriminate. Qed.

(** C4 (amended): for every input string [t], [estimateTokensFromText]
    returns tokens = words = characters = 0 when [t] is empty or white
    space only; otherwise, with [words] the word count and [chars] the
    count of non-white-space characters of the normalized text, it returns
    [max(1, max(byWord, byChar, blended))] where
    [byWord = ceil(w * 1.33)] for [w = words], or [w = 1] when [words] is
    0, [byChar = ceil(chars / 4)] and
    [blended = round(byWord * 0.4 + byChar * 0.6)], which is always at
    least 1.  Without a word segmenter the word count is at least 1 and
    [byWord] is [ceil(words * 1.33)]. *)
Theorem C4_estimate (segmenter : option Segmenter) (t : string) :
  let r := estimateTokensFromText segmenter t in
  (whiteSpaceOnly t = true ->
     tokens r = 0 /\ words r = 0 /\ characters r = 0)%Z
  /\
  (whiteSpaceOnly t = false ->
     words r = countWords segmenter (normalized t)
     /\ characters r = Z.of_nat (nonWhiteSpaceCount (normalized t))
     /\ tokens r = specTokens (if (words r =? 0)%Z then 1 else words r)
                              (characters r)
     /\ (1 <= tokens r)%Z
     /\ (segmenter = None ->
         (1 <= words r)%Z
         /\ tokens r = specTokens (words r) (characters r))).
Proof.
  intro r. subst r. unfold estimateTokensFromText.
  fold (normalized t).
  destruct (truthy t) eqn:T; simpl negb; cbv iota.
  - destruct (truthy (normalized t)) eqn:N; simpl negb; cbv iota.
    + split.
      * intro W. apply normalized_empty in W. apply truthy_true in N.
        contradiction.
      * intros _. cbv zeta. simpl tokens. simpl words. simpl characters.
        unfold replaceWhiteSpaceRuns. rewrite length_replace_empty.
        split; [reflexivity|]. split; [reflexivity|].
        split; [reflexivity|]. split; [apply Z.le_max_l|].
        intros ->.
        assert (P : (1 <= countWords None (normalized t))%Z).
        { apply countWords_fallback_positive. intro C.
          apply truthy_true in N. apply N.
          rewrite count_normalized in C.
          apply whiteSpaceOnly_count, normalized_empty in C. exact C. }
        split; [exact P|].
        destruct (Z.eqb_spec (countWords None (normalized t)) 0); [lia|].
        reflexivity.
    + split; [intros _; simpl; auto|].
      intro W. apply truthy_false, normalized_empty in N. congruence.
  - apply truthy_false in T. subst t. split; [intros _; simpl; auto|].
    intro W. discriminate.
Qed.

Lemma C4_witness :
  let r := estimateTokensFromText None "hello   world  " in
  whiteSpaceOnly "hello   world  " = false
  /\ words r = 2%Z /\ characters r = 10%Z /\ tokens r = 3%Z
  /\ tokens r = specTokens (words r) (characters r).
Proof.
  intro r. split; [reflexivity|].
  split; [reflexivity|]. split; [reflexivity|]. split; [reflexivity|].
  exact (proj2 (proj2 (proj2 (proj2 (proj2
    (proj2 (C4_estimate None "hello   world  ") eq_refl)))) eq_refl)).
Defined.

(** ** The size pattern *)

Lemma unit_letter_class (c : ascii) :
  isUnitLetter (toLowerCaseUnit c) = true ->
  isDigitOrDot c = false /\ isWhiteSpace c = false.
Proof.
  destruct c as [[] [] [] [] [] [] [] []]; vm_compute; intro H;
    try discriminate H; split; reflexivity.
Qed.

Lemma whiteSpace_not_digit (c : ascii) :
  isWhiteSpace c = true -> isDigitOrDot c = false.
Proof.
  destruct c as [[] [] [] [] [] [] [] []]; vm_compute; intro H;
    try discriminate H; reflexivity.
Qed.

Lemma toLowerCase_append (a b : string) :
  toLowerCase (a ++ b) = toLowerCase a ++ toLowerCase b.
Proof. induction a as [|c r IH]; simpl; [|rewrite IH]; reflexivity. Qed.

Lemma unit_cases (lu : string) (k : Z) :
  unitExponent lu = Some k ->
  (lu = "b" /\ k = 0%Z) \/ (lu = "kb" /\ k = 1%Z) \/ (lu = "kib" /\ k = 1%Z)
  \/ (lu = "mb" /\ k = 2%Z) \/ (lu = "mib" /\ k = 2%Z)
  \/ (lu = "gb" /\ k = 3%Z) \/ (lu = "gib" /\ k = 3%Z)
  \/ (lu = "tb" /\ k = 4%Z) \/ (lu = "tib" /\ k = 4%Z).
Proof.
  unfold unitExponent.
  repeat match goal with
  | |- context [String.eqb lu ?u] =>
      destruct (String.eqb_spec lu u) as [->|?]; simpl
  end; intro H; try discriminate H; injection H as <-; tauto.
Qed.

Lemma toLowerCase_length (s : string) :
  String.length (toLowerCase s) = String.length s.
Proof. induction s as [|c r IH]; simpl; [|rewrite IH]; reflexivity. Qed.

Lemma substring_prefix (u rest : string) :
  substring 0 (String.length u) (u ++ rest) = u.
Proof.
  induction u as [|c r IH]; simpl; [destruct rest; reflexivity|].
  rewrite IH. reflexivity.
Qed.

Lemma matchUnit_unit (u rest : string) (k : Z) :
  unitExponent (toLowerCase u) = Some k -> matchUnit (u ++ rest) = Some u.
Proof.
  intro H. apply unit_cases in H.
  unfold matchUnit. rewrite toLowerCase_append.
  pose proof (toLowerCase_length u) as L.
  destruct H as [[H _]|[[H _]|[[H _]|[[H _]|[[H _]|[[H _]|[[H _]|[[H _]|[H _]]]]]]]]];
    rewrite H in L |- *; simpl find; cbv iota beta;
    simpl String.length in L |- *;
    rewrite L, substring_prefix; reflexivity.
Qed.

Lemma unit_first_letter (u : string) (k : Z) :
  unitExponent (toLowerCase u) = Some k ->
  exists c r, u = String c r /\ isUnitLetter (toLowerCaseUnit c) = true.
Proof.
  intro H. apply unit_cases in H.
  destruct u as [|c r].
  - simpl in H. repeat destruct H as [[H _]|H]; try discriminate H.
    destruct H as [H _]. discriminate H.
  - exists c, r. split; [reflexivity|]. simpl in H.
    repeat destruct H as [[H _]|H];
      try (injection H as -> _; reflexivity).
    destruct H as [H _]. injection H as -> _. reflexivity.
Qed.

Lemma starSplits_longest (p : ascii -> bool) (a rest : string) :
  allOf p a = true -> stopsAt p rest ->
  exists others, starSplits p (a ++ rest) = (a, rest) :: others.
Proof.
  intros Ha Hr. induction a as [|c a' IH]; simpl.
  - destruct rest as [|c r]; [exists []; reflexivity|].
    simpl in Hr |- *. rewrite Hr. exists []. reflexivity.
  - simpl in Ha. apply andb_true_iff in Ha. destruct Ha as [Hc Ha].
    rewrite Hc. destruct (IH Ha) as (others & ->). simpl.
    eexists. reflexivity.
Qed.

Lemma plusSplits_longest (p : ascii -> bool) (a rest : string) :
  a <> "" -> allOf p a = true -> stopsAt p rest ->
  exists others, plusSplits p (a ++ rest) = (a, rest) :: others.
Proof.
  intros Hne Ha Hr. unfold plusSplits.
  destruct (starSplits_longest p a rest Ha Hr) as (others & ->). simpl.
  apply truthy_true in Hne. rewrite Hne. eexists. reflexivity.
Qed.

Lemma stopsAt_unit (p : ascii -> bool) (ws u rest : string) (k : Z) :
  (forall c, isWhiteSpace c = true -> p c = false) ->
  (forall c, isUnitLetter (toLowerCaseUnit c) = true -> p c = false) ->
  allOf isWhiteSpace ws = true ->
  unitExponent (toLowerCase u) = Some k ->
  stopsAt p (ws ++ u ++ rest).
Proof.
  intros Hw Hl Hws Hu. destruct ws as [|c ws']; simpl.
  - destruct (unit_first_letter u k Hu) as (c & r & -> & Hc). simpl.
    apply Hl, Hc.
  - simpl in Hws. apply andb_true_iff in Hws. apply Hw, Hws.
Qed.

(** A number, optional white space and a unit at the start of the text
    are what the pattern matches there. *)
Lemma matchHere_size (n ws u rest : string) (k : Z) :
  n <> "" -> allOf isDigitOrDot n = true -> allOf isWhiteSpace ws = true ->
  unitExponent (toLowerCase u) = Some k ->
  matchHere (n ++ ws ++ u ++ rest) = Some (n, u).
Proof.
  intros Hne Hn Hws Hu. unfold matchHere.
  destruct (plusSplits_longest isDigitOrDot n (ws ++ u ++ rest) Hne Hn)
    as (o1 & ->).
  { apply (stopsAt_unit _ _ _ _ k); auto.
    - apply whiteSpace_not_digit.
    - intros c Hc. apply unit_letter_class, Hc. }
  simpl.
  destruct (starSplits_longest isWhiteSpace ws (u ++ rest) Hws) as (o2 & ->).
  { destruct (unit_first_letter u k Hu) as (c & r & -> & Hc). simpl.
    apply unit_letter_class, Hc. }
  simpl. rewrite (matchUnit_unit u rest k Hu). reflexivity.
Qed.

Lemma matchHere_no_number (c : ascii) (s : string) :
  isDigitOrDot c = false -> matchHere (String c s) = None.
Proof.
  intro H. unfold matchHere, plusSplits. simpl. rewrite H. reflexivity.
Qed.

Lemma matchSize_eq (s : string) :
  matchSize s = match matchHere s with
                | Some m => Some m
                | None => match s with
                          | "" => None
                          | String _ rest => matchSize rest
                          end
                end.
Proof. destruct s; reflexivity. Qed.

Lemma matchSize_skip (pre s : string) :
  allOf (fun c => negb (isDigitOrDot c)) pre = true ->
  matchSize (pre ++ s) = matchSize s.
Proof.
  induction pre as [|c pre' IH]; intro H; [reflexivity|].
  simpl in H. apply andb_true_iff in H. destruct H as [Hc H].
  apply negb_true_iff in Hc.
  change ((String c pre' ++ s)%string) with (String c (pre' ++ s)).
  rewrite matchSize_eq, (matchHere_no_number c _ Hc). apply IH, H.
Qed.

Lemma matchSize_here (s : string) m :
  matchHere s = Some m -> matchSize s = Some m.
Proof. intro H. rewrite matchSize_eq, H. reflexivity. Qed.

Lemma matchSize_later (pre s : string) :
  matchSize s <> None -> matchSize (pre ++ s) <> None.
Proof.
  intro H. induction pre as [|c pre' IH]; [exact H|].
  change ((String c pre' ++ s)%string) with (String c (pre' ++ s)).
  rewrite matchSize_eq.
  destruct (matchHere (String c (pre' ++ s))); [discriminate | exact IH].
Qed.

(** The pattern finds a match wherever the text holds a size. *)
Lemma matchSize_complete (s : string) :
  sizeOccurs s -> matchSize s <> None.
Proof.
  intros (pre & n & ws & u & rest & k & -> & Hne & Hn & Hws & Hu).
  apply matchSize_later.
  rewrite (matchSize_here _ _ (matchHere_size n ws u rest k Hne Hn Hws Hu)).
  discriminate.
Qed.

(** ** parseFloat on decimal numerals *)

Lemma takeDigits_all (d rest : string) :
  allOf isDigit d = true -> stopsAt isDigit rest ->
  takeDigits (d ++ rest) = (d, rest).
Proof.
  intros Hd Hr. induction d as [|c d' IH]; simpl.
  - destruct rest as [|c r]; [reflexivity|].
    simpl in Hr |- *. rewrite Hr. reflexivity.
  - simpl in Hd. apply andb_true_iff in Hd. destruct Hd as [Hc Hd].
    rewrite Hc, (IH Hd). reflexivity.
Qed.

Lemma append_empty (s : string) : (s ++ "")%string = s.
Proof. induction s as [|c r IH]; simpl; [|rewrite IH]; reflexivity. Qed.

Lemma parseFloat_integer (int : string) :
  int <> "" -> allOf isDigit int = true ->
  parseFloat int = Num (decimalValue int "").
Proof.
  intros Hne Hd. unfold parseFloat.
  rewrite <- (append_empty int) at 1.
  rewrite (takeDigits_all int "" Hd I).
  apply truthy_true in Hne. rewrite Hne. reflexivity.
Qed.

Lemma parseFloat_decimal (int frac : string) :
  allOf isDigit int = true -> allOf isDigit frac = true ->
  int <> "" \/ frac <> "" ->
  parseFloat (int ++ "." ++ frac) = Num (decimalValue int frac).
Proof.
  intros Hi Hf Hne. unfold parseFloat.
  rewrite (takeDigits_all int ("." ++ frac) Hi) by reflexivity.
  change ("." ++ frac)%string with (String "." frac).
  cbv beta iota zeta.
  assert (E : takeDigits frac = (frac, "")).
  { rewrite <- (append_empty frac) at 1. apply takeDigits_all; [exact Hf | exact I]. }
  rewrite E. simpl fst.
  destruct (truthy int) eqn:Ti; [reflexivity|].
  destruct (truthy frac) eqn:Tf; [reflexivity|].
  apply truthy_false in Ti, Tf. destruct Hne; contradiction.
Qed.

(** ** parseFileSizeToBytes *)

Lemma NumEq_refl (a : Number) : NumEq a a.
Proof. destruct a; simpl; [reflexivity | exact I]. Qed.

Lemma NumEq_times_one (a : Number) : NumEq a (times a (1024 ^ 0)).
Proof. destruct a; simpl; [|exact I]. unfold Qeq. simpl. lia. Qed.

Lemma removeAll_nonempty (c : ascii) (s : string) :
  removeAll c s <> "" -> s <> "".
Proof. intros H ->. apply H. reflexivity. Qed.

Lemma parseFileSizeToBytes_recognized (s pre n ws u rest : string) (k : Z) :
  removeAll "," s = pre ++ n ++ ws ++ u ++ rest ->
  allOf (fun c => negb (isDigitOrDot c)) pre = true ->
  n <> "" -> allOf isDigitOrDot n = true ->
  allOf isWhiteSpace ws = true ->
  unitExponent (toLowerCase u) = Some k ->
  NumEq (parseFileSizeToBytes s) (times (parseFloat n) (1024 ^ k)).
Proof.
  intros Hs Hpre Hne Hn Hws Hu. unfold parseFileSizeToBytes.
  assert (T : truthy s = true).
  { apply truthy_true, (removeAll_nonempty ","). rewrite Hs.
    destruct pre; [destruct n; [contradiction|]|]; discriminate. }
  rewrite T, Hs, (matchSize_skip _ _ Hpre).
  rewrite (matchSize_here _ _ (matchHere_size n ws u rest k Hne Hn Hws Hu)).
  simpl negb. cbv iota beta zeta.
  apply unit_cases in Hu.
  destruct Hu as [[H ->]|[[H ->]|[[H ->]|[[H ->]|[[H ->]|[[H ->]|[[H ->]|[[H ->]|[H ->]]]]]]]]];
    rewrite H; simpl; try apply NumEq_refl.
  apply NumEq_times_one.
Qed.

(** *** What the pattern matches is a size *)

Lemma firstSome_some {A B : Type} (f : A -> option B) (l : list A) (y : B) :
  firstSome f l = Some y -> exists x, In x l /\ f x = Some y.
Proof.
  induction l as [|x rest IH]; simpl; [discriminate|].
  destruct (f x) as [z|] eqn:E.
  - intro H. injection H as ->. exists x. auto.
  - intro H. destruct (IH H) as (x' & Hin & Hx). exists x'. auto.
Qed.

Lemma starSplits_In (p : ascii -> bool) (s m r : string) :
  In (m, r) (starSplits p s) -> s = (m ++ r)%string /\ allOf p m = true.
Proof.
  revert m. induction s as [|c rest IH]; intro m; simpl.
  - intros [H | []]. injection H as <- <-. auto.
  - destruct (p c) eqn:Hc.
    + rewrite in_app_iff, in_map_iff.
      intros [([m' r'] & Heq & Hin) | [H | []]].
      * simpl in Heq. injection Heq as <- <-.
        destruct (IH m' Hin) as [-> Hm]. simpl. rewrite Hc, Hm. auto.
      * injection H as <- <-. auto.
    + intros [H | []]. injection H as <- <-. auto.
Qed.

Lemma startsWith_prefix (p s : string) :
  startsWith (toLowerCase s) p = true ->
  toLowerCase (substring 0 (String.length p) s) = p
  /\ exists rest, s = (substring 0 (String.length p) s ++ rest)%string.
Proof.
  revert s. induction p as [|a p' IH]; intros s H.
  - simpl. destruct s; simpl; split; try reflexivity; eexists; reflexivity.
  - destruct s as [|b s']; simpl in H; [discriminate|].
    apply andb_true_iff in H. destruct H as [Hab H].
    apply Ascii.eqb_eq in Hab. destruct (IH s' H) as (E & rest & Hrest).
    simpl. rewrite E, <- Hab. split; [reflexivity|].
    exists rest. rewrite <- Hrest. reflexivity.
Qed.

Lemma matchUnit_some (s g : string) :
  matchUnit s = Some g ->
  (exists k, unitExponent (toLowerCase g) = Some k)
  /\ exists rest, s = (g ++ rest)%string.
Proof.
  unfold matchUnit.
  destruct (find _ unitAlternatives) as [alt|] eqn:F; [|discriminate].
  intro H. injection H as <-. apply find_some in F. destruct F as [Hin Hs].
  destruct (startsWith_prefix alt s Hs) as (E & rest & Hrest).
  split; [|exists rest; exact Hrest].
  rewrite E. simpl in Hin.
  repeat (destruct Hin as [<- | Hin]; [eexists; reflexivity|]).
  destruct Hin.
Qed.

Lemma matchHere_some (s g1 g2 : string) :
  matchHere s = Some (g1, g2) ->
  exists ws rest k,
    s = (g1 ++ ws ++ g2 ++ rest)%string
    /\ g1 <> "" /\ allOf isDigitOrDot g1 = true
    /\ allOf isWhiteSpace ws = true
    /\ unitExponent (toLowerCase g2) = Some k.
Proof.
  unfold matchHere. intro H.
  apply firstSome_some in H. destruct H as ([n r1] & Hn & H).
  apply firstSome_some in H. destruct H as ([ws r2] & Hws & H).
  simpl in H. destruct (matchUnit r2) as [u|] eqn:U; [|discriminate].
  injection H as <- <-.
  unfold plusSplits in Hn. apply filter_In in Hn. destruct Hn as [Hn Hne].
  simpl in Hne. apply truthy_true in Hne.
  apply starSplits_In in Hn. destruct Hn as [-> Hn].
  apply starSplits_In in Hws. simpl in Hws. destruct Hws as [-> Hws].
  apply matchUnit_some in U. destruct U as ((k & Hk) & rest & ->).
  exists ws, rest, k. auto.
Qed.

(** The pattern matches only where the text holds a size. *)
Lemma matchSize_sound (s g1 g2 : string) :
  matchSize s = Some (g1, g2) -> sizeOccurs s.
Proof.
  induction s as [|c s' IH]; rewrite matchSize_eq.
  - destruct (matchHere "") as [[a b]|] eqn:M; [|discriminate].
    intro H. injection H as -> ->.
    destruct (matchHere_some _ _ _ M) as (ws & rest & k & E & H).
    exists "", g1, ws, g2, rest, k. auto.
  - destruct (matchHere (String c s')) as [[a b]|] eqn:M.
    + intro H. injection H as -> ->.
      destruct (matchHere_some _ _ _ M) as (ws & rest & k & E & H).
      exists "", g1, ws, g2, rest, k. auto.
    + intro H. destruct (IH H) as (pre & n & ws & u & rest & k & E & H').
      exists (String c pre), n, ws, u, rest, k. rewrite E. auto.
Qed.

Lemma parseFileSizeToBytes_no_size (s : string) :
  ~ sizeOccurs (removeAll "," s) -> parseFileSizeToBytes s = Num 0.
Proof.
  intro H. unfold parseFileSizeToBytes.
  destruct (truthy s); [|reflexivity]. simpl.
  destruct (matchSize (removeAll "," s)) as [[g1 g2]|] eqn:M; [|reflexivity].
  exfalso. exact (H (matchSize_sound _ _ _ M)).
Qed.

(** [NaN] counts as no bytes downstream. *)
Lemma NaN_gives_no_tokens (s : string) :
  parseFileSizeToBytes s = NaN ->
  fst (estimateTokensFromFileSizeString s) = 0%Z.
Proof.
  intro H. unfold estimateTokensFromFileSizeString. rewrite H. reflexivity.
Qed.

(** *** The leftmost size *)

Lemma sizeStarts_matchHere (t : string) :
  sizeStarts t -> exists m, matchHere t = Some m.
Proof.
  intros (n & ws & u & rest & k & -> & Hne & Hn & Hws & Hu).
  exists (n, u). exact (matchHere_size n ws u rest k Hne Hn Hws Hu).
Qed.

Lemma matchHere_sizeStarts (t : string) :
  ~ sizeStarts t -> matchHere t = None.
Proof.
  intro H. destruct (matchHere t) as [[g1 g2]|] eqn:M; [|reflexivity].
  exfalso. apply H.
  destruct (matchHere_some _ _ _ M) as (ws & rest & k & E & H').
  exists g1, ws, g2, rest, k. auto.
Qed.

Lemma matchSize_noSizeBefore (pre t : string) :
  noSizeBefore pre t -> matchSize (pre ++ t) = matchSize t.
Proof.
  induction pre as [|c pre' IH]; intro H; [reflexivity|].
  destruct H as [Hc H].
  change ((String c pre' ++ t)%string) with (String c (pre' ++ t)).
  rewrite matchSize_eq, (matchHere_sizeStarts _ Hc). apply IH, H.
Qed.

Lemma noSizeBefore_no_number (pre t : string) :
  allOf (fun c => negb (isDigitOrDot c)) pre = true -> noSizeBefore pre t.
Proof.
  induction pre as [|c pre' IH]; intro H; [exact I|].
  simpl in H. apply andb_true_iff in H. destruct H as [Hc H].
  apply negb_true_iff in Hc. split; [|apply IH, H].
  intro S. destruct (sizeStarts_matchHere _ S) as (m & M).
  rewrite (matchHere_no_number c _ Hc) in M. discriminate M.
Qed.

(** What the pattern matches is the first size of the text. *)
Lemma matchSize_first (s g1 g2 : string) :
  matchSize s = Some (g1, g2) ->
  exists k, firstSize s g1 k /\ unitExponent (toLowerCase g2) = Some k.
Proof.
  assert (Here : forall t, matchHere t = Some (g1, g2) ->
            exists k, firstSize t g1 k
                      /\ unitExponent (toLowerCase g2) = Some k).
  { intros t M.
    destruct (matchHere_some _ _ _ M) as (ws & rest & k & E & Hne & Hn & Hws & Hu).
    exists k. split; [|exact Hu].
    exists "", ws, g2, rest. simpl. auto 10. }
  induction s as [|c s' IH]; rewrite matchSize_eq.
  - destruct (matchHere "") as [m|] eqn:M; [|discriminate].
    intro H. injection H as ->. exact (Here _ M).
  - destruct (matchHere (String c s')) as [m|] eqn:M.
    + intro H. injection H as ->. exact (Here _ M).
    + intro H. destruct (IH H) as (k & F & Hu). exists k. split; [|exact Hu].
      destruct F as (pre & ws & u & rest & E & Hne & Hn & Hws & Hk & Hb).
      exists (String c pre), ws, u, rest.
      split; [rewrite E; reflexivity|].
      repeat (split; [assumption|]). split; [|exact Hb].
      rewrite <- E. intro S.
      destruct (sizeStarts_matchHere _ S) as (m & M'). congruence.
Qed.

Lemma scaled_by_unit (value : Number) (u : string) (k : Z) :
  unitExponent (toLowerCase u) = Some k ->
  NumEq (let unit := toLowerCase u in
         let base : Q := 1024 in
         if String.eqb unit "tib" || String.eqb unit "tb"
         then times value (base ^ 4)
         else if String.eqb unit "gib" || String.eqb unit "gb"
         then times value (base ^ 3)
         else if String.eqb unit "mib" || String.eqb unit "mb"
         then times value (base ^ 2)
         else if String.eqb unit "kib" || String.eqb unit "kb"
         then times value base
         else value)
        (times value (1024 ^ k)).
Proof.
  intro Hu. cbv zeta. apply unit_cases in Hu.
  destruct Hu as [[H ->]|[[H ->]|[[H ->]|[[H ->]|[[H ->]|[[H ->]|[[H ->]|[[H ->]|[H ->]]]]]]]]];
    rewrite H; simpl; try apply NumEq_refl.
  apply NumEq_times_one.
Qed.

(** The result is that of the first size of the text. *)
Lemma parseFileSizeToBytes_first (s n : string) (k : Z) :
  firstSize (removeAll "," s) n k ->
  NumEq (parseFileSizeToBytes s) (times (parseFloat n) (1024 ^ k)).
Proof.
  intros (pre & ws & u & rest & Hs & Hne & Hn & Hws & Hu & Hb).
  unfold parseFileSizeToBytes.
  assert (T : truthy s = true).
  { apply truthy_true, (removeAll_nonempty ","). rewrite Hs.
    destruct pre; [destruct n; [contradiction|]|]; discriminate. }
  rewrite T, Hs, (matchSize_noSizeBefore _ _ Hb).
  rewrite (matchSize_here _ _ (matchHere_size n ws u rest k Hne Hn Hws Hu)).
  simpl negb. cbv iota beta.
  exact (scaled_by_unit (parseFloat n) u k Hu).
Qed.

(** Every text is of one of two kinds. *)
Lemma parseFileSizeToBytes_cases (s : string) :
  (~ sizeOccurs (removeAll "," s) /\ parseFileSizeToBytes s = Num 0)
  \/ (exists n k, firstSize (removeAll "," s) n k
                  /\ NumEq (parseFileSizeToBytes s)
                           (times (parseFloat n) (1024 ^ k))).
Proof.
  destruct (matchSize (removeAll "," s)) as [[g1 g2]|] eqn:M.
  - right. destruct (matchSize_first _ _ _ M) as (k & F & _).
    exists g1, k. split; [exact F|]. apply parseFileSizeToBytes_first, F.
  - left. assert (N : ~ sizeOccurs (removeAll "," s)).
    { intro O. exact (matchSize_complete _ O M). }
    split; [exact N|]. apply parseFileSizeToBytes_no_size, N.
Qed.

Lemma firstSize_unique (s n1 n2 : string) (k1 k2 : Z) :
  firstSize s n1 k1 -> firstSize s n2 k2 -> n1 = n2 /\ k1 = k2.
Proof.
  assert (M : forall n k, firstSize s n k ->
                exists u, matchSize s = Some (n, u)
                          /\ unitExponent (toLowerCase u) = Some k).
  { intros n k (pre & ws & u & rest & -> & Hne & Hn & Hws & Hu & Hb).
    exists u. split; [|exact Hu].
    rewrite (matchSize_noSizeBefore _ _ Hb).
    apply matchSize_here, (matchHere_size n ws u rest k Hne Hn Hws Hu). }
  intros F1 F2.
  destruct (M _ _ F1) as (u1 & E1 & U1).
  destruct (M _ _ F2) as (u2 & E2 & U2).
  rewrite E1 in E2. injection E2 as <- <-.
  rewrite U1 in U2. injection U2 as <-. auto.
Qed.

(** *** Where [parseFloat] gives [NaN] *)

Lemma takeDigits_stops (r : string) :
  stopsAt isDigit r <-> fst (takeDigits r) = "".
Proof.
  destruct r as [|c r]; [simpl; tauto|].
  cbn [stopsAt takeDigits]. destruct (isDigit c).
  - destruct (takeDigits r). simpl. split; discriminate.
  - simpl. tauto.
Qed.

Lemma parseFloat_NaN (n : string) :
  n <> "" -> allOf isDigitOrDot n = true ->
  (parseFloat n = NaN <-> holdsNoNumeral n).
Proof.
  intros Hne Hn. destruct n as [|c r]; [contradiction|].
  cbn [allOf] in Hn. apply andb_true_iff in Hn. destruct Hn as [Hc _].
  unfold parseFloat. cbn [takeDigits].
  destruct (isDigit c) eqn:D.
  - destruct (takeDigits r) as [d r']. cbn [truthy negb andb].
    split; [discriminate|].
    intros (r0 & E & _). injection E as -> _. discriminate D.
  - unfold isDigitOrDot in Hc. rewrite D in Hc. simpl in Hc.
    apply Ascii.eqb_eq in Hc. subst c. cbn [truthy negb andb].
    destruct (fst (takeDigits r)) as [|f fs] eqn:F.
    + simpl. split; [|reflexivity]. intros _. exists r.
      split; [reflexivity|]. apply takeDigits_stops, F.
    + simpl. split; [discriminate|].
      intros (r0 & E & S). injection E as <-.
      apply takeDigits_stops in S. congruence.
Qed.

(** C7, as stated, fails: there are texts in which no size can be parsed
    and for which the result is not 0 but [NaN].  In "file.bin" the
    pattern matches the dot followed by the letter b, and [parseFloat] of
    a lone dot is [NaN]. *)
Lemma C7_counterexample :
  matchSize "file.bin" = Some (".", "b")
  /\ parseFloat "." = NaN
  /\ parseFileSizeToBytes "file.bin" = NaN
  /\ parseFileSizeToBytes ".b" = NaN
  /\ parseFileSizeToBytes "file.bin" <> Num 0.
Proof. repeat split. discriminate. Qed.

(** C7: what [parseFileSizeToBytes] returns, for every text.  The
    commas stripped, the text either holds no size (a run of digits and
    dots, optional white space and a unit, letter case ignored), and the
    result is 0, as for "garbage"; or it has a first size, the one that
    starts furthest left, and the result is what [parseFloat] reads in
    the number of that size, times the power of 1024 of its unit,
    decimal and binary suffixes alike: "1.5 MB" gives 1.5 * 1024^2,
    "2 GiB" gives 2 * 1024^3, and sizes that follow other digits are
    read too ("1e3 kb" gives 3 * 1024, "3 files, 5 MB" gives 5 * 1024^2).
    The number is read as the decimal numeral the run starts with.
    Where the run starts with none, a dot that no digit follows, the
    result is [NaN] and not 0, and these are the only texts for which it
    is [NaN]: ".b" and "file.bin" are two of them, texts in which no
    size can be parsed. *)
Theorem C7_parseFileSize :
  NumEq (parseFileSizeToBytes "1.5 MB") (Num (1.5 * 1024 ^ 2))
  /\ NumEq (parseFileSizeToBytes "2 GiB") (Num (2 * 1024 ^ 3))
  /\ parseFileSizeToBytes "garbage" = Num 0
  /\ (forall s pre n ws u rest k,
        removeAll "," s = (pre ++ n ++ ws ++ u ++ rest)%string ->
        allOf (fun c => negb (isDigitOrDot c)) pre = true ->
        n <> "" -> allOf isDigitOrDot n = true ->
        allOf isWhiteSpace ws = true ->
        unitExponent (toLowerCase u) = Some k ->
        NumEq (parseFileSizeToBytes s) (times (parseFloat n) (1024 ^ k)))
  /\ (forall int frac,
        allOf isDigit int = true -> allOf isDigit frac = true ->
        int <> "" \/ frac <> "" ->
        parseFloat (int ++ "." ++ frac) = Num (decimalValue int frac))
  /\ (forall int,
        int <> "" -> allOf isDigit int = true ->
        parseFloat int = Num (decimalValue int ""))
  /\ (forall s, ~ sizeOccurs (removeAll "," s) ->
        parseFileSizeToBytes s = Num 0)
  /\ (forall s n k,
        firstSize (removeAll "," s) n k ->
        NumEq (parseFileSizeToBytes s) (times (parseFloat n) (1024 ^ k)))
  /\ (forall s,
        (~ sizeOccurs (removeAll "," s) /\ parseFileSizeToBytes s = Num 0)
        \/ (exists n k,
              firstSize (removeAll "," s) n k
              /\ NumEq (parseFileSizeToBytes s)
                       (times (parseFloat n) (1024 ^ k))))
  /\ (forall n,
        n <> "" -> allOf isDigitOrDot n = true ->
        (parseFloat n = NaN <-> holdsNoNumeral n))
  /\ (forall s,
        parseFileSizeToBytes s = NaN
        <-> exists n k, firstSize (removeAll "," s) n k /\ holdsNoNumeral n)
  /\ NumEq (parseFileSizeToBytes "1e3 kb") (Num (3 * 1024))
  /\ NumEq (parseFileSizeToBytes "3 files, 5 MB") (Num (5 * 1024 ^ 2))
  /\ parseFileSizeToBytes ".b" = NaN
  /\ parseFileSizeToBytes "file.bin" = NaN.
Proof.
  split; [vm_compute; reflexivity|].
  split; [vm_compute; reflexivity|].
  split; [reflexivity|].
  split; [exact parseFileSizeToBytes_recognized|].
  split; [exact parseFloat_decimal|].
  split; [exact parseFloat_integer|].
  split; [exact parseFileSizeToBytes_no_size|].
  split; [exact parseFileSizeToBytes_first|].
  split; [exact parseFileSizeToBytes_cases|].
  split; [exact parseFloat_NaN|].
  split.
  - intro s. split.
    + intro E. destruct (parseFileSizeToBytes_cases s)
        as [[_ Z0] | (n & k & F & V)]; [congruence|].
      exists n, k. split; [exact F|].
      pose proof F as (pre & ws & u & rest & _ & Hne & Hn & _).
      apply (parseFloat_NaN n Hne Hn).
      rewrite E in V. destruct (parseFloat n); [contradiction V|reflexivity].
    + intros (n & k & F & H).
      pose proof (parseFileSizeToBytes_first s n k F) as V.
      pose proof F as (pre & ws & u & rest & _ & Hne & Hn & _).
      apply (parseFloat_NaN n Hne Hn) in H. rewrite H in V.
      destruct (parseFileSizeToBytes s); [contradiction V|reflexivity].
  - split; [vm_compute; reflexivity|].
    split; [vm_compute; reflexivity|].
    split; reflexivity.
Qed.

Lemma C7_witness :
  removeAll "," "Size: 1,536.5 kB total"
    = ("Size: " ++ "1536.5" ++ " " ++ "kB" ++ " total")%string
  /\ unitExponent (toLowerCase "kB") = Some 1%Z
  /\ parseFloat "1536.5" = Num (decimalValue "1536" "5")
  /\ NumEq (parseFileSizeToBytes "Size: 1,536.5 kB total")
           (times (parseFloat "1536.5") (1024 ^ 1))
  /\ firstSize (removeAll "," "v2, 3 files, 1.5 MB") "1.5" 2
  /\ NumEq (parseFileSizeToBytes "v2, 3 files, 1.5 MB")
           (times (parseFloat "1.5") (1024 ^ 2))
  /\ firstSize (removeAll "," "archive.bin, 2 MB") "." 0
  /\ holdsNoNumeral "."
  /\ parseFileSizeToBytes "archive.bin, 2 MB" = NaN.
Proof.
  assert (No : forall t, matchHere t = None -> ~ sizeStarts t).
  { intros t M S. destruct (sizeStarts_matchHere t S) as (m & E).
    congruence. }
  assert (F1 : firstSize (removeAll "," "v2, 3 files, 1.5 MB") "1.5" 2).
  { exists "v2 3 files ", " ", "MB", "".
    split; [reflexivity|]. split; [discriminate|].
    repeat (split; [reflexivity|]).
    cbn [noSizeBefore append]. repeat split; apply No; reflexivity. }
  assert (F2 : firstSize (removeAll "," "archive.bin, 2 MB") "." 0).
  { exists "archive", "", "b", "in 2 MB".
    split; [reflexivity|]. split; [discriminate|].
    repeat (split; [reflexivity|]).
    cbn [noSizeBefore append]. repeat split; apply No; reflexivity. }
  assert (H2 : holdsNoNumeral ".").
  { exists "". split; [reflexivity|exact I]. }
  pose proof C7_parseFileSize
    as (_ & _ & _ & Rec & Dec & _ & _ & First & _ & _ & Nan & _).
  split; [reflexivity|]. split; [reflexivity|]. split; [|split; [|split]].
  - refine (Dec "1536" "5" eq_refl eq_refl _).
    left. discriminate.
  - refine (Rec "Size: 1,536.5 kB total" "Size: " "1536.5" " " "kB" " total"
              1%Z eq_refl eq_refl _ eq_refl eq_refl eq_refl).
    discriminate.
  - exact F1.
  - split; [exact (First "v2, 3 files, 1.5 MB" "1.5" 2%Z F1)|].
    split; [exact F2|]. split; [exact H2|].
    apply (Nan "archive.bin, 2 MB").
    exists ".", 0%Z. split; [exact F2|exact H2].
Defined.

End EstimatorProofs.

(* ================================================================== *)
(** * Properties of role classification                                *)
(* ================================================================== *)
Module RoleProofs.
Import Js Dom Roles RolesSpec.
Local Open Scope string_scope.

(** Induction on the document tree. *)
Lemma Element_tree_ind (P : Element -> Prop) :
  (forall i a r cs, Forall P cs -> P (mkElement i a r cs)) ->
  forall el, P el.
Proof.
  intro H. fix IH 1. intros [i a r cs]. apply H.
  induction cs as [|c rest IHcs]; constructor; [apply IH | exact IHcs].
Qed.

Lemma find_app {A : Type} (p : A -> bool) (l1 l2 : list A) :
  find p (l1 ++ l2) = match find p l1 with
                      | Some x => Some x
                      | None => find p l2
                      end.
Proof.
  induction l1 as [|x t IH]; simpl; [reflexivity|].
  destruct (p x); [reflexivity | exact IH].
Qed.

Lemma querySelectorAttribute_find_of name (cs : list Element) :
  Forall (fun c => firstWithAttribute name c
                   = find (fun d => hasAttribute d name) (subtree c)) cs ->
  querySelectorAttribute name cs
  = find (fun d => hasAttribute d name) (flat_map subtree cs).
Proof.
  induction 1 as [|c rest Hc Hrest IH]; simpl; [reflexivity|].
  rewrite find_app, <- Hc, IH. reflexivity.
Qed.

Lemma firstWithAttribute_inList name (cs : list Element) :
  (fix inList (l : list Element) : option Element :=
     match l with
     | [] => None
     | c :: rest =>
         match firstWithAttribute name c with
         | Some x => Some x
         | None => inList rest
         end
     end) cs = querySelectorAttribute name cs.
Proof. induction cs as [|c rest IH]; simpl; [|rewrite IH]; reflexivity. Qed.

(** [firstWithAttribute] finds the first element of the subtree, in
    document order, that carries the attribute. *)
Lemma firstWithAttribute_find name (el : Element) :
  firstWithAttribute name el = find (fun d => hasAttribute d name) (subtree el).
Proof.
  induction el as [i a r cs IH] using Element_tree_ind.
  change (subtree (mkElement i a r cs))
    with (mkElement i a r cs :: flat_map subtree cs).
  change (firstWithAttribute name (mkElement i a r cs))
    with (if hasAttribute (mkElement i a r cs) name
          then Some (mkElement i a r cs)
          else (fix inList (l : list Element) : option Element :=
                  match l with
                  | [] => None
                  | c :: rest =>
                      match firstWithAttribute name c with
                      | Some x => Some x
                      | None => inList rest
                      end
                  end) cs).
  simpl find. destruct (hasAttribute (mkElement i a r cs) name); [reflexivity|].
  rewrite firstWithAttribute_inList.
  apply querySelectorAttribute_find_of, IH.
Qed.

(** [el.querySelector('[name]')] is the first descendant, in document
    order, that carries the attribute. *)
Lemma querySelectorAttribute_descendants name (el : Element) :
  querySelectorAttribute name (children el)
  = find (fun d => hasAttribute d name) (descendants el).
Proof.
  unfold descendants. apply querySelectorAttribute_find_of.
  apply Forall_forall. intros c _. apply firstWithAttribute_find.
Qed.

Lemma positional_parity (index : nat) :
  (if (index mod 2 =? 0)%nat then Some "user" else Some "assistant")
  = positional index.
Proof.
  unfold positional.
  destruct (Nat.even index) eqn:E.
  - apply Nat.even_spec in E. destruct E as [k ->].
    rewrite Nat.mul_comm, Nat.Div0.mod_mul. reflexivity.
  - assert (O : Nat.odd index = true)
      by (rewrite <- Nat.negb_even, E; reflexivity).
    apply Nat.odd_spec in O. destruct O as [k ->].
    replace ((2 * k + 1) mod 2)%nat with 1%nat; [reflexivity|].
    rewrite Nat.add_comm, Nat.mul_comm, Nat.Div0.mod_add. reflexivity.
Qed.

(** C5: for every element and positional index, [determineMessageRole]
    is the first-match classification over the signals in this order:
    the element's own role attribute, the role attribute of a nested
    element, the test-id substrings, the aria-label substrings, and last
    the position, even for 'user' and odd for 'assistant'.  A signal is
    consulted only when every signal before it failed to match. *)
Theorem C5_role_priority (el : Element) (index : nat) :
  determineMessageRole el index = classify el index
  /\ (forall r, explicitRole el = Some r -> determineMessageRole el index = r)
  /\ (forall r, explicitRole el = None -> nestedRole el = Some r ->
        determineMessageRole el index = r)
  /\ (forall r, explicitRole el = None -> nestedRole el = None ->
        testIdMatch el = Some r -> determineMessageRole el index = r)
  /\ (forall r, explicitRole el = None -> nestedRole el = None ->
        testIdMatch el = None -> ariaLabelMatch el = Some r ->
        determineMessageRole el index = r)
  /\ (explicitRole el = None -> nestedRole el = None ->
      testIdMatch el = None -> ariaLabelMatch el = None ->
      determineMessageRole el index
      = if Nat.even index then Some "user" else Some "assistant").
Proof.
  assert (E : determineMessageRole el index = classify el index).
  { unfold determineMessageRole, classify, firstMatch.
    unfold explicitRole at 1, nestedRole at 1, testIdMatch at 1,
      ariaLabelMatch at 1.
    rewrite querySelectorAttribute_descendants.
    unfold orElse, isTruthy.
    destruct (getAttribute el "data-message-author-role") as [r|] eqn:A.
    - destruct (truthy r) eqn:T; [rewrite T; reflexivity|].
      rewrite T.
      destruct (find _ (descendants el)); [reflexivity|].
      destruct (includes _ "user"); [reflexivity|].
      destruct (includes _ "assistant" || includes _ "model"
                || includes _ "gpt"); [reflexivity|].
      destruct (includes _ "you"); [reflexivity|].
      destruct (includes _ "chatgpt" || includes _ "assistant");
        [reflexivity|].
      apply positional_parity.
    - destruct (find _ (descendants el)); [reflexivity|].
      destruct (includes _ "user"); [reflexivity|].
      destruct (includes _ "assistant" || includes _ "model"
                || includes _ "gpt"); [reflexivity|].
      destruct (includes _ "you"); [reflexivity|].
      destruct (includes _ "chatgpt" || includes _ "assistant");
        [reflexivity|].
      apply positional_parity. }
  split; [exact E|].
  rewrite E. unfold classify, firstMatch.
  repeat split.
  - intros r ->. reflexivity.
  - intros r -> ->. reflexivity.
  - intros r -> -> ->. reflexivity.
  - intros r -> -> -> ->. reflexivity.
  - intros -> -> -> ->. reflexivity.
Qed.

Lemma C5_witness :
  let nested := mkElement 2 [("data-message-author-role", "assistant")]
                          (mkRect 0 0) [] in
  let el := mkElement 1 [("data-testid", "conversation-turn-user-3")]
                      (mkRect 0 0) [mkElement 3 [] (mkRect 0 0) [nested]] in
  explicitRole el = None
  /\ nestedRole el = Some (Some "assistant")
  /\ testIdMatch el = Some (Some "user")
  /\ determineMessageRole el 0 = Some "assistant".
Proof.
  intros nested el.
  split; [reflexivity|]. split; [reflexivity|]. split; [reflexivity|].
  exact (proj1 (proj2 (proj2 (C5_role_priority el 0)))
           (Some "assistant") eq_refl eq_refl).
Defined.

End RoleProofs.

(* ================================================================== *)
(** * The selection map                                                *)
(* ================================================================== *)
Module CollectorFacts.
Import Js Dom Roles ContextCollector CollectorSpec JsFacts.

Lemma has_In (m : SelectionMap) (k : nat) : has m k = true <-> In k (keys m).
Proof.
  induction m as [|[k' v] rest IH]; simpl.
  - split; [discriminate | intros []].
  - rewrite orb_true_iff, Nat.eqb_eq, IH. tauto.
Qed.

Lemma has_false (m : SelectionMap) (k : nat) :
  has m k = false <-> ~ In k (keys m).
Proof.
  rewrite <- has_In. destruct (has m k); split; intro H; congruence.
Qed.

Lemma set_absent (m : SelectionMap) (k : nat) (v : Entry) :
  has m k = false -> set m k v = m ++ [(k, v)].
Proof.
  induction m as [|[k' v'] rest IH]; simpl; intro H; [reflexivity|].
  apply orb_false_iff in H. destruct H as [H1 H2].
  rewrite H1, (IH H2). reflexivity.
Qed.

Lemma keys_delete (m : SelectionMap) (k k' : nat) :
  In k' (keys (delete m k)) <-> In k' (keys m) /\ k' <> k.
Proof.
  unfold keys, delete. rewrite !in_map_iff. split.
  - intros ([a e] & Hk & Hin). apply filter_In in Hin. simpl in *.
    destruct Hin as [Hin Hne]. subst a.
    apply negb_true_iff, Nat.eqb_neq in Hne.
    split; [exists (k', e); auto | exact Hne].
  - intros [([a e] & Hk & Hin) Hne]. simpl in Hk. subst a.
    exists (k', e). split; [reflexivity|]. apply filter_In. split; [exact Hin|].
    simpl. apply negb_true_iff, Nat.eqb_neq. exact Hne.
Qed.

Lemma has_delete (m : SelectionMap) (k k' : nat) :
  has (delete m k) k' = has m k' && negb (Nat.eqb k' k).
Proof.
  apply eq_true_iff_eq.
  rewrite andb_true_iff, negb_true_iff, Nat.eqb_neq, !has_In.
  apply keys_delete.
Qed.

Section CollectorLemmas.
Variable extractTurnText : Element -> string.
Variable estimator : option (option TokenEstimator.Segmenter).

Local Abbreviation selectTurn := (selectTurn extractTurnText estimator).
Local Abbreviation toggleTurn := (toggleTurn extractTurnText estimator).
Local Abbreviation selectRange := (selectRange extractTurnText estimator).
Local Abbreviation entryOf := (entryOf extractTurnText estimator).

(** [selectTurn] appends the entry of a turn that is not selected yet
    and does nothing else. *)
Lemma selectTurn_spec (st : State) (i : nat) :
  selectTurn st i =
  match nth_error (allTurns st) i with
  | None => st
  | Some turn =>
      if has (selectedTurns st) (eid turn) then st
      else withSelection st
             (selectedTurns st ++ [(eid turn, entryOf turn i)])
  end.
Proof.
  unfold ContextCollector.selectTurn.
  destruct (nth_error (allTurns st) i) as [turn|]; [|reflexivity].
  destruct (has (selectedTurns st) (eid turn)) eqn:H; [reflexivity|].
  rewrite (set_absent _ _ _ H). reflexivity.
Qed.

Lemma selectTurn_frame (st : State) (i : nat) :
  allTurns (selectTurn st i) = allTurns st
  /\ lastClickedIndex (selectTurn st i) = lastClickedIndex st
  /\ currentDelimiter (selectTurn st i) = currentDelimiter st.
Proof.
  rewrite selectTurn_spec.
  destruct (nth_error (allTurns st) i) as [turn|]; [|auto].
  destruct (has (selectedTurns st) (eid turn)); auto.
Qed.

Lemma selectTurn_keys (st : State) (i k : nat) :
  In k (keys (selectedTurns (selectTurn st i))) <->
  In k (keys (selectedTurns st)) \/
  exists el, nth_error (allTurns st) i = Some el /\ eid el = k.
Proof.
  rewrite selectTurn_spec.
  destruct (nth_error (allTurns st) i) as [turn|] eqn:E.
  - destruct (has (selectedTurns st) (eid turn)) eqn:H.
    + split; [auto|]. intros [Hin | (el & Hel & <-)]; [exact Hin|].
      injection Hel as <-. apply has_In. exact H.
    + simpl. unfold keys. rewrite map_app, in_app_iff. simpl. split.
      * intros [Hin | [<- | []]]; [auto|]. right. exists turn. auto.
      * intros [Hin | (el & Hel & <-)]; [auto|].
        injection Hel as <-. auto.
  - split; [auto|]. intros [Hin | (el & Hel & _)]; [exact Hin | discriminate].
Qed.

Lemma selectTurn_extends (st : State) (i : nat) :
  exists added, selectedTurns (selectTurn st i) = selectedTurns st ++ added.
Proof.
  rewrite selectTurn_spec.
  destruct (nth_error (allTurns st) i) as [turn|];
    [|exists []; symmetry; apply app_nil_r].
  destruct (has (selectedTurns st) (eid turn)).
  - exists []. symmetry. apply app_nil_r.
  - eexists. reflexivity.
Qed.

Lemma selectTurn_wellFormed (st : State) (i : nat) :
  wellFormed st -> wellFormed (selectTurn st i).
Proof.
  intros [Hnd Hidx]. rewrite selectTurn_spec.
  destruct (nth_error (allTurns st) i) as [turn|] eqn:E; [|split; assumption].
  destruct (has (selectedTurns st) (eid turn)) eqn:H; [split; assumption|].
  split; simpl.
  - unfold keys. rewrite map_app. simpl.
    apply AnchorFacts.NoDup_snoc; [exact Hnd|]. apply has_false. exact H.
  - intros k e Hin. apply in_app_iff in Hin.
    destruct Hin as [Hin | [Heq | []]]; [exact (Hidx k e Hin)|].
    injection Heq as <- <-. simpl. exists turn. auto.
Qed.

Lemma selectRange_frame (st : State) (start count : nat) :
  allTurns (selectRange st start count) = allTurns st
  /\ lastClickedIndex (selectRange st start count) = lastClickedIndex st
  /\ currentDelimiter (selectRange st start count) = currentDelimiter st.
Proof.
  revert st start. induction count as [|c IH]; intros st start; simpl; [auto|].
  destruct (IH (selectTurn st start) (S start)) as (A & B & C).
  destruct (selectTurn_frame st start) as (A' & B' & C').
  rewrite A, B, C. auto.
Qed.

Lemma selectRange_keys (st : State) (start count k : nat) :
  In k (keys (selectedTurns (selectRange st start count))) <->
  In k (keys (selectedTurns st)) \/
  exists j el, (start <= j < start + count)%nat
               /\ nth_error (allTurns st) j = Some el /\ eid el = k.
Proof.
  revert st start. induction count as [|c IH]; intros st start; simpl.
  - split; [auto|]. intros [H | (j & el & Hj & _)]; [exact H | lia].
  - rewrite IH, selectTurn_keys.
    destruct (selectTurn_frame st start) as (-> & _). split.
    + intros [[H | (el & Hel & Hk)] | (j & el & Hj & Hel & Hk)].
      * auto.
      * right. exists start, el. split; [lia | auto].
      * right. exists j, el. split; [lia | auto].
    + intros [H | (j & el & Hj & Hel & Hk)]; [auto|].
      destruct (Nat.eq_dec j start) as [->|Hne].
      * left. right. exists el. auto.
      * right. exists j, el. split; [lia | auto].
Qed.

Lemma selectRange_extends (st : State) (start count : nat) :
  exists added,
    selectedTurns (selectRange st start count) = selectedTurns st ++ added.
Proof.
  revert st start. induction count as [|c IH]; intros st start; simpl.
  - exists []. symmetry. apply app_nil_r.
  - destruct (IH (selectTurn st start) (S start)) as (a1 & ->).
    destruct (selectTurn_extends st start) as (a0 & ->).
    exists (a0 ++ a1). symmetry. apply app_assoc.
Qed.

Lemma selectRange_wellFormed (st : State) (start count : nat) :
  wellFormed st -> wellFormed (selectRange st start count).
Proof.
  revert st start. induction count as [|c IH]; intros st start H; simpl.
  - exact H.
  - apply IH, selectTurn_wellFormed, H.
Qed.

Lemma toggleTurn_wellFormed (st : State) (i : nat) :
  wellFormed st -> wellFormed (toggleTurn st i).
Proof.
  intro H. unfold ContextCollector.toggleTurn.
  destruct (nth_error (allTurns st) i) as [turn|] eqn:E; [|exact H].
  destruct (has (selectedTurns st) (eid turn)) eqn:Hh;
    [|apply selectTurn_wellFormed, H].
  destruct H as [Hnd Hidx]. split; simpl.
  - unfold keys, delete. apply NoDup_map_inv with (f := fun x => x).
    rewrite map_id. clear -Hnd.
    induction (selectedTurns st) as [|[k v] rest IH]; simpl; [constructor|].
    inversion Hnd as [|? ? Hnotin Hrest]; subst.
    destruct (negb (Nat.eqb k (eid turn))); simpl; [|apply IH, Hrest].
    constructor; [|apply IH, Hrest].
    intro Hin. apply Hnotin. apply in_map_iff in Hin.
    destruct Hin as (x & Hx & Hin). apply filter_In in Hin.
    apply in_map_iff. exists x. tauto.
  - intros k e Hin. apply filter_In in Hin. apply Hidx, Hin.
Qed.

Lemma handleTurnClick_wellFormed (st : State) (i : nat) (shift : bool) :
  wellFormed st ->
  wellFormed (handleTurnClick extractTurnText estimator st i shift).
Proof.
  intro H. unfold handleTurnClick.
  destruct (shift && (lastClickedIndex st >=? 0)%Z).
  - pose proof (selectRange_wellFormed st
      (Z.to_nat (Z.min (lastClickedIndex st) (Z.of_nat i)))
      (Z.to_nat (Z.max (lastClickedIndex st) (Z.of_nat i)
                 - Z.min (lastClickedIndex st) (Z.of_nat i) + 1)) H) as W.
    exact W.
  - exact (toggleTurn_wellFormed st i H).
Qed.
End CollectorLemmas.

Lemma entered_wellFormed (turns : list Element) : wellFormed (entered turns).
Proof. split; simpl; [constructor | intros k e []]. Qed.

End CollectorFacts.

(* ================================================================== *)
(** * Properties of selection                                          *)
(* ================================================================== *)
Module SelectionProofs.
Import Js Dom Roles ContextCollector CollectorSpec JsFacts CollectorFacts.
Local Open Scope nat_scope.

(** C9, as stated, fails: a shift-click does not toggle the turns of the
    range.  After a plain click on turn 1 and a shift-click on turn 3, turn
    1, which lies in the range and was selected, is still selected. *)
Lemma C9_counterexample :
  let st1 := handleTurnClick textOf None (entered fourTurns) 1 false in
  let st2 := handleTurnClick textOf None st1 3 true in
  lastClickedIndex st1 = 1%Z
  /\ has (selectedTurns st1) 11 = true
  /\ has (selectedTurns st2) 11 = true
  /\ keys (selectedTurns st2) = [11; 12; 13].
Proof. repeat split. Qed.

(** C9 (amended): a plain click on a turn toggles that turn's membership
    in the selection and leaves every other turn as it was; a shift-click,
    when a last interacted index exists, selects every turn between the
    last interacted index and the clicked index, both included: turns of
    the range that were selected stay selected, and no turn is
    deselected.  Either click makes the clicked index the last interacted
    one. *)
Theorem C9_click_selection extractTurnText estimator st (i : nat)
    (isShiftClick : bool) :
  let st' := handleTurnClick extractTurnText estimator st i isShiftClick in
  lastClickedIndex st' = Z.of_nat i
  /\ allTurns st' = allTurns st
  /\ ((isShiftClick = false \/ (lastClickedIndex st < 0)%Z) ->
      forall turn, nth_error (allTurns st) i = Some turn ->
        has (selectedTurns st') (eid turn)
          = negb (has (selectedTurns st) (eid turn))
        /\ forall k, k <> eid turn ->
             has (selectedTurns st') k = has (selectedTurns st) k)
  /\ (isShiftClick = true -> (0 <= lastClickedIndex st)%Z ->
      forall k,
        has (selectedTurns st') k = true <->
        has (selectedTurns st) k = true \/
        turnBetween (allTurns st)
          (Nat.min (Z.to_nat (lastClickedIndex st)) i)
          (Nat.max (Z.to_nat (lastClickedIndex st)) i) k).
Proof.
  intro st'. subst st'. unfold handleTurnClick.
  split; [reflexivity|]. split.
  { simpl. destruct (isShiftClick && _).
    - apply selectRange_frame.
    - unfold toggleTurn.
      destruct (nth_error (allTurns st) i) as [turn|]; [|reflexivity].
      destruct (has (selectedTurns st) (eid turn)); [reflexivity|].
      apply selectTurn_frame. }
  split.
  - intros Hplain turn Hturn.
    assert (isShiftClick && (lastClickedIndex st >=? 0)%Z = false) as ->.
    { destruct Hplain as [-> | Hneg]; [reflexivity|].
      destruct (Z.geb_spec (lastClickedIndex st) 0); [lia|].
      apply andb_false_r. }
    simpl. unfold toggleTurn. rewrite Hturn.
    destruct (has (selectedTurns st) (eid turn)) eqn:Hh; simpl.
    + split.
      * rewrite has_delete, Nat.eqb_refl. apply andb_false_r.
      * intros k Hk. rewrite has_delete.
        apply Nat.eqb_neq in Hk. rewrite Hk. apply andb_true_r.
    + split.
      * apply has_In, selectTurn_keys. right. exists turn. auto.
      * intros k Hk. apply eq_true_iff_eq. rewrite !has_In, selectTurn_keys.
        split; [|auto]. intros [H | (el & Hel & He)]; [exact H|].
        rewrite Hturn in Hel. injection Hel as <-. congruence.
  - intros -> Hlast k.
    destruct (Z.geb_spec (lastClickedIndex st) 0) as [_|]; [|lia].
    simpl. rewrite !has_In, selectRange_keys. unfold turnBetween.
    set (l := lastClickedIndex st) in *.
    replace (Z.to_nat (Z.min l (Z.of_nat i))) with (Nat.min (Z.to_nat l) i)
      by lia.
    replace (Z.to_nat (Z.max l (Z.of_nat i) - Z.min l (Z.of_nat i) + 1))
      with (Nat.max (Z.to_nat l) i - Nat.min (Z.to_nat l) i + 1)%nat by lia.
    split; (intros [H | (j & el & Hj & H)]; [left; exact H|]);
      right; exists j, el; (split; [lia | exact H]).
Qed.

Lemma C9_witness :
  let st := handleTurnClick textOf None (entered fourTurns) 1 false in
  let st' := handleTurnClick textOf None st 3 true in
  (0 <= lastClickedIndex st)%Z
  /\ forall k,
       has (selectedTurns st') k = true <->
       has (selectedTurns st) k = true \/
       turnBetween (allTurns st)
         (Nat.min (Z.to_nat (lastClickedIndex st)) 3)
         (Nat.max (Z.to_nat (lastClickedIndex st)) 3) k.
Proof.
  intros st st'.
  assert (H : (0 <= lastClickedIndex st)%Z) by (vm_compute; discriminate).
  split; [exact H|].
  exact (proj2 (proj2 (proj2
    (C9_click_selection textOf None st 3 true))) eq_refl H).
Defined.

(** ** Bulk operations *)

Lemma In_skipn_eid (turns : list Element) (s k : nat) :
  In k (map eid (skipn s turns)) <->
  exists j el, (s <= j)%nat /\ nth_error turns j = Some el /\ eid el = k.
Proof.
  rewrite in_map_iff. split.
  - intros (el & He & Hin). apply In_nth_error in Hin. destruct Hin as (j & Hj).
    rewrite nth_error_skipn in Hj. exists (s + j)%nat, el.
    split; [lia | auto].
  - intros (j & el & Hj & Hn & He). exists el. split; [exact He|].
    apply (nth_error_In _ (j - s)). rewrite nth_error_skipn.
    replace (s + (j - s))%nat with j by lia. exact Hn.
Qed.

Lemma roleIs_iff (r : option string) (role : string) :
  roleIs r role = true <-> r = Some role.
Proof.
  unfold roleIs. destruct r as [s|]; [|split; discriminate].
  rewrite String.eqb_eq. split; congruence.
Qed.

Section Bulk.
Variable extractTurnText : Element -> string.
Variable estimator : option (option TokenEstimator.Segmenter).

Lemma selectRoleFrom_frame st role turns i :
  allTurns (selectRoleFrom extractTurnText estimator st role turns i)
  = allTurns st.
Proof.
  revert st i. induction turns as [|t rest IH]; intros st i; simpl;
    [reflexivity|].
  rewrite IH. destruct (roleIs _ _); [|reflexivity].
  apply selectTurn_frame.
Qed.

Lemma selectRoleFrom_keys st role turns i k :
  (forall j, nth_error turns j = nth_error (allTurns st) (i + j)) ->
  In k (keys (selectedTurns
                (selectRoleFrom extractTurnText estimator st role turns i)))
  <->
  In k (keys (selectedTurns st)) \/
  exists j el, nth_error turns j = Some el
               /\ determineMessageRole el (i + j) = Some role
               /\ eid el = k.
Proof.
  revert st i. induction turns as [|t rest IH]; intros st i Hsuffix; simpl.
  - split; [auto|]. intros [H | (j & el & Hn & _)]; [exact H|].
    destruct j; discriminate.
  - assert (Ht : nth_error (allTurns st) i = Some t).
    { rewrite <- (Nat.add_0_r i) at 1. rewrite <- Hsuffix. reflexivity. }
    rewrite IH.
    + destruct (roleIs (determineMessageRole t i) role) eqn:R.
      * apply roleIs_iff in R. rewrite selectTurn_keys. split.
        -- intros [[H | (el & Hel & He)] | (j & el & Hn & Hr & He)].
           ++ auto.
           ++ right. exists 0%nat, t. rewrite Nat.add_0_r.
              rewrite Ht in Hel. injection Hel as <-. auto.
           ++ right. exists (S j), el. rewrite Nat.add_succ_r. auto.
        -- intros [H | (j & el & Hn & Hr & He)]; [auto|].
           destruct j as [|j]; simpl in Hn.
           ++ injection Hn as <-. left. right. exists t. auto.
           ++ right. exists j, el. rewrite Nat.add_succ_r in Hr. auto.
      * split.
        -- intros [H | (j & el & Hn & Hr & He)]; [auto|].
           right. exists (S j), el. rewrite Nat.add_succ_r. auto.
        -- intros [H | (j & el & Hn & Hr & He)]; [auto|].
           destruct j as [|j]; simpl in Hn.
           ++ injection Hn as <-. rewrite Nat.add_0_r in Hr.
              apply roleIs_iff in Hr. congruence.
           ++ right. exists j, el. rewrite Nat.add_succ_r in Hr. auto.
    + intro j. replace (allTurns (if roleIs (determineMessageRole t i) role
                   then selectTurn extractTurnText estimator st i else st))
        with (allTurns st)
        by (destruct (roleIs _ _); [symmetry; apply selectTurn_frame
                                   | reflexivity]).
      rewrite Nat.add_succ_l, <- Nat.add_succ_r.
      rewrite <- Hsuffix. reflexivity.
Qed.

(** C10: [selectLast(n)] and [selectByRole(role)] replace the selection:
    whatever was selected before, the selection afterwards holds exactly
    the last [min(n, total)] scanned turns, respectively exactly the
    scanned turns classified with that role; [selectAll] keeps the
    existing selection, entries and order, and adds every scanned
    turn. *)
Theorem C10_bulk_selection (st : State) :
  (forall (n : nat) k,
     let total := List.length (allTurns st) in
     has (selectedTurns (selectLast extractTurnText estimator st (Z.of_nat n))) k
       = true
     <-> In k (map eid (skipn (total - Nat.min n total) (allTurns st))))
  /\
  (forall role k,
     has (selectedTurns (selectByRole extractTurnText estimator st role)) k
       = true
     <-> exists j el, nth_error (allTurns st) j = Some el
                      /\ determineMessageRole el j = Some role
                      /\ eid el = k)
  /\
  ((forall k,
      has (selectedTurns (selectAll extractTurnText estimator st)) k = true
      <-> has (selectedTurns st) k = true \/ In k (map eid (allTurns st)))
   /\ exists added,
        selectedTurns (selectAll extractTurnText estimator st)
        = selectedTurns st ++ added).
Proof.
  split; [|split; [|split]].
  - intros n k total. unfold selectLast. rewrite has_In, selectRange_keys.
    simpl. fold total. rewrite In_skipn_eid.
    replace (Z.to_nat (Z.max 0 (Z.of_nat total - Z.of_nat n)))
      with (total - Nat.min n total)%nat by lia.
    replace (Z.to_nat (Z.of_nat total
                       - Z.max 0 (Z.of_nat total - Z.of_nat n)))
      with (Nat.min n total) by lia.
    split.
    + intros [[] | (j & el & Hj & H)]. exists j, el. split; [lia | exact H].
    + intros (j & el & Hj & Hn & He). right. exists j, el.
      split; [|auto].
      assert (j < total)%nat by (apply nth_error_Some; congruence). lia.
  - intros role k. unfold selectByRole. rewrite has_In.
    rewrite selectRoleFrom_keys by (intro j; reflexivity). simpl.
    split; [intros [[] | H]; exact H | auto].
  - intro k. unfold selectAll. rewrite !has_In, selectRange_keys.
    rewrite in_map_iff. split.
    + intros [H | (j & el & Hj & Hn & He)]; [auto|]. right. exists el.
      split; [exact He | apply (nth_error_In _ _ Hn)].
    + intros [H | (el & He & Hin)]; [auto|].
      apply In_nth_error in Hin. destruct Hin as (j & Hn). right.
      exists j, el. split; [|auto].
      assert (j < List.length (allTurns st))%nat
        by (apply nth_error_Some; congruence). lia.
  - apply selectRange_extends.
Qed.
End Bulk.

End SelectionProofs.

(* ================================================================== *)
(** * Properties of export                                             *)
(* ================================================================== *)
Module ExportProofs.
Import Js Dom Roles ContextCollector CollectorSpec JsFacts CollectorFacts.
Local Open Scope nat_scope.

(** The position an entry was captured at. *)
Local Abbreviation position := (fun e : nat * Entry => index (snd e)).

Lemma StronglySorted_impl {A : Type} (R S : A -> A -> Prop) (l : list A) :
  (forall a b, R a b -> S a b) -> StronglySorted R l -> StronglySorted S l.
Proof.
  intros HRS. induction 1 as [|x t Ht IH Hx]; constructor; [exact IH|].
  eapply Forall_impl; [|exact Hx]. intros a. apply HRS.
Qed.

Lemma sortedEntries_sorted (m : SelectionMap) :
  StronglySorted (fun a b => position a <= position b) (sortedEntries m).
Proof.
  unfold sortedEntries.
  eapply StronglySorted_impl;
    [|apply (sort_sorted (fun a => inject_Z (Z.of_nat (position a))))].
  intros a b H. simpl in H. rewrite <- Zle_Qle in H. lia.
Qed.

Lemma sortedEntries_perm (m : SelectionMap) : Permutation m (sortedEntries m).
Proof. apply sort_perm. Qed.

(** Two lists sorted by a key that has no duplicates are equal as soon as
    they hold the same elements. *)
Lemma sorted_perm_eq {A : Type} (idx : A -> nat) (l1 l2 : list A) :
  StronglySorted (fun a b => idx a <= idx b) l1 ->
  StronglySorted (fun a b => idx a <= idx b) l2 ->
  NoDup (map idx l1) -> Permutation l1 l2 -> l1 = l2.
Proof.
  revert l2. induction l1 as [|x t1 IH]; intros l2 S1 S2 Hnd Hp.
  - apply Permutation_nil in Hp. congruence.
  - destruct l2 as [|y t2].
    { apply Permutation_sym, Permutation_nil in Hp. discriminate. }
    inversion S1 as [|? ? S1' F1]; subst.
    inversion S2 as [|? ? S2' F2]; subst.
    inversion Hnd as [|? ? Hnotin Hnd']; subst.
    assert (x = y) as <-.
    { assert (Hx : In x (y :: t2))
        by (apply (Permutation_in x Hp); left; reflexivity).
      assert (Hy : In y (x :: t1))
        by (apply (Permutation_in y (Permutation_sym Hp)); left; reflexivity).
      destruct Hx as [<- | Hx]; [reflexivity|].
      destruct Hy as [<- | Hy]; [reflexivity|].
      rewrite Forall_forall in F1, F2.
      pose proof (F1 y Hy). pose proof (F2 x Hx).
      exfalso. apply Hnotin. replace (idx x) with (idx y) by lia.
      apply in_map. exact Hy. }
    f_equal. apply IH; try assumption.
    apply (Permutation_cons_inv Hp).
Qed.

Lemma wellFormed_positions (st : State) :
  wellFormed st -> NoDup (map position (selectedTurns st)).
Proof.
  intros [Hnd Hidx]. unfold keys in Hnd.
  induction (selectedTurns st) as [|[k e] rest IH]; simpl; [constructor|].
  inversion Hnd as [|? ? Hnotin Hnd']; subst.
  constructor.
  - intro Hin. apply in_map_iff in Hin.
    destruct Hin as ([k' e'] & Hpos & Hin). simpl in Hpos.
    destruct (Hidx k e (or_introl eq_refl)) as (el & Hel & <-).
    destruct (Hidx k' e' (or_intror Hin)) as (el' & Hel' & <-).
    rewrite Hpos, Hel in Hel'. injection Hel' as <-.
    apply Hnotin. apply in_map_iff. exists (eid el, e'). auto.
  - apply IH; [exact Hnd'|].
    intros k' e' Hin. apply Hidx. right. exact Hin.
Qed.

Lemma sortedEntries_perm_eq (m1 m2 : SelectionMap) :
  NoDup (map position m1) -> Permutation m1 m2 ->
  sortedEntries m1 = sortedEntries m2.
Proof.
  intros Hnd Hp. apply (sorted_perm_eq position).
  - apply sortedEntries_sorted.
  - apply sortedEntries_sorted.
  - eapply Permutation_NoDup; [|exact Hnd].
    apply Permutation_map, sortedEntries_perm.
  - eapply perm_trans; [apply Permutation_sym, sortedEntries_perm|].
    eapply perm_trans; [exact Hp | apply sortedEntries_perm].
Qed.

(** The output is a function of the sorted entries and the delimiter. *)
Lemma formatOutputAs_ext (st1 st2 : State) (format : string) :
  sortedEntries (selectedTurns st1) = sortedEntries (selectedTurns st2) ->
  currentDelimiter st1 = currentDelimiter st2 ->
  formatOutputAs st1 format = formatOutputAs st2 format.
Proof.
  intros Hs Hd. unfold formatOutputAs, getDelimiterValue.
  rewrite Hs, Hd. reflexivity.
Qed.

(** The output is the listing of the sorted entries. *)
Lemma formatOutputAs_listing (st : State) (format : string) :
  formatOutputAs st format
  = listing format (getDelimiterValue st)
      (map snd (sortedEntries (selectedTurns st))).
Proof.
  unfold formatOutputAs, listing. rewrite !map_map. reflexivity.
Qed.

(** C6: for every selection made within one scan and each of the formats,
    the output lists the selected entries in the order of their turn
    index: it is the serialization, in the format asked for, of the one
    arrangement of the selection that ascends in the index.  So two
    selections that hold the same entries, whatever the order they were
    clicked in, serialize to the same string, which is that listing. *)
Theorem C6_export_order_independent (st1 st2 : State) (format : string) :
  wellFormed st1 ->
  Permutation (selectedTurns st1) (selectedTurns st2) ->
  currentDelimiter st1 = currentDelimiter st2 ->
  let sorted := sortedEntries (selectedTurns st1) in
  StronglySorted (fun a b => index (snd a) <= index (snd b)) sorted
  /\ Permutation (selectedTurns st1) sorted
  /\ formatOutputAs st1 format
     = formatOutputAs (withSelection st1 sorted) format
  /\ formatOutputAs st1 format = formatOutputAs st2 format
  /\ (forall ordered,
        Permutation (selectedTurns st1) ordered -> ascending ordered ->
        ordered = sorted
        /\ formatOutputAs st1 format
           = listing format (getDelimiterValue st1) (map snd ordered)
        /\ formatOutputAs st2 format
           = listing format (getDelimiterValue st1) (map snd ordered)).
Proof.
  intros Hwf Hp Hd sorted.
  pose proof (wellFormed_positions st1 Hwf) as Hnd.
  assert (Same : formatOutputAs st1 format = formatOutputAs st2 format).
  { apply formatOutputAs_ext; [|exact Hd].
    apply sortedEntries_perm_eq; assumption. }
  split; [apply sortedEntries_sorted|].
  split; [apply sortedEntries_perm|].
  split; [|split; [exact Same|]].
  - apply formatOutputAs_ext; [|reflexivity]. simpl.
    apply sortedEntries_perm_eq; [exact Hnd | apply sortedEntries_perm].
  - intros ordered Po Ao.
    assert (E : ordered = sorted).
    { symmetry. apply (sorted_perm_eq position).
      - apply sortedEntries_sorted.
      - exact Ao.
      - eapply Permutation_NoDup; [|exact Hnd].
        apply Permutation_map, sortedEntries_perm.
      - eapply perm_trans; [apply Permutation_sym, sortedEntries_perm|].
        exact Po. }
    split; [exact E|]. rewrite <- Same, E.
    split; apply formatOutputAs_listing.
Qed.

Lemma clicks_wellFormed (l : list nat) (st : State) :
  wellFormed st -> wellFormed (clicks st l).
Proof.
  revert st. induction l as [|i rest IH]; intros st H; simpl; [exact H|].
  apply IH, handleTurnClick_wellFormed, H.
Qed.

Lemma C6_witness :
  let st1 := clicks (entered fourTurns) [3; 1; 2] in
  let st2 := clicks (entered fourTurns) [1; 2; 3] in
  keys (selectedTurns st1) = [13; 11; 12]
  /\ keys (selectedTurns st2) = [11; 12; 13]
  /\ wellFormed st1
  /\ Permutation (selectedTurns st1) (selectedTurns st2)
  /\ formatOutputAs st1 "plain" = formatOutputAs st2 "plain"
  /\ formatOutputAs st1 "json" = formatOutputAs st2 "json"
  /\ formatOutputAs st1 "xml" = formatOutputAs st2 "xml"
  /\ formatOutputAs st1 "plain"
     = listing "plain" (LF ++ LF)%string (map snd (selectedTurns st2))
  /\ formatOutputAs st1 "plain"
     = ("Assistant:" ++ LF ++ "Hello" ++ LF ++ LF
        ++ "User:" ++ LF ++ "Bye" ++ LF ++ LF
        ++ "Assistant:" ++ LF ++ "See you")%string
  /\ formatOutputAs st1 "xml"
     = ("<assistant>" ++ LF ++ "Hello" ++ LF ++ "</assistant>" ++ LF
        ++ "<user>" ++ LF ++ "Bye" ++ LF ++ "</user>" ++ LF
        ++ "<assistant>" ++ LF ++ "See you" ++ LF ++ "</assistant>")%string.
Proof.
  intros st1 st2.
  assert (Hwf : wellFormed st1)
    by (apply clicks_wellFormed, entered_wellFormed).
  assert (Hp : Permutation (selectedTurns st1) (selectedTurns st2)).
  { vm_compute.
    match goal with
    | |- Permutation (?a :: ?l) _ =>
        apply (Permutation_cons_app l [] a); rewrite app_nil_r;
        apply Permutation_refl
    end. }
  assert (Ha : ascending (selectedTurns st2)).
  { vm_compute. repeat constructor. }
  pose proof (C6_export_order_independent st1 st2 "plain" Hwf Hp eq_refl)
    as (_ & _ & _ & Plain & Listed).
  destruct (Listed (selectedTurns st2) Hp Ha) as (_ & Out & _).
  split; [reflexivity|]. split; [reflexivity|].
  split; [exact Hwf|]. split; [exact Hp|].
  split; [exact Plain|].
  split; [|split; [|split; [exact Out|]]].
  - exact (proj1 (proj2 (proj2 (proj2
      (C6_export_order_independent st1 st2 "json" Hwf Hp eq_refl))))).
  - exact (proj1 (proj2 (proj2 (proj2
      (C6_export_order_independent st1 st2 "xml" Hwf Hp eq_refl))))).
  - split; [rewrite Out|]; vm_compute; reflexivity.
Defined.

End ExportProofs.

(* ================================================================== *)
(** * More properties of the estimator                                 *)
(* ================================================================== *)
Module EstimatorMore.
Import Js TokenEstimator EstimatorSpec EstimatorWords EstimatorProofs.
Local Open Scope Q_scope.

(** ** estimateTokensFromBytes *)

Lemma ceil_quarter_bounds (b : Q) :
  b <= inject_Z (ceil (b / BYTES_PER_TOKEN)) * 4
  /\ inject_Z (ceil (b / BYTES_PER_TOKEN)) * 4 < b + 4.
Proof.
  unfold ceil, BYTES_PER_TOKEN.
  pose proof (Qle_ceiling (b / 4)) as Hle.
  pose proof (Qceiling_lt (b / 4)) as Hlt.
  unfold Z.sub in Hlt. rewrite inject_Z_plus in Hlt.
  change (inject_Z (- (1))) with (- (1)) in Hlt.
  assert (E : b / 4 * 4 == b) by (field).
  split; [rewrite <- E at 1 | rewrite <- E at 2]; lra.
Qed.

Lemma ceil_quarter_positive (b : Q) :
  0 < b -> (1 <= ceil (b / BYTES_PER_TOKEN))%Z.
Proof.
  intro H. destruct (ceil_quarter_bounds b) as [Hle _].
  assert (L : 0 < inject_Z (ceil (b / BYTES_PER_TOKEN))) by lra.
  change 0 with (inject_Z 0) in L. rewrite <- Zlt_Qlt in L. lia.
Qed.

(** X1: [estimateTokensFromBytes] gives no token for a size of 0 and for
    [NaN], one token for a negative size, and for a positive size [b] the
    least number of tokens [t] with [4 * t >= b], which is at least 1. *)
Theorem estimateTokensFromBytes_bounds (b : Q) :
  estimateTokensFromBytes NaN = 0%Z
  /\ (b == 0 -> estimateTokensFromBytes (Num b) = 0%Z)
  /\ (b < 0 -> estimateTokensFromBytes (Num b) = 1%Z)
  /\ (0 < b ->
      let t := estimateTokensFromBytes (Num b) in
      (1 <= t)%Z /\ b <= inject_Z t * 4 /\ inject_Z t * 4 < b + 4).
Proof.
  split; [reflexivity|]. unfold estimateTokensFromBytes.
  split; [|split].
  - intro H. apply Qeq_bool_iff in H. rewrite H. reflexivity.
  - intro H. destruct (Qeq_bool b 0) eqn:E.
    + apply Qeq_bool_iff in E. lra.
    + destruct (ceil_quarter_bounds b) as [_ Hlt].
      assert (L : inject_Z (ceil (b / BYTES_PER_TOKEN)) < inject_Z 1)
        by (change (inject_Z 1) with 1; lra).
      rewrite <- Zlt_Qlt in L. lia.
  - intro H. destruct (Qeq_bool b 0) eqn:E.
    + apply Qeq_bool_iff in E. lra.
    + pose proof (ceil_quarter_positive b H) as P.
      cbv zeta. rewrite Z.max_r by exact P.
      split; [exact P | apply ceil_quarter_bounds].
Qed.

Lemma estimateTokensFromBytes_bounds_witness :
  0 < 10
  /\ estimateTokensFromBytes (Num 10) = 3%Z
  /\ 10 <= inject_Z (estimateTokensFromBytes (Num 10)) * 4.
Proof.
  split; [reflexivity|]. split; [reflexivity|].
  exact (proj1 (proj2 (proj2 (proj2 (proj2
    (estimateTokensFromBytes_bounds 10))) eq_refl))).
Defined.

(** X2: on sizes that are not negative, a larger size never gets fewer
    tokens. *)
Theorem estimateTokensFromBytes_monotone (a b : Q) :
  0 <= a -> a <= b ->
  (estimateTokensFromBytes (Num a) <= estimateTokensFromBytes (Num b))%Z.
Proof.
  intros Ha Hab. unfold estimateTokensFromBytes.
  destruct (Qeq_bool a 0) eqn:Ea.
  - destruct (Qeq_bool b 0); [lia|]. lia.
  - assert (Pa : 0 < a).
    { destruct (Qlt_le_dec 0 a) as [L|L]; [exact L|].
      assert (a == 0) as Z0 by lra. apply Qeq_bool_iff in Z0. congruence. }
    destruct (Qeq_bool b 0) eqn:Eb.
    + apply Qeq_bool_iff in Eb. lra.
    + apply Z.max_le_compat_l. unfold ceil. apply Qceiling_resp_le.
      unfold BYTES_PER_TOKEN.
      apply Qmult_le_compat_r; [exact Hab|]. vm_compute. discriminate.
Qed.

Lemma estimateTokensFromBytes_monotone_witness :
  0 <= 5 /\ 5 <= 1024
  /\ (estimateTokensFromBytes (Num 5) <= estimateTokensFromBytes (Num 1024))%Z.
Proof.
  assert (A : 0 <= 5) by (vm_compute; discriminate).
  assert (B : 5 <= 1024) by (vm_compute; discriminate).
  split; [exact A|]. split; [exact B|].
  exact (estimateTokensFromBytes_monotone 5 1024 A B).
Defined.

(** ** estimateTokensFromText *)

Local Open Scope string_scope.

Lemma estimate_blank (segmenter : option Segmenter) (t : string) :
  whiteSpaceOnly t = true ->
  estimateTokensFromText segmenter t = mkEstimate 0 0 0 None.
Proof.
  intro W. unfold estimateTokensFromText. fold (normalized t).
  destruct (truthy t); [|reflexivity]. simpl negb. cbv iota.
  apply normalized_empty in W. rewrite W. reflexivity.
Qed.

Lemma estimate_nonblank (segmenter : option Segmenter) (t : string) :
  whiteSpaceOnly t = false ->
  let words := countWords segmenter (normalized t) in
  let characters := Z.of_nat (nonWhiteSpaceCount (normalized t)) in
  let byWord := byWordOf words in
  let byCharacter := byCharacterOf characters in
  let blended :=
    round (inject_Z byWord * 0.4 + inject_Z byCharacter * 0.6) in
  estimateTokensFromText segmenter t
  = mkEstimate (Z.max 1 (Z.max (Z.max byWord byCharacter) blended))
               words characters
               (Some (Z.of_nat (String.length (normalized t)))).
Proof.
  intro W. cbv zeta. unfold estimateTokensFromText. fold (normalized t).
  assert (N : truthy (normalized t) = true).
  { apply truthy_true. intro E. apply normalized_empty in E. congruence. }
  assert (T : truthy t = true).
  { apply truthy_true. intros ->. discriminate W. }
  rewrite T, N. simpl negb. cbv iota zeta.
  unfold replaceWhiteSpaceRuns. rewrite length_replace_empty. reflexivity.
Qed.

Lemma countWords_nonneg (segmenter : option Segmenter) (s : string) :
  (0 <= countWords segmenter s)%Z.
Proof. unfold countWords. destruct segmenter; lia. Qed.

Lemma wordsOrOne_positive (w : Z) : (0 <= w -> 1 <= wordsOrOne w)%Z.
Proof. unfold wordsOrOne. destruct (Z.eqb_spec w 0); lia. Qed.

Lemma byWordOf_bounds (w : Z) :
  (0 <= w)%Z ->
  (2 <= byWordOf w)%Z /\ (inject_Z w * 1.33 <= inject_Z (byWordOf w))%Q.
Proof.
  intro H. pose proof (wordsOrOne_positive w H) as P.
  unfold byWordOf, ceil, WORD_TOKEN_MULTIPLIER.
  pose proof (Qle_ceiling (inject_Z (wordsOrOne w) * 1.33)) as C.
  assert (P' : (1 <= inject_Z (wordsOrOne w))%Q).
  { change 1%Q with (inject_Z 1). rewrite <- Zle_Qle. exact P. }
  assert (W : (inject_Z w <= inject_Z (wordsOrOne w))%Q).
  { rewrite <- Zle_Qle. unfold wordsOrOne. destruct (Z.eqb_spec w 0); lia. }
  split.
  - assert (L : (inject_Z 1 < inject_Z
                    (Qceiling (inject_Z (wordsOrOne w) * 1.33)))%Q)
      by (change (inject_Z 1) with 1%Q; lra).
    rewrite <- Zlt_Qlt in L. lia.
  - lra.
Qed.

Lemma round_below (q : Q) (m : Z) : (q <= inject_Z m)%Q -> (round q <= m)%Z.
Proof.
  intro H. unfold round.
  pose proof (Qfloor_le (q + 0.5)) as F.
  assert (L : (inject_Z (Qfloor (q + 0.5)) < inject_Z (m + 1))%Q).
  { rewrite inject_Z_plus. change (inject_Z 1) with 1%Q. lra. }
  rewrite <- Zlt_Qlt in L. lia.
Qed.

(** The blended candidate never exceeds the larger of the other two. *)
Lemma blended_below (bw bc : Z) :
  (round (inject_Z bw * 0.4 + inject_Z bc * 0.6) <= Z.max bw bc)%Z.
Proof.
  apply round_below.
  assert (A : (inject_Z bw <= inject_Z (Z.max bw bc))%Q)
    by (rewrite <- Zle_Qle; lia).
  assert (B : (inject_Z bc <= inject_Z (Z.max bw bc))%Q)
    by (rewrite <- Zle_Qle; lia).
  lra.
Qed.

(** X3: for a text that is not blank, the estimate is the larger of
    [byWord] and [byCharacter]: the blended candidate and the floor of 1
    never decide.  It is at least 2, and it is conservative: four times
    the estimate covers the characters and the estimate covers 1.33 times
    the words. *)
Theorem estimate_is_larger_candidate (segmenter : option Segmenter)
    (t : string) :
  whiteSpaceOnly t = false ->
  let r := estimateTokensFromText segmenter t in
  tokens r = Z.max (byWordOf (words r)) (byCharacterOf (characters r))
  /\ (2 <= tokens r)%Z
  /\ (inject_Z (characters r) <= inject_Z (tokens r) * 4)%Q
  /\ (inject_Z (words r) * 1.33 <= inject_Z (tokens r))%Q.
Proof.
  intros W r. subst r. rewrite (estimate_nonblank segmenter t W).
  cbv zeta. simpl tokens. simpl words. simpl characters.
  set (w := countWords segmenter (normalized t)).
  set (c := Z.of_nat (nonWhiteSpaceCount (normalized t))).
  destruct (byWordOf_bounds w (countWords_nonneg _ _)) as [B2 Bw].
  pose proof (blended_below (byWordOf w) (byCharacterOf c)) as Bl.
  assert (E : Z.max 1 (Z.max (Z.max (byWordOf w) (byCharacterOf c))
                (round (inject_Z (byWordOf w) * 0.4
                        + inject_Z (byCharacterOf c) * 0.6)))
              = Z.max (byWordOf w) (byCharacterOf c)) by lia.
  rewrite E. split; [reflexivity|]. split; [lia|].
  assert (Mw : (inject_Z (byWordOf w)
                <= inject_Z (Z.max (byWordOf w) (byCharacterOf c)))%Q)
    by (rewrite <- Zle_Qle; lia).
  assert (Mc : (inject_Z (byCharacterOf c)
                <= inject_Z (Z.max (byWordOf w) (byCharacterOf c)))%Q)
    by (rewrite <- Zle_Qle; lia).
  split; [|lra].
  unfold byCharacterOf, ceil, CHARS_PER_TOKEN in Mc |- *.
  pose proof (Qle_ceiling (inject_Z c / 4)) as C.
  assert (D : (inject_Z c / 4 * 4 == inject_Z c)%Q) by field.
  rewrite <- D at 1. lra.
Qed.

Lemma estimate_is_larger_candidate_witness :
  let r := estimateTokensFromText None "supercalifragilistic words" in
  whiteSpaceOnly "supercalifragilistic words" = false
  /\ words r = 2%Z /\ characters r = 25%Z /\ tokens r = 7%Z
  /\ tokens r = Z.max (byWordOf (words r)) (byCharacterOf (characters r)).
Proof.
  intro r. split; [reflexivity|].
  split; [reflexivity|]. split; [reflexivity|]. split; [reflexivity|].
  exact (proj1 (estimate_is_larger_candidate None
                  "supercalifragilistic words" eq_refl)).
Defined.

(** ** Words counted by splitting *)

Lemma split_counts_runs (inRun : bool) (cur s : string) :
  (inRun = true -> cur = "") ->
  List.length (filter truthy (splitWhiteSpaceFrom inRun cur s))
  = ((if truthy cur then 1 else 0) + wordRunsFrom (truthy cur) s)%nat.
Proof.
  revert inRun cur. induction s as [|c rest IH]; intros inRun cur H; simpl.
  - destruct (truthy cur); reflexivity.
  - destruct (isWhiteSpace c).
    + destruct inRun.
      * rewrite (H eq_refl). rewrite IH by reflexivity. reflexivity.
      * simpl. destruct (truthy cur); simpl;
          rewrite (IH true "") by reflexivity;
          change (truthy "") with false; cbv iota; lia.
    + rewrite IH by discriminate.
      assert (T : truthy (cur ++ String c "") = true)
        by (apply truthy_true; destruct cur; discriminate).
      rewrite T. destruct (truthy cur); lia.
Qed.

Lemma countWords_fallback_runs (s : string) :
  countWords None s = Z.of_nat (wordRuns s).
Proof.
  unfold countWords, splitWhiteSpace, wordRuns.
  rewrite split_counts_runs by discriminate. reflexivity.
Qed.

Lemma wordRuns_replace (inRun inWord : bool) (s : string) :
  (inRun = true -> inWord = false) ->
  wordRunsFrom inWord (replaceWhiteSpaceRunsFrom inRun " " s)
  = wordRunsFrom inWord s.
Proof.
  revert inRun inWord. induction s as [|c rest IH]; intros inRun inWord H;
    simpl; [reflexivity|].
  destruct (isWhiteSpace c) eqn:W.
  - destruct inRun.
    + rewrite (H eq_refl). apply IH. reflexivity.
    + simpl. apply IH. reflexivity.
  - simpl. rewrite W. rewrite IH by discriminate. reflexivity.
Qed.

Lemma wordRuns_trimStart (s : string) :
  wordRunsFrom false (trimStart s) = wordRunsFrom false s.
Proof.
  induction s as [|c rest IH]; simpl; [reflexivity|].
  destruct (isWhiteSpace c) eqn:W; [exact IH|]. simpl. rewrite W. reflexivity.
Qed.

Lemma wordRunsFrom_cons (inWord : bool) (c : ascii) (rest : string) :
  wordRunsFrom inWord (String c rest)
  = if isWhiteSpace c then wordRunsFrom false rest
    else ((if inWord then 0 else 1) + wordRunsFrom true rest)%nat.
Proof. reflexivity. Qed.

Lemma trimEnd_cons (c : ascii) (rest : string) :
  trimEnd (String c rest)
  = match trimEnd rest with
    | "" => if isWhiteSpace c then "" else String c ""
    | String a b => String c (String a b)
    end.
Proof. reflexivity. Qed.

Lemma wordRuns_trimEnd (inWord : bool) (s : string) :
  wordRunsFrom inWord (trimEnd s) = wordRunsFrom inWord s.
Proof.
  revert inWord. induction s as [|c rest IH]; intro inWord; [reflexivity|].
  rewrite trimEnd_cons, (wordRunsFrom_cons inWord c rest).
  destruct (trimEnd rest) as [|d r] eqn:E.
  - rewrite <- !IH. destruct (isWhiteSpace c) eqn:W; [reflexivity|].
    rewrite wordRunsFrom_cons, W. reflexivity.
  - rewrite wordRunsFrom_cons, !IH. reflexivity.
Qed.

Lemma wordRuns_normalized (t : string) : wordRuns (normalized t) = wordRuns t.
Proof.
  unfold wordRuns, normalized, trim, replaceWhiteSpaceRuns.
  rewrite wordRuns_trimEnd, wordRuns_trimStart.
  apply wordRuns_replace. discriminate.
Qed.

Lemma wordRuns_blank (inWord : bool) (s : string) :
  nonWhiteSpaceCount s = 0%nat -> wordRunsFrom inWord s = 0%nat.
Proof.
  revert inWord. induction s as [|c rest IH]; intro inWord; simpl;
    [reflexivity|].
  destruct (isWhiteSpace c); [apply IH | discriminate].
Qed.

(** X4: without a word segmenter, the word count reported for a text is
    the number of maximal runs of non-white-space code units of the text
    as given, whatever white space surrounds or separates them. *)
Theorem fallback_words_are_runs (t : string) :
  words (estimateTokensFromText None t) = Z.of_nat (wordRuns t).
Proof.
  destruct (whiteSpaceOnly t) eqn:W.
  - rewrite (estimate_blank None t W). simpl.
    apply whiteSpaceOnly_count in W. unfold wordRuns.
    rewrite (wordRuns_blank false t W). reflexivity.
  - rewrite (estimate_nonblank None t W). cbv zeta. simpl words.
    change (Z.of_nat (List.length (filter truthy
                        (splitWhiteSpace (normalized t)))))
      with (countWords None (normalized t)).
    rewrite countWords_fallback_runs, wordRuns_normalized. reflexivity.
Qed.

(** ** Normalization is idempotent *)

Lemma collapsed_replace (inRun : bool) (s : string) :
  collapsedFrom inRun (replaceWhiteSpaceRunsFrom inRun " " s) = true.
Proof.
  revert inRun. induction s as [|c rest IH]; intro inRun; simpl;
    [reflexivity|].
  destruct (isWhiteSpace c) eqn:W.
  - destruct inRun; [apply IH|]. simpl. apply IH.
  - simpl. rewrite W. apply IH.
Qed.

Lemma collapsed_weaken (s : string) :
  collapsedFrom true s = true -> collapsedFrom false s = true.
Proof.
  destruct s as [|c rest]; simpl; [reflexivity|].
  destruct (isWhiteSpace c); [|auto].
  rewrite andb_false_r. discriminate.
Qed.

Lemma collapsed_fixed (afterSpace : bool) (s : string) :
  collapsedFrom afterSpace s = true ->
  replaceWhiteSpaceRunsFrom afterSpace " " s = s.
Proof.
  revert afterSpace. induction s as [|c rest IH]; intro afterSpace; simpl;
    [reflexivity|].
  destruct (isWhiteSpace c).
  - intro H. apply andb_true_iff in H. destruct H as [H Hr].
    apply andb_true_iff in H. destruct H as [Hc Hb].
    apply negb_true_iff in Hb. subst afterSpace.
    apply Ascii.eqb_eq in Hc. subst c. simpl. rewrite (IH true Hr).
    reflexivity.
  - intro H. rewrite (IH false H). reflexivity.
Qed.

Lemma collapsed_trimStart (afterSpace : bool) (s : string) :
  collapsedFrom afterSpace s = true -> collapsedFrom false (trimStart s) = true.
Proof.
  revert afterSpace. induction s as [|c rest IH]; intro afterSpace; simpl;
    [reflexivity|].
  destruct (isWhiteSpace c) eqn:W.
  - intro H. apply andb_true_iff in H. destruct H as [_ Hr].
    apply (IH true Hr).
  - intro H. simpl. rewrite W. exact H.
Qed.

Lemma collapsed_trimEnd (afterSpace : bool) (s : string) :
  collapsedFrom afterSpace s = true ->
  collapsedFrom afterSpace (trimEnd s) = true.
Proof.
  revert afterSpace. induction s as [|c rest IH]; intro afterSpace; simpl;
    [reflexivity|].
  destruct (isWhiteSpace c) eqn:W.
  - intro H. apply andb_true_iff in H. destruct H as [H Hr].
    specialize (IH true Hr).
    destruct (trimEnd rest) as [|d r]; [reflexivity|].
    simpl collapsedFrom at 1. rewrite W, H. exact IH.
  - intro H. specialize (IH false H).
    destruct (trimEnd rest) as [|d r]; simpl; rewrite W; [reflexivity|].
    exact IH.
Qed.

Lemma trimStart_startsClean (s : string) : startsClean (trimStart s).
Proof.
  induction s as [|c rest IH]; simpl; [exact I|].
  destruct (isWhiteSpace c) eqn:W; [exact IH | exact W].
Qed.

Lemma trimEnd_startsClean (s : string) :
  startsClean s -> startsClean (trimEnd s).
Proof.
  destruct s as [|c rest]; simpl; [auto|]. intro W.
  destruct (trimEnd rest); [rewrite W|]; exact W.
Qed.

Lemma trimStart_clean (s : string) : startsClean s -> trimStart s = s.
Proof. destruct s as [|c rest]; simpl; [auto|]. intros ->. reflexivity. Qed.

Lemma trimEnd_idempotent (s : string) : trimEnd (trimEnd s) = trimEnd s.
Proof.
  induction s as [|c rest IH]; simpl; [reflexivity|].
  destruct (trimEnd rest) as [|d r] eqn:E.
  - destruct (isWhiteSpace c) eqn:W; simpl; [reflexivity|].
    rewrite W. reflexivity.
  - change (trimEnd (String c (String d r)))
      with (match trimEnd (String d r) with
            | "" => if isWhiteSpace c then "" else String c ""
            | String a b => String c (String a b)
            end).
    rewrite IH. reflexivity.
Qed.

Lemma trim_idempotent (s : string) : trim (trim s) = trim s.
Proof.
  unfold trim.
  rewrite (trimStart_clean (trimEnd (trimStart s)))
    by apply trimEnd_startsClean, trimStart_startsClean.
  apply trimEnd_idempotent.
Qed.

Lemma normalized_collapsed (t : string) :
  collapsedFrom false (normalized t) = true.
Proof.
  unfold normalized, trim, replaceWhiteSpaceRuns.
  apply collapsed_trimEnd. eapply collapsed_trimStart. apply collapsed_replace.
Qed.

Lemma normalized_idempotent (t : string) :
  normalized (normalized t) = normalized t.
Proof.
  unfold normalized at 1. unfold replaceWhiteSpaceRuns.
  rewrite (collapsed_fixed false _ (normalized_collapsed t)).
  unfold normalized. apply trim_idempotent.
Qed.

(** X5: white-space normalization is idempotent, and the estimate of a
    text is the estimate of its normalized form: extra white space,
    whatever its kind and place, changes no field of the result. *)
Theorem estimate_of_normalized (segmenter : option Segmenter) (t : string) :
  normalized (normalized t) = normalized t
  /\ estimateTokensFromText segmenter (normalized t)
     = estimateTokensFromText segmenter t.
Proof.
  split; [apply normalized_idempotent|].
  destruct (whiteSpaceOnly t) eqn:W.
  - rewrite (estimate_blank segmenter t W).
    apply normalized_empty in W. rewrite W. reflexivity.
  - assert (W' : whiteSpaceOnly (normalized t) = false).
    { destruct (whiteSpaceOnly (normalized t)) eqn:E; [|reflexivity].
      apply whiteSpaceOnly_count in E. rewrite count_normalized in E.
      apply whiteSpaceOnly_count in E. congruence. }
    rewrite (estimate_nonblank segmenter t W).
    rewrite (estimate_nonblank segmenter (normalized t) W').
    rewrite normalized_idempotent. reflexivity.
Qed.

(** ** Sizes are never negative *)

Local Open Scope Q_scope.

Lemma digitsValueFrom_nonneg (acc : Z) (s : string) :
  (0 <= acc)%Z -> (0 <= digitsValueFrom acc s)%Z.
Proof.
  revert acc. induction s as [|c rest IH]; intros acc H; [exact H|].
  change (digitsValueFrom acc (String c rest))
    with (digitsValueFrom (10 * acc + digitValue c) rest).
  apply IH. unfold digitValue. lia.
Qed.

Lemma parseFloat_nonneg (s : string) (v : Q) :
  parseFloat s = Num v -> 0 <= v.
Proof.
  unfold parseFloat. destruct (takeDigits s) as [int afterInt].
  set (frac := match afterInt with
               | String "." rest => fst (takeDigits rest)
               | _ => ""%string
               end).
  destruct (negb (truthy int) && negb (truthy frac)); [discriminate|].
  intro H. injection H as <-.
  assert (A : 0 <= inject_Z (digitsValue int)).
  { change 0 with (inject_Z 0). rewrite <- Zle_Qle.
    apply digitsValueFrom_nonneg. lia. }
  assert (B : 0 <= inject_Z (digitsValue frac)).
  { change 0 with (inject_Z 0). rewrite <- Zle_Qle.
    apply digitsValueFrom_nonneg. lia. }
  assert (P : 0 < inject_Z (10 ^ Z.of_nat (String.length frac))).
  { change 0 with (inject_Z 0). rewrite <- Zlt_Qlt.
    apply Z.pow_pos_nonneg; lia. }
  assert (D : 0 <= inject_Z (digitsValue frac)
                   / inject_Z (10 ^ Z.of_nat (String.length frac))).
  { apply Qle_shift_div_l; [exact P|]. rewrite Qmult_0_l. exact B. }
  lra.
Qed.

Lemma times_nonneg (a : Number) (b v : Q) :
  0 <= b -> (forall x, a = Num x -> 0 <= x) -> times a b = Num v -> 0 <= v.
Proof.
  intros Hb Ha. destruct a as [x|]; simpl; [|discriminate].
  intro H. injection H as <-. specialize (Ha x eq_refl).
  apply Qmult_le_0_compat; assumption.
Qed.

Lemma parseFileSizeToBytes_nonneg (s : string) (q : Q) :
  parseFileSizeToBytes s = Num q -> 0 <= q.
Proof.
  unfold parseFileSizeToBytes.
  destruct (negb (truthy s)).
  { intro H. injection H as <-. apply Qle_refl. }
  destruct (matchSize (removeAll "," s)) as [[g1 g2]|].
  2:{ intro H. injection H as <-. apply Qle_refl. }
  pose proof (parseFloat_nonneg g1) as P.
  repeat match goal with
  | |- (if ?c then _ else _) = _ -> _ => destruct c
  end;
  try (apply (times_nonneg (parseFloat g1));
       [vm_compute; discriminate | exact P]).
  apply P.
Qed.

(** X6: a size is never negative: whatever the text, the result of
    [parseFileSizeToBytes] is [NaN] or a number that is at least 0 (a sign
    in front of the digits is not part of the match), and
    [estimateTokensFromFileSizeString] reports zero tokens exactly when the
    size is [NaN] or 0, at least one token otherwise. *)
Theorem file_size_never_negative (s : string) :
  let r := estimateTokensFromFileSizeString s in
  snd r = parseFileSizeToBytes s
  /\ (forall q, snd r = Num q -> 0 <= q)
  /\ (fst r = 0%Z <-> snd r = NaN \/ exists q, snd r = Num q /\ q == 0)
  /\ (0 <= fst r)%Z.
Proof.
  intro r. subst r. unfold estimateTokensFromFileSizeString. simpl fst.
  simpl snd. split; [reflexivity|].
  split; [apply parseFileSizeToBytes_nonneg|].
  pose proof (parseFileSizeToBytes_nonneg s) as N.
  destruct (parseFileSizeToBytes s) as [q|]; simpl.
  - specialize (N q eq_refl). destruct (Qeq_bool q 0) eqn:E.
    + apply Qeq_bool_iff in E. split; [|lia].
      split; [intros _; right; exists q; auto | reflexivity].
    + assert (P : 0 < q).
      { destruct (Qlt_le_dec 0 q) as [L|L]; [exact L|].
        assert (q == 0) as Z0 by lra. apply Qeq_bool_iff in Z0. congruence. }
      pose proof (ceil_quarter_positive q P) as C.
      split; [|lia]. split.
      * intro H. lia.
      * intros [H | (q' & H & Hq)]; [discriminate|].
        injection H as <-. lra.
  - split; [|lia]. split; [auto | reflexivity].
Qed.

End EstimatorMore.

(* ================================================================== *)
(** * More properties of the navigator                                 *)
(* ================================================================== *)
Module NavigatorMore.
Import Js Dom PromptNavigator PromptNavigatorStatus NavigatorSpec JsFacts.
Import AnchorFacts NavigatorProofs.
Local Open Scope Q_scope.

(** ** What a jump changes *)

Lemma clamp_range (t m : Q) :
  0 <= clamp t m /\ (0 <= m -> clamp t m <= m) /\ (m <= 0 -> clamp t m == 0).
Proof.
  unfold clamp.
  destruct (Q.min_spec t m) as [[? E]|[? E]];
  destruct (Q.max_spec 0 (Qmin t m)) as [[? E']|[? E']];
  rewrite E'; rewrite E in *; repeat split; intros; lra.
Qed.

Lemma promptIndex_bound docH prompts context a :
  In a (buildAnchors docH prompts context) ->
  (promptIndex a <= List.length prompts)%nat.
Proof.
  intro H. apply anchor_turn in H. destruct (element a).
  - destruct H as (el & Hn & _).
    assert (promptIndex a < List.length prompts)%nat
      by (apply nth_error_Some; congruence). lia.
  - lia.
Qed.

(** X7: a call of [jump] never changes the list of prompts.  A failure
    leaves the whole state as it was and requests no scroll.  A success
    requests exactly one scroll, to an offset that is never negative and
    never beyond [maxScroll] (0 when [maxScroll] is negative), animated
    unless the previous successful jump was less than 300 ms ago; it
    records the time of the jump and reports a position that does not
    exceed the total. *)
Theorem jump_effects docH context now st direction :
  let r := jump docH context now st direction in
  prompts (state_of r) = prompts st
  /\ (forall reason, result_of r = Failure reason ->
        state_of r = st /\ scroll_of r = None)
  /\ (forall p t, result_of r = Success p t ->
        (p <= t)%nat
        /\ lastJumpTime (state_of r) = now
        /\ exists cmd, scroll_of r = Some cmd
             /\ 0 <= scroll_top cmd
             /\ (0 <= maxScroll docH context ->
                 scroll_top cmd <= maxScroll docH context)
             /\ (maxScroll docH context <= 0 -> scroll_top cmd == 0)
             /\ scroll_behavior cmd
                = if (now - lastJumpTime st <? 300)%Z then behavior_auto
                  else behavior_smooth).
Proof.
  intro r. subst r.
  destruct (prompts st) as [|e es] eqn:Ep.
  - unfold jump. rewrite Ep. simpl.
    split; [exact Ep|]. split; [auto | discriminate].
  - assert (Hp : prompts st <> []) by (rewrite Ep; discriminate).
    rewrite (jump_with_prompts _ _ _ _ _ Hp).
    destruct (findTargetAnchor _ _ _ _ _) as [a|] eqn:F.
    + unfold result_of, state_of, scroll_of. simpl fst. simpl snd.
      split; [simpl; exact Ep|]. split; [discriminate|].
      intros p t H. injection H as <- <-.
      apply findTargetAnchor_In in F.
      split; [apply (promptIndex_bound _ _ _ _ F)|].
      split; [reflexivity|].
      eexists. split; [reflexivity|].
      destruct (clamp_range (getTargetScroll docH context a)
                            (maxScroll docH context)) as (A & B & C).
      split; [exact A|]. split; [exact B|]. split; [exact C|].
      reflexivity.
    + unfold result_of, state_of, scroll_of. simpl.
      split; [exact Ep|]. split; [auto | discriminate].
Qed.

Lemma jump_effects_witness :
  let st := fresh [turnAt 1 (-1000) 100; turnAt 2 500 100] in
  let r := jump 2000 (windowAt 1000) 100 st "next" in
  result_of r = Success 1 2
  /\ (1 <= 2)%nat
  /\ lastJumpTime (state_of r) = 100%Z
  /\ exists cmd, scroll_of r = Some cmd
       /\ 0 <= scroll_top cmd
       /\ (0 <= maxScroll 2000 (windowAt 1000) ->
           scroll_top cmd <= maxScroll 2000 (windowAt 1000))
       /\ (maxScroll 2000 (windowAt 1000) <= 0 -> scroll_top cmd == 0)
       /\ scroll_behavior cmd
          = if (100 - lastJumpTime st <? 300)%Z then behavior_auto
            else behavior_smooth.
Proof.
  intros st r. split; [reflexivity|].
  exact (proj2 (proj2 (jump_effects 2000 (windowAt 1000) 100 st "next"))
           1%nat 2%nat eq_refl).
Defined.

(** ** Next, then previous *)

Lemma findIndex_found {A : Type} (p : A -> bool) (l : list A) (i : Z) :
  findIndex p l = i -> (0 <= i)%Z ->
  exists a, nth_error l (Z.to_nat i) = Some a /\ p a = true.
Proof.
  revert i. induction l as [|x t IH]; intros i; simpl.
  - intros <- H. lia.
  - destruct (p x) eqn:Px.
    + intros <- _. exists x. auto.
    + destruct (Z.eqb_spec (findIndex p t) (-1)); [intros <- H; lia|].
      intros <- H.
      destruct (findIndex_range p t) as [R|R]; [contradiction|].
      destruct (IH _ eq_refl (proj1 R)) as (a & Ha & Pa).
      exists a. split; [|exact Pa].
      replace (Z.to_nat (findIndex p t + 1))
        with (S (Z.to_nat (findIndex p t))) by lia.
      exact Ha.
Qed.

(** One sequential step on a list whose anchors are told apart by
    element and kind. *)
Lemma sequential_step docH context now st anchors (i j : nat) (a : Anchor)
    (direction : string) :
  prompts st <> [] ->
  buildAnchors docH (prompts st) context = anchors ->
  NoDup (map key anchors) ->
  recordedIndex docH context st = Z.of_nat i ->
  nth_error anchors j = Some a ->
  (direction = "next"%string /\ j = S i)
  \/ (direction = "previous"%string /\ i = S j) ->
  jump docH context now st direction
  = (Success (promptIndex a) (List.length (prompts st)),
     mkState (prompts st) (Some (key a)) now,
     Some (snd (scrollToAnchor docH now (lastJumpTime st) a context))).
Proof.
  intros Hp Hb Hnd Hi Hj Hdir.
  unfold recordedIndex in Hi. rewrite Hb in Hi.
  destruct (lastAnchor st) as [la|] eqn:Ela; [|lia].
  rewrite (jump_with_prompts _ _ _ _ _ Hp), Ela, Hb.
  rewrite findTargetAnchor_sequential by lia. cbv zeta. rewrite Hi.
  assert (Lj : (j < List.length anchors)%nat)
    by (apply nth_error_Some; congruence).
  destruct Hdir as [[-> ->] | [-> ->]].
  - change (String.eqb "next" "next") with true. cbv iota.
    destruct (Z.geb_spec (Z.of_nat i) (Z.of_nat (List.length anchors) - 1));
      [lia|].
    replace (Z.of_nat i + 1)%Z with (Z.of_nat (S i)) by lia.
    rewrite at_index_nat, Hj. reflexivity.
  - change (String.eqb "previous" "next") with false. cbv iota.
    destruct (Z.leb_spec (Z.of_nat (S j)) 0); [lia|].
    replace (Z.of_nat (S j) - 1)%Z with (Z.of_nat j) by lia.
    rewrite at_index_nat, Hj. reflexivity.
Qed.

(** X8: when an anchor is recorded at an index that is not the last one
    and the anchor list stays the same, [jump('next')] followed by
    [jump('previous')] succeeds twice and records the anchor it started
    from again. *)
Theorem next_then_previous docH context now st docH' context' now' prompts'
    (i : Z) :
  NoDup (map eid (prompts st)) ->
  prompts st <> [] ->
  recordedIndex docH context st = i ->
  (0 <= i)%Z ->
  (i + 1 < Z.of_nat (List.length (buildAnchors docH (prompts st) context)))%Z ->
  buildAnchors docH' prompts' context'
    = buildAnchors docH (prompts st) context ->
  let first := jump docH context now st "next" in
  let second :=
    jump docH' context' now' (rescan prompts' (state_of first)) "previous" in
  (exists p t, result_of first = Success p t)
  /\ (exists p t, result_of second = Success p t)
  /\ lastAnchor (state_of second) = lastAnchor st
  /\ recordedIndex docH' context' (rescan prompts' (state_of second)) = i.
Proof.
  intros Hnd Hp Hi Hpos Hlt Hsame first second.
  set (anchors := buildAnchors docH (prompts st) context) in *.
  pose proof (NoDup_key_buildAnchors docH _ context Hnd) as Hkeys.
  fold anchors in Hkeys.
  assert (Hla : exists la, lastAnchor st = Some la
                           /\ findIndex (sameAnchor la) anchors = i).
  { unfold recordedIndex in Hi. fold anchors in Hi.
    destruct (lastAnchor st) as [la|]; [exists la; auto | lia]. }
  destruct Hla as (la & Ela & Hfi).
  destruct (findIndex_found _ _ _ Hfi Hpos) as (a0 & Hn0 & Hs0).
  apply sameAnchor_iff in Hs0.
  destruct (nth_error anchors (S (Z.to_nat i))) as [a1|] eqn:Hn1.
  2:{ apply nth_error_None in Hn1. lia. }
  assert (E1 : first
    = (Success (promptIndex a1) (List.length (prompts st)),
       mkState (prompts st) (Some (key a1)) now,
       Some (snd (scrollToAnchor docH now (lastJumpTime st) a1 context)))).
  { apply (sequential_step docH context now st anchors (Z.to_nat i)
             (S (Z.to_nat i))); auto.
    rewrite Hi. lia. }
  assert (Hp' : prompts' <> []).
  { intros ->. pose proof (f_equal (@List.length Anchor) Hsame) as L.
    change (buildAnchors docH' [] context')
      with [mkAnchor None chat_bottom (scrollHeightOf docH' context') 0] in L.
    simpl in L. fold anchors in L. lia. }
  assert (E2 : second
    = (Success (promptIndex a0) (List.length prompts'),
       mkState prompts' (Some (key a0)) now',
       Some (snd (scrollToAnchor docH' now' now a0 context')))).
  { unfold second. rewrite E1. unfold state_of, rescan. simpl.
    apply (sequential_step docH' context' now'
             (mkState prompts' (Some (key a1)) now) anchors (S (Z.to_nat i))
             (Z.to_nat i) a0 "previous"); auto.
    unfold recordedIndex. simpl. rewrite Hsame. fold anchors.
    rewrite (findIndex_nodup anchors (S (Z.to_nat i)) a1 Hkeys Hn1).
    reflexivity. }
  split; [rewrite E1; eexists; eexists; reflexivity|].
  split; [rewrite E2; eexists; eexists; reflexivity|].
  rewrite E2. unfold state_of, rescan, recordedIndex. simpl.
  split; [congruence|].
  rewrite Hsame. fold anchors.
  rewrite (findIndex_nodup anchors (Z.to_nat i) a0 Hkeys Hn0). lia.
Qed.

Lemma next_then_previous_witness :
  let st := mkState [turnAt 1 50 100; turnAt 2 1500 100]
                    (Some (Some 1%nat, top)) 0 in
  let prompts' := [turnAt 1 (-950) 100; turnAt 2 500 100] in
  let first := jump 2000 (windowAt 0) 400 st "next" in
  let second :=
    jump 2000 (windowAt 1000) 900 (rescan prompts' (state_of first))
         "previous" in
  NoDup (map eid (prompts st))
  /\ recordedIndex 2000 (windowAt 0) st = 0%Z
  /\ result_of first = Success 1 2
  /\ result_of second = Success 0 2
  /\ lastAnchor (state_of second) = lastAnchor st.
Proof.
  intros st prompts' first second.
  assert (Hnd : NoDup (map eid (prompts st))).
  { simpl. constructor; [simpl; intros [H|[]]; discriminate|].
    constructor; [intros []|constructor]. }
  split; [exact Hnd|]. split; [reflexivity|].
  split; [reflexivity|]. split; [reflexivity|].
  refine (proj1 (proj2 (proj2
    (next_then_previous 2000 (windowAt 0) 400 st 2000 (windowAt 1000) 900
       prompts' 0%Z Hnd _ eq_refl _ _ eq_refl)))).
  - discriminate.
  - apply Z.le_refl.
  - vm_compute. reflexivity.
Defined.

(** ** The position indicator *)

Lemma leadingCount_le {A : Type} (p : A -> bool) (l : list A) :
  (leadingCount p l <= List.length l)%nat.
Proof.
  induction l as [|x t IH]; simpl; [lia|]. destruct (p x); simpl; lia.
Qed.

Lemma leadingCount_before {A : Type} (p : A -> bool) (l : list A) j x :
  (j < leadingCount p l)%nat -> nth_error l j = Some x -> p x = true.
Proof.
  revert j. induction l as [|y t IH]; intros j; simpl; [lia|].
  destruct (p y) eqn:Py; [|lia].
  destruct j as [|j]; simpl.
  - intros _ H. injection H as <-. exact Py.
  - intros H. apply IH. lia.
Qed.

Lemma leadingCount_at {A : Type} (p : A -> bool) (l : list A) x :
  nth_error l (leadingCount p l) = Some x -> p x = false.
Proof.
  induction l as [|y t IH]; simpl; [discriminate|].
  destruct (p y) eqn:Py; simpl; [exact IH|].
  intro H. injection H as <-. exact Py.
Qed.

Lemma activeIndexFrom_count context thresholdY els (i : nat) (active : Z) :
  activeIndexFrom context thresholdY els i active
  = match leadingCount (fun el => Qle_bool (topY context el) thresholdY) els
    with
    | O => active
    | S k => Z.of_nat (i + k)
    end.
Proof.
  revert i active. induction els as [|el rest IH]; intros i active; simpl;
    [reflexivity|].
  change (scrollTop context
          + (rect_top (getBoundingClientRect el) - containerTop context))
    with (topY context el).
  destruct (Qle_bool (topY context el) thresholdY); [|reflexivity].
  rewrite IH.
  destruct (leadingCount _ rest) as [|k].
  - rewrite Nat.add_0_r. reflexivity.
  - f_equal. lia.
Qed.

Lemma getCurrentPromptIndex_count prompts context :
  getCurrentPromptIndex prompts context
  = (Z.of_nat (leadingCount
                 (fun el => Qle_bool (topY context el) (midpoint context))
                 prompts) - 1)%Z.
Proof.
  unfold getCurrentPromptIndex. destruct prompts as [|e es]; [reflexivity|].
  cbv zeta. fold (midpoint context). rewrite activeIndexFrom_count.
  destruct (leadingCount _ (e :: es)); lia.
Qed.

Lemma sorted_nth {A : Type} (R : A -> A -> Prop) (l : list A) k j a b :
  StronglySorted R l -> nth_error l k = Some a -> nth_error l j = Some b ->
  (k < j)%nat -> R a b.
Proof.
  intro Hs. revert k j. induction Hs as [|x t Ht IH Hx]; intros k j Ek Hn Lk.
  - destruct k; discriminate.
  - destruct j as [|j]; [lia|]. simpl in Hn. destruct k as [|k]; simpl in Ek.
    + injection Ek as <-. rewrite Forall_forall in Hx. apply Hx.
      eapply nth_error_In. exact Hn.
    + apply (IH k j); auto; lia.
Qed.

(** X9: [getCurrentPromptIndex] is at least -1 and below the number of
    prompts.  Every prompt up to the index it returns starts at or above
    the midpoint of the viewport and the prompt after it, if any, starts
    below the midpoint; when the prompts are in ascending order of
    offset, every later prompt starts below the midpoint too, so that the
    result is the last prompt at or above the midpoint, or -1 when there
    is none. *)
Theorem getCurrentPromptIndex_spec prompts context :
  let r := getCurrentPromptIndex prompts context in
  (-1 <= r < Z.of_nat (List.length prompts))%Z
  /\ (forall j el, (Z.of_nat j <= r)%Z -> nth_error prompts j = Some el ->
        topY context el <= midpoint context)
  /\ (forall el, nth_error prompts (Z.to_nat (r + 1)) = Some el ->
        midpoint context < topY context el)
  /\ (StronglySorted (fun a b => topY context a <= topY context b) prompts ->
      forall j el, (r < Z.of_nat j)%Z -> nth_error prompts j = Some el ->
        midpoint context < topY context el).
Proof.
  intro r. subst r. rewrite getCurrentPromptIndex_count.
  set (p := fun el => Qle_bool (topY context el) (midpoint context)).
  set (k := leadingCount p prompts).
  pose proof (leadingCount_le p prompts) as Hle. fold k in Hle.
  assert (Hat : forall el, nth_error prompts k = Some el ->
                           midpoint context < topY context el).
  { intros el H. apply leadingCount_at in H. unfold p in H.
    destruct (Qlt_le_dec (midpoint context) (topY context el)) as [L|L];
      [exact L|].
    apply Qle_bool_iff in L. congruence. }
  split.
  - split; [lia|].
    destruct prompts as [|e es]; [simpl in *; lia|].
    destruct (Nat.eq_dec k (List.length (e :: es))); lia.
  - split.
    + intros j el Hj Hn. apply Qle_bool_iff.
      apply (leadingCount_before p prompts j el); [fold k; lia | exact Hn].
    + split.
      * intros el. replace (Z.to_nat (Z.of_nat k - 1 + 1)) with k by lia.
        apply Hat.
      * intros Hs j el Hj Hn.
        assert (Lk : (k <= j)%nat) by lia.
        destruct (nth_error prompts k) as [ek|] eqn:Ek.
        2:{ apply nth_error_None in Ek.
            assert (j < List.length prompts)%nat
              by (apply nth_error_Some; congruence). lia. }
        pose proof (Hat ek eq_refl) as Hk.
        destruct (Nat.eq_dec j k) as [->|Hne];
          [rewrite Ek in Hn; injection Hn as <-; exact Hk|].
        assert (Hord : topY context ek <= topY context el)
          by (apply (sorted_nth _ _ k j ek el Hs Ek Hn); lia).
        lra.
Qed.

Lemma getCurrentPromptIndex_spec_witness :
  let prompts := [turnAt 1 (-900) 100; turnAt 2 (-100) 100; turnAt 3 700 100] in
  let context := windowAt 1000 in
  StronglySorted (fun a b => topY context a <= topY context b) prompts
  /\ getCurrentPromptIndex prompts context = 1%Z
  /\ (forall j el, (1 < Z.of_nat j)%Z -> nth_error prompts j = Some el ->
        midpoint context < topY context el).
Proof.
  intros prompts context.
  assert (S : StronglySorted (fun a b => topY context a <= topY context b)
                             prompts).
  { repeat (constructor; [|repeat constructor;
                            apply Qle_bool_iff; reflexivity]).
    constructor. }
  split; [exact S|]. split; [reflexivity|].
  exact (proj2 (proj2 (proj2
    (getCurrentPromptIndex_spec prompts context))) S).
Defined.

End NavigatorMore.

(* ================================================================== *)
(** * Properties of the scanner                                        *)
(* ================================================================== *)
Module ScannerProofs.
Import Js Dom Roles RolesSpec Scanner ScannerSpec RoleProofs.
Local Open Scope nat_scope.

Lemma fst_withAncestors (el : Element) :
  forall ancestors, map fst (withAncestors ancestors el) = subtree el.
Proof.
  induction el as [i a r cs IH] using Element_tree_ind. intro ancestors.
  change (withAncestors ancestors (mkElement i a r cs))
    with ((mkElement i a r cs, ancestors)
          :: flat_map (withAncestors (mkElement i a r cs :: ancestors)) cs).
  change (subtree (mkElement i a r cs))
    with (mkElement i a r cs :: flat_map subtree cs).
  simpl map. f_equal.
  generalize (mkElement i a r cs :: ancestors) as anc.
  induction IH as [|c rest Hc Hrest IHrest]; intro anc; simpl; [reflexivity|].
  rewrite map_app, Hc, IHrest. reflexivity.
Qed.

Lemma fst_descendants (root : Element) (rootAncestors : list Element) :
  map fst (flat_map (withAncestors (root :: rootAncestors)) (children root))
  = descendants root.
Proof.
  unfold descendants. induction (children root) as [|c rest IH]; simpl;
    [reflexivity|].
  rewrite map_app, fst_withAncestors, IH. reflexivity.
Qed.

Lemma fst_querySelectorAll selector root rootAncestors :
  map fst (querySelectorAll selector root rootAncestors)
  = filter selector (descendants root).
Proof.
  unfold querySelectorAll. rewrite <- (fst_descendants root rootAncestors).
  induction (flat_map _ (children root)) as [|n rest IH]; simpl;
    [reflexivity|].
  destruct (selector (fst n)); simpl; rewrite IH; reflexivity.
Qed.

Lemma distinct_filter (keep : Element -> bool) (els : list Element) :
  NoDup (map eid els) -> NoDup (map eid (filter keep els)).
Proof.
  intro Hnd. induction els as [|el rest IH]; [constructor|].
  cbn [map] in Hnd. apply NoDup_cons_iff in Hnd. destruct Hnd as [Hel Hrest].
  cbn [filter]. destruct (keep el); [|exact (IH Hrest)].
  cbn [map]. apply NoDup_cons; [|exact (IH Hrest)].
  intro Hin. apply Hel. apply in_map_iff in Hin.
  destruct Hin as (y & Hy & Hin). apply filter_In in Hin.
  apply in_map_iff. exists y. tauto.
Qed.

Lemma existsb_eid (k : nat) (seen : list nat) :
  existsb (Nat.eqb k) seen = true <-> In k seen.
Proof.
  rewrite existsb_exists. split.
  - intros (x & Hin & E). apply Nat.eqb_eq in E. subst. exact Hin.
  - intro H. exists k. split; [exact H | apply Nat.eqb_refl].
Qed.

Lemma collectFrom_distinct page seen candidates :
  NoDup (map eid (collectFrom page seen candidates))
  /\ forall x, In x (collectFrom page seen candidates) -> ~ In (eid x) seen.
Proof.
  revert seen. induction candidates as [|node rest IH]; intro seen; simpl.
  - split; [constructor | intros x []].
  - set (container := match closest isTurnContainer node with
                      | Some c => c
                      | None => match closest (isArticle page) node with
                                | Some c => c
                                | None => fst node
                                end
                      end).
    destruct (existsb (Nat.eqb (eid container)) seen) eqn:E.
    + apply IH.
    + destruct (IH (eid container :: seen)) as [Hnd Hfresh].
      split.
      * simpl. constructor; [|exact Hnd].
        intro Hin. apply in_map_iff in Hin. destruct Hin as (x & Hx & Hin).
        apply (Hfresh x Hin). left. symmetry. exact Hx.
      * intros x [<- | Hin].
        -- intro H. apply existsb_eid in H. congruence.
        -- intro H. apply (Hfresh x Hin). right. exact H.
Qed.

Lemma collectFrom_matches page seen candidates x :
  Forall (fun n => (isTurnContainer (fst n) || hasRoleAttribute (fst n))
                   = true) candidates ->
  In x (collectFrom page seen candidates) ->
  (isTurnContainer x || isArticle page x || hasRoleAttribute x) = true.
Proof.
  intro Hc. revert seen. induction Hc as [|node rest Hn Hrest IH];
    intro seen; simpl; [intros []|].
  set (container := match closest isTurnContainer node with
                    | Some c => c
                    | None => match closest (isArticle page) node with
                              | Some c => c
                              | None => fst node
                              end
                    end).
  assert (Hcont : (isTurnContainer container || isArticle page container
                   || hasRoleAttribute container) = true).
  { unfold container, closest.
    destruct (find isTurnContainer _) as [c|] eqn:F1.
    - apply find_some in F1. destruct F1 as [_ ->]. reflexivity.
    - destruct (find (isArticle page) _) as [c|] eqn:F2.
      + apply find_some in F2. destruct F2 as [_ ->].
        rewrite orb_true_r. reflexivity.
      + apply orb_true_iff in Hn. destruct Hn as [-> | ->];
          [reflexivity | apply orb_true_r]. }
  destruct (existsb _ seen); [apply IH|].
  intros [<- | Hin]; [exact Hcont | apply (IH _ Hin)].
Qed.

(** X10: the turns [collectConversationTurns] returns are distinct
    elements: always when it finds candidates, which it deduplicates by
    container, and in the fallback to [article] elements because the
    elements of a document are distinct.  Every turn it returns is a turn
    container, an [article] or an element that carries the role
    attribute. *)
Theorem collectConversationTurns_distinct page root rootAncestors :
  let turns := collectConversationTurns page root rootAncestors in
  (NoDup (map eid (descendants root)) -> NoDup (map eid turns))
  /\ (filter (fun el => isTurnContainer el || hasRoleAttribute el)
             (descendants root) <> [] -> NoDup (map eid turns))
  /\ (forall t, In t turns ->
        (isTurnContainer t || isArticle page t || hasRoleAttribute t) = true).
Proof.
  intro turns. subst turns. unfold collectConversationTurns.
  pose proof (fst_querySelectorAll
                (fun el => isTurnContainer el || hasRoleAttribute el)
                root rootAncestors) as Hc.
  destruct (querySelectorAll (fun el => isTurnContainer el
                                        || hasRoleAttribute el)
                             root rootAncestors) as [|n rest] eqn:Q.
  - simpl in Hc. split; [|split].
    + intro Hnd. rewrite fst_querySelectorAll.
      apply distinct_filter, Hnd.
    + intro H. congruence.
    + intros t Hin. rewrite fst_querySelectorAll in Hin.
      apply filter_In in Hin. destruct Hin as [_ ->].
      rewrite orb_true_r. reflexivity.
  - split; [|split].
    + intros _. apply collectFrom_distinct.
    + intros _. apply collectFrom_distinct.
    + intros t. apply collectFrom_matches.
      rewrite <- Q. unfold querySelectorAll. apply Forall_forall.
      intros x Hx. apply filter_In in Hx. apply Hx.
Qed.

Lemma collectConversationTurns_distinct_witness :
  let turns := collectConversationTurns (plainPage (fun _ => false))
                                        threeTurnMain [] in
  NoDup (map eid (descendants threeTurnMain))
  /\ map eid turns = [1; 2; 3]
  /\ NoDup (map eid turns).
Proof.
  intro turns.
  assert (H : NoDup (map eid (descendants threeTurnMain))).
  { apply (NoDup_count_occ' Nat.eq_dec). intros x Hx.
    simpl in Hx.
    repeat (destruct Hx as [<- | Hx]; [reflexivity|]). destruct Hx. }
  split; [exact H|]. split; [reflexivity|].
  exact (proj1 (collectConversationTurns_distinct
                  (plainPage (fun _ => false)) threeTurnMain []) H).
Defined.

(** ** The prompts of a scan *)

Lemma isUser_iff (r : option string) : isUser r = true <-> r = Some "user"%string.
Proof.
  unfold isUser. destruct r as [s|]; [|split; discriminate].
  rewrite String.eqb_eq. split; congruence.
Qed.

Lemma In_userPromptsFrom page turns k p :
  In p (userPromptsFrom page turns k) <->
  exists j, nth_error turns j = Some p /\ visibleUserTurn page p (k + j).
Proof.
  revert k. induction turns as [|t rest IH]; intro k; simpl.
  - split; [intros [] | intros (j & H & _); destruct j; discriminate].
  - assert (Hrest : (exists j, nth_error rest j = Some p
                               /\ visibleUserTurn page p (S k + j)) <->
                    (exists j, nth_error (t :: rest) (S j) = Some p
                               /\ visibleUserTurn page p (k + S j))).
    { split; intros (j & Hn & Hv); exists j;
        (split; [exact Hn|]); rewrite Nat.add_succ_r in *; exact Hv. }
    destruct (isElementVisible page t) eqn:V; simpl.
    + destruct (isUser (determineMessageRole t k)) eqn:U.
      * simpl. rewrite IH, Hrest. split.
        -- intros [<- | (j & H)].
           ++ exists 0. rewrite Nat.add_0_r. apply isUser_iff in U.
              split; [reflexivity | split; assumption].
           ++ exists (S j). exact H.
        -- intros ([|j] & Hn & Hv).
           ++ left. simpl in Hn. congruence.
           ++ right. exists j. split; assumption.
      * rewrite IH, Hrest. split.
        -- intros (j & H). exists (S j). exact H.
        -- intros ([|j] & Hn & Hv).
           ++ simpl in Hn. injection Hn as <-. rewrite Nat.add_0_r in Hv.
              destruct Hv as [_ Hu]. apply isUser_iff in Hu. congruence.
           ++ exists j. split; assumption.
    + rewrite IH, Hrest. split.
      * intros (j & H). exists (S j). exact H.
      * intros ([|j] & Hn & Hv).
        -- simpl in Hn. injection Hn as <-. destruct Hv as [Hv _]. congruence.
        -- exists j. split; assumption.
Qed.

Lemma userPromptsFrom_distinct page turns k :
  NoDup (map eid turns) -> NoDup (map eid (userPromptsFrom page turns k)).
Proof.
  revert k. induction turns as [|t rest IH]; intros k H; simpl;
    [constructor|].
  inversion H as [|? ? Ht Hrest]; subst.
  destruct (negb (isElementVisible page t)); [apply IH, Hrest|].
  destruct (isUser (determineMessageRole t k)); [|apply IH, Hrest].
  simpl. constructor; [|apply IH, Hrest].
  intro Hin. apply Ht. apply in_map_iff in Hin.
  destruct Hin as (x & Hx & Hin). apply In_userPromptsFrom in Hin.
  destruct Hin as (j & Hn & _). apply in_map_iff. exists x.
  split; [exact Hx | apply (nth_error_In _ _ Hn)].
Qed.

(** X11: the prompts a scan leaves are visible turns of the page, and
    distinct when the turns are.  When at least one visible turn is
    classified as a user turn, the prompts are exactly the visible user
    turns, and the session tracker counts as many prompts; when none is,
    the prompts are all the visible turns and the session tracker counts
    none. *)
Theorem scan_policy page root rootAncestors :
  let turns := collectConversationTurns page root rootAncestors in
  let prompts := scan page (Some (root, rootAncestors)) in
  let count := getCurrentPromptCount page (Some (root, rootAncestors)) in
  (forall p, In p prompts -> In p turns /\ isElementVisible page p = true)
  /\ (NoDup (map eid turns) -> NoDup (map eid prompts))
  /\ ((exists i t, nth_error turns i = Some t /\ visibleUserTurn page t i) ->
      (forall p, In p prompts <->
         exists i, nth_error turns i = Some p /\ visibleUserTurn page p i)
      /\ count = List.length prompts)
  /\ (~ (exists i t, nth_error turns i = Some t /\ visibleUserTurn page t i) ->
      prompts = filter (isElementVisible page) turns /\ count = 0).
Proof.
  intros turns prompts count. subst prompts count. unfold scan,
    getCurrentPromptCount. fold turns. cbv zeta.
  pose proof (In_userPromptsFrom page turns 0) as Hin.
  pose proof (userPromptsFrom_distinct page turns 0) as Hnd.
  destruct (userPromptsFrom page turns 0) as [|u us] eqn:U.
  - assert (Hnone : ~ (exists i t, nth_error turns i = Some t
                                   /\ visibleUserTurn page t i)).
    { intros (i & t & Hn & Hv). apply (proj2 (Hin t)). exists i. auto. }
    destruct turns as [|t ts] eqn:T.
    + split; [intros p []|]. split; [intros _; constructor|].
      split; [intro H; contradiction|]. intros _. auto.
    + split.
      { intros p Hp. apply filter_In in Hp. exact Hp. }
      split; [apply distinct_filter|].
      split; [intro H; contradiction|]. intros _. auto.
  - assert (Hsome : exists i t, nth_error turns i = Some t
                                /\ visibleUserTurn page t i).
    { destruct (proj1 (Hin u) (or_introl eq_refl)) as (j & Hn & Hv).
      exists j, u. auto. }
    split.
    { intros p Hp. apply Hin in Hp. destruct Hp as (j & Hn & Hv & _).
      split; [apply (nth_error_In _ _ Hn) | exact Hv]. }
    split; [exact Hnd|].
    split; [intros _; split; [exact Hin | reflexivity]|].
    intro H. contradiction.
Qed.

Lemma scan_policy_witness :
  let page := plainPage (fun i => Nat.eqb i 3) in
  let turns := collectConversationTurns page threeTurnMain [] in
  let prompts := scan page (Some (threeTurnMain, [])) in
  map eid turns = [1; 2; 3]
  /\ map eid prompts = [1]
  /\ getCurrentPromptCount page (Some (threeTurnMain, [])) = 1
  /\ (forall p, In p prompts <->
        exists i, nth_error turns i = Some p /\ visibleUserTurn page p i).
Proof.
  intros page turns prompts.
  split; [reflexivity|]. split; [reflexivity|]. split; [reflexivity|].
  refine (proj1 (proj1 (proj2 (proj2
    (scan_policy page threeTurnMain []))) _)).
  exists 0, (wrappedTurn 1 "user"). split; [reflexivity|].
  split; reflexivity.
Defined.

End ScannerProofs.

(* ================================================================== *)
(** * More properties of selection and export                          *)
(* ================================================================== *)
Module CollectorMore.
Import Js Dom Roles Scanner ContextCollector SelectionMode CollectorSpec.
Import SelectionSpec.
Import JsFacts CollectorFacts SelectionProofs ExportProofs.
Local Open Scope nat_scope.

Section Sound.
Variable isThinkingIndicator : Element -> bool.
Variable extractTurnText : Element -> string.
Variable estimator : option (option TokenEstimator.Segmenter).

Local Abbreviation selectTurn := (selectTurn extractTurnText estimator).
Local Abbreviation toggleTurn := (toggleTurn extractTurnText estimator).
Local Abbreviation selectRange := (selectRange extractTurnText estimator).
Local Abbreviation entryOf := (entryOf extractTurnText estimator).
Local Abbreviation captured := (captured extractTurnText estimator).
Local Abbreviation handleTurnClick :=
  (handleTurnClick extractTurnText estimator).

Local Abbreviation sound := (sound extractTurnText estimator).
Local Abbreviation sessionSound := (sessionSound extractTurnText estimator).

Lemma selectTurn_sound (st : State) (i : nat) :
  sound st -> sound (selectTurn st i).
Proof.
  intros [Hw Hc]. split; [apply selectTurn_wellFormed, Hw|].
  rewrite selectTurn_spec.
  destruct (nth_error (allTurns st) i) as [turn|] eqn:E; [|exact Hc].
  destruct (has (selectedTurns st) (eid turn)); [exact Hc|].
  intros k e Hin. simpl in Hin. apply in_app_iff in Hin.
  destruct Hin as [Hin | [Heq | []]]; [exact (Hc k e Hin)|].
  injection Heq as <- <-. exists turn. simpl. auto.
Qed.

Lemma selectRange_sound (st : State) (start count : nat) :
  sound st -> sound (selectRange st start count).
Proof.
  revert st start. induction count as [|c IH]; intros st start H; simpl;
    [exact H|].
  apply IH, selectTurn_sound, H.
Qed.

Lemma toggleTurn_sound (st : State) (i : nat) :
  sound st -> sound (toggleTurn st i).
Proof.
  intros [Hw Hc]. split; [apply toggleTurn_wellFormed, Hw|].
  unfold ContextCollector.toggleTurn.
  destruct (nth_error (allTurns st) i) as [turn|] eqn:E; [|exact Hc].
  destruct (has (selectedTurns st) (eid turn)) eqn:Hh.
  - intros k e Hin. simpl in Hin. apply filter_In in Hin. apply Hc, Hin.
  - apply selectTurn_sound. split; assumption.
Qed.

Lemma handleTurnClick_sound (st : State) (i : nat) (shift : bool) :
  sound st -> sound (handleTurnClick st i shift).
Proof.
  intro H. unfold ContextCollector.handleTurnClick.
  destruct (shift && (lastClickedIndex st >=? 0)%Z).
  - exact (selectRange_sound st _ _ H).
  - exact (toggleTurn_sound st i H).
Qed.

Lemma clearSelection_sound (st : State) : sound (clearSelection st).
Proof.
  split; [split; simpl; [constructor | intros k e []] | intros k e []].
Qed.

Lemma selectRoleFrom_sound (st : State) role turns i :
  sound st ->
  sound (selectRoleFrom extractTurnText estimator st role turns i).
Proof.
  revert st i. induction turns as [|t rest IH]; intros st i H; simpl;
    [exact H|].
  apply IH. destruct (roleIs _ _); [apply selectTurn_sound, H | exact H].
Qed.

Lemma selectAll_sound (st : State) :
  sound st -> sound (selectAll extractTurnText estimator st).
Proof. apply selectRange_sound. Qed.

Lemma selectLast_sound (st : State) (n : Z) :
  sound (selectLast extractTurnText estimator st n).
Proof. apply selectRange_sound, clearSelection_sound. Qed.

Lemma selectByRole_sound (st : State) role :
  sound (selectByRole extractTurnText estimator st role).
Proof. apply selectRoleFrom_sound, clearSelection_sound. Qed.

Lemma sound_selected_in_scan (st : State) (k : nat) :
  sound st -> has (selectedTurns st) k = true ->
  In k (map eid (allTurns st)).
Proof.
  intros [[_ Hidx] _] Hk. apply has_In in Hk. unfold keys in Hk.
  apply in_map_iff in Hk. destruct Hk as ([k' e] & Hk & Hin). simpl in Hk.
  subst k'. destruct (Hidx k e Hin) as (el & Hn & <-).
  apply in_map. apply (nth_error_In _ _ Hn).
Qed.


Lemma sound_empty (st : State) : selectedTurns st = [] -> sound st.
Proof.
  intro E. split; [split|]; try (intros k e Hin); rewrite E in *;
    try constructor; destruct Hin.
Qed.

Lemma inMode_sound (s : Session) (f : State -> State) :
  (forall st, sound st -> sound (f st)) ->
  sessionSound s -> sessionSound (inMode s f).
Proof.
  intros Hf [Hs He]. unfold inMode.
  destruct (selectionMode s) eqn:M.
  - split; [apply Hf, Hs | discriminate].
  - split; [exact Hs | intros _; apply He; reflexivity].
Qed.

Lemma handle_sound (s : Session) (e : Event) :
  sessionSound s ->
  sessionSound (handle isThinkingIndicator extractTurnText estimator s e).
Proof.
  intro H. destruct e; simpl.
  - unfold toggleSelectionMode.
    destruct (selectionMode s) eqn:M.
    + split; [apply sound_empty; reflexivity | reflexivity].
    + split; [|discriminate]. apply sound_empty. simpl.
      apply (proj2 H M).
  - apply inMode_sound; [|exact H]. intros st. apply handleTurnClick_sound.
  - apply inMode_sound; [|exact H]. apply selectAll_sound.
  - apply inMode_sound; [|exact H]. intros st _. apply selectLast_sound.
  - apply inMode_sound; [|exact H]. intros st _. apply selectByRole_sound.
  - apply inMode_sound; [|exact H]. intros st _. apply clearSelection_sound.
  - apply inMode_sound; [|exact H]. intros st Hs. exact Hs.
  - destruct (selectionMode s); [|exact H].
    split; [apply sound_empty; reflexivity | reflexivity].
  - split; [apply sound_empty; reflexivity | reflexivity].
Qed.

Lemma run_sound (events : list Event) (s : Session) :
  sessionSound s ->
  sessionSound (run isThinkingIndicator extractTurnText estimator s events).
Proof.
  revert s. induction events as [|e rest IH]; intros s H; simpl; [exact H|].
  apply IH, handle_sound, H.
Qed.

(** X12: whatever the user does after the script is loaded, the
    selection holds no turn twice and only turns of the current scan,
    each entry carries the position of its turn and what [selectTurn]
    captures for it there, and outside selection mode the selection is
    empty. *)
Theorem session_selection_sound (delimiter : Delimiter)
    (events : list Event) :
  let s := run isThinkingIndicator extractTurnText estimator
               (loaded delimiter) events in
  wellFormed (collector s)
  /\ captured (collector s)
  /\ (forall k, has (selectedTurns (collector s)) k = true ->
        In k (map eid (allTurns (collector s))))
  /\ (selectionMode s = false -> selectedTurns (collector s) = []).
Proof.
  intro s.
  assert (H : sessionSound s).
  { apply run_sound. split; [apply sound_empty|]; reflexivity. }
  destruct H as [Hs He].
  split; [apply Hs|]. split; [apply Hs|].
  split; [intros k; apply sound_selected_in_scan, Hs | exact He].
Qed.

(** ** selectAll *)

Lemma selectRange_noop (st : State) (start count : nat) :
  (forall j el, start <= j < start + count ->
     nth_error (allTurns st) j = Some el ->
     has (selectedTurns st) (eid el) = true) ->
  selectRange st start count = st.
Proof.
  revert start. induction count as [|c IH]; intros start H; simpl;
    [reflexivity|].
  assert (E : selectTurn st start = st).
  { rewrite selectTurn_spec.
    destruct (nth_error (allTurns st) start) as [turn|] eqn:N; [|reflexivity].
    rewrite (H start turn) by (lia || exact N). reflexivity. }
  rewrite E. apply IH. intros j el Hj. apply H. lia.
Qed.

(** X13: after [selectAll] every scanned turn is selected, and selecting
    all again changes nothing: neither the entries nor their order. *)
Theorem selectAll_idempotent (st : State) :
  (forall el, In el (allTurns st) ->
     has (selectedTurns (selectAll extractTurnText estimator st)) (eid el)
     = true)
  /\ selectAll extractTurnText estimator
       (selectAll extractTurnText estimator st)
     = selectAll extractTurnText estimator st.
Proof.
  assert (All : forall el, In el (allTurns st) ->
    has (selectedTurns (selectAll extractTurnText estimator st)) (eid el)
    = true).
  { intros el Hin. apply has_In. unfold selectAll.
    apply selectRange_keys. right. apply In_nth_error in Hin.
    destruct Hin as (j & Hn). exists j, el. split; [|auto].
    assert (j < List.length (allTurns st))
      by (apply nth_error_Some; congruence). lia. }
  split; [exact All|].
  unfold selectAll at 1.
  assert (F : allTurns (selectAll extractTurnText estimator st) = allTurns st)
    by apply selectRange_frame.
  rewrite F. apply selectRange_noop. intros j el _ Hn. rewrite F in Hn.
  apply All. apply (nth_error_In _ _ Hn).
Qed.

(** ** Two clicks on the same turn *)

Lemma delete_absent (m : SelectionMap) (k : nat) :
  has m k = false -> delete m k = m.
Proof.
  induction m as [|[k' v] rest IH]; simpl; intro H; [reflexivity|].
  apply orb_false_iff in H. destruct H as [H1 H2]. rewrite H1. simpl.
  f_equal. apply IH, H2.
Qed.

Lemma delete_perm (m : SelectionMap) (k : nat) (e : Entry) :
  NoDup (keys m) -> In (k, e) m -> Permutation m (delete m k ++ [(k, e)]).
Proof.
  induction m as [|[k' v] rest IH]; simpl; intros Hnd Hin; [destruct Hin|].
  inversion Hnd as [|? ? Hnotin Hnd']; subst.
  destruct (Nat.eqb k' k) eqn:E; simpl.
  - apply Nat.eqb_eq in E. subst k'.
    assert (Hv : v = e).
    { destruct Hin as [Heq | Hin]; [congruence|].
      exfalso. apply Hnotin. unfold keys.
      change k with (fst (k, e)). apply in_map, Hin. }
    subst v. fold (delete rest k).
    rewrite delete_absent by (apply has_false; exact Hnotin).
    apply Permutation_cons_append.
  - apply Nat.eqb_neq in E. destruct Hin as [Heq | Hin]; [congruence|].
    apply perm_skip. apply IH; assumption.
Qed.

Lemma has_perm (m m' : SelectionMap) (k : nat) :
  Permutation m m' -> has m k = has m' k.
Proof.
  intro Hp. apply eq_true_iff_eq. rewrite !has_In. unfold keys.
  split; apply Permutation_in; [|symmetry]; apply Permutation_map, Hp.
Qed.

(** X14: a plain click on a turn toggles it, and a second plain click on
    the same turn undoes the first: the same turns are selected as
    before and the export is the same text in every format, although
    the entry of a turn that was selected is captured again and moves
    to the end of the map. *)
Theorem second_click_undoes_first (st : State) (i : nat) (turn : Element)
    (format : string) :
  wellFormed st -> captured st -> NoDup (map eid (allTurns st)) ->
  nth_error (allTurns st) i = Some turn ->
  let st1 := handleTurnClick st i false in
  let st2 := handleTurnClick st1 i false in
  has (selectedTurns st1) (eid turn)
    = negb (has (selectedTurns st) (eid turn))
  /\ (forall k, has (selectedTurns st2) k = has (selectedTurns st) k)
  /\ Permutation (selectedTurns st) (selectedTurns st2)
  /\ formatOutputAs st2 format = formatOutputAs st format.
Proof.
  intros Hw Hc Hnd Hn.
  unfold ContextCollector.handleTurnClick. simpl andb. cbv iota.
  destruct (has (selectedTurns st) (eid turn)) eqn:Hh.
  - (* selected: removed, then captured again *)
    assert (E1 : toggleTurn st i
                 = withSelection st (delete (selectedTurns st) (eid turn))).
    { unfold ContextCollector.toggleTurn. rewrite Hn, Hh. reflexivity. }
    rewrite E1. simpl.
    assert (Hd : has (delete (selectedTurns st) (eid turn)) (eid turn)
                 = false).
    { rewrite has_delete, Nat.eqb_refl. apply andb_false_r. }
    unfold ContextCollector.toggleTurn. simpl. rewrite Hn, Hd.
    rewrite selectTurn_spec. simpl. rewrite Hn, Hd. simpl.
    assert (Hin : In (eid turn, entryOf turn i) (selectedTurns st)).
    { apply has_In in Hh. unfold keys in Hh. apply in_map_iff in Hh.
      destruct Hh as ([k e0] & Hk & Hin). simpl in Hk. subst k.
      destruct (Hc _ _ Hin) as (el & Hel & Hid & He).
      assert (index e0 = i)
        by exact (AnchorFacts.NoDup_map_nth_error eid _ _ _ _ _ Hnd Hel Hn Hid).
      subst i. assert (el = turn) by congruence. subst el.
      rewrite <- He. exact Hin. }
    assert (Hp : Permutation (selectedTurns st)
                   (delete (selectedTurns st) (eid turn)
                    ++ [(eid turn, entryOf turn i)])).
    { apply delete_perm; [apply Hw | exact Hin]. }
    split; [reflexivity|].
    split; [intro k; symmetry; apply has_perm, Hp|].
    split; [exact Hp|].
    symmetry. apply formatOutputAs_ext; [|reflexivity]. simpl.
    apply sortedEntries_perm_eq; [apply wellFormed_positions, Hw | exact Hp].
  - (* not selected: captured, then removed *)
    assert (E1 : selectedTurns (toggleTurn st i)
                 = selectedTurns st ++ [(eid turn, entryOf turn i)]
                 /\ allTurns (toggleTurn st i) = allTurns st
                 /\ currentDelimiter (toggleTurn st i) = currentDelimiter st).
    { unfold ContextCollector.toggleTurn. rewrite Hn, Hh.
      rewrite selectTurn_spec, Hn, Hh. simpl. auto. }
    destruct E1 as (Es & Ea & Ed).
    assert (H1 : has (selectedTurns (toggleTurn st i)) (eid turn) = true).
    { rewrite Es. apply has_In. unfold keys. rewrite map_app.
      apply in_or_app. right. left. reflexivity. }
    assert (E2 : delete (selectedTurns st ++ [(eid turn, entryOf turn i)])
                   (eid turn) = selectedTurns st).
    { unfold delete. rewrite filter_app. fold (delete (selectedTurns st)
        (eid turn)). rewrite (delete_absent _ _ Hh). simpl.
      rewrite Nat.eqb_refl. simpl. apply app_nil_r. }
    set (t1 := toggleTurn st i) in *. clearbody t1.
    unfold ContextCollector.toggleTurn.
    cbn [allTurns selectedTurns lastClickedIndex currentDelimiter
         withSelection].
    rewrite Ea, Hn, H1.
    cbn [allTurns selectedTurns lastClickedIndex currentDelimiter
         withSelection].
    rewrite Es, E2.
    split; [reflexivity|]. split; [reflexivity|]. split; [reflexivity|].
    apply formatOutputAs_ext; [reflexivity | exact Ed].
Qed.

End Sound.

(** The second turn of four, selected and clicked twice. *)
Lemma second_click_undoes_first_witness :
  let st := clicks (entered fourTurns) [1; 2] in
  keys (selectedTurns st) = [11; 12]
  /\ keys (selectedTurns (clicks st [1])) = [12]
  /\ keys (selectedTurns (clicks st [1; 1])) = [12; 11]
  /\ formatOutputAs (clicks st [1; 1]) "plain" = formatOutputAs st "plain".
Proof.
  intro st.
  split; [reflexivity|]. split; [reflexivity|]. split; [reflexivity|].
  assert (Hs : sound textOf None st).
  { unfold st, clicks. simpl fold_left.
    apply handleTurnClick_sound, handleTurnClick_sound, sound_empty.
    reflexivity. }
  assert (Hnd : NoDup (map eid (allTurns st))).
  { change (map eid (allTurns st)) with [10; 11; 12; 13].
    repeat constructor; simpl; lia. }
  exact (proj2 (proj2 (proj2
    (second_click_undoes_first textOf None st 1 (turn 11 "assistant")
       "plain" (proj1 Hs) (proj2 Hs) Hnd eq_refl)))).
Defined.

(** ** The separator and the export *)
Section Separator.
Local Open Scope string_scope.

Lemma replaceEscape_nonempty (e : ascii) (r s : string) :
  r <> "" -> s <> "" -> replaceEscape e r s <> "".
Proof.
  intros Hr Hs. destruct s as [|a [|b rest]]; [congruence | discriminate|].
  cbn [replaceEscape]. destruct (Ascii.eqb a "\" && Ascii.eqb b e).
  - destruct r; [congruence | discriminate].
  - discriminate.
Qed.

Lemma replaceEscape_verbatim (e : ascii) (r s : string) :
  EstimatorSpec.allOf (fun c => negb (Ascii.eqb c "\")) s = true ->
  replaceEscape e r s = s.
Proof.
  induction s as [|a rest IH]; intro H; [reflexivity|].
  cbn [EstimatorSpec.allOf] in H. apply andb_true_iff in H.
  destruct H as [Ha Hrest]. apply negb_true_iff in Ha.
  cbn [replaceEscape]. destruct rest as [|b rest']; [reflexivity|].
  rewrite Ha. cbn [andb]. f_equal. apply IH, Hrest.
Qed.

Lemma truthy_nonempty (s : string) : truthy s = true <-> s <> "".
Proof.
  destruct s; simpl; split; intro H; try reflexivity; try discriminate.
  exfalso. apply H. reflexivity.
Qed.

(** X15: the separator of the plain-text export is never empty.  For
    the presets it is the preset's own text; an empty custom separator
    is replaced by a blank line; a custom separator without a backslash
    is used as typed, and the two characters backslash and n stand for a
    line feed. *)
Theorem separator_never_empty (st : State) :
  let d := currentDelimiter st in
  lookupPreset DELIMITER_PRESETS (preset d) <> None ->
  getDelimiterValue st <> ""
  /\ (preset d <> "custom" ->
      lookupPreset DELIMITER_PRESETS (preset d) = Some (getDelimiterValue st))
  /\ (preset d = "custom" -> custom d = "" ->
      getDelimiterValue st = LF ++ LF)
  /\ (preset d = "custom" -> custom d <> "" ->
      EstimatorSpec.allOf (fun c => negb (Ascii.eqb c "\")) (custom d) = true ->
      getDelimiterValue st = custom d)
  /\ (preset d = "custom" ->
      forall a b,
      EstimatorSpec.allOf (fun c => negb (Ascii.eqb c "\")) a = true ->
      EstimatorSpec.allOf (fun c => negb (Ascii.eqb c "\")) b = true ->
      custom d = a ++ "\n" ++ b ->
      getDelimiterValue st = a ++ LF ++ b).
Proof.
  intros d Hown. unfold getDelimiterValue. fold d.
  destruct (String.eqb (preset d) "custom") eqn:Ec.
  - apply String.eqb_eq in Ec.
    split.
    { apply replaceEscape_nonempty; [discriminate|].
      apply replaceEscape_nonempty; [discriminate|].
      destruct (custom d); simpl; discriminate. }
    split; [congruence|].
    split; [intros _ E; rewrite E; reflexivity|].
    split.
    { intros _ Hne Hv. apply truthy_nonempty in Hne. rewrite Hne.
      rewrite (replaceEscape_verbatim "n" LF _ Hv).
      apply replaceEscape_verbatim, Hv. }
    intros _ a b Ha Hb E.
    assert (Hne : truthy (custom d) = true).
    { rewrite E. destruct a; reflexivity. }
    rewrite Hne, E. clear E Hne.
    assert (R : forall r, replaceEscape "n" LF (a ++ "\n" ++ r)
                          = a ++ LF ++ replaceEscape "n" LF r).
    { intro r. induction a as [|c a IH]; [reflexivity|].
      cbn [EstimatorSpec.allOf] in Ha. apply andb_true_iff in Ha.
      destruct Ha as [Hc Ha]. apply negb_true_iff in Hc.
      change ((String c a ++ "\n" ++ r))
        with (String c (a ++ "\n" ++ r)).
      cbn [replaceEscape].
      destruct (a ++ "\n" ++ r) eqn:Ea.
      - destruct a; discriminate.
      - rewrite Hc. cbn [andb]. rewrite (IH Ha). reflexivity. }
    rewrite R, (replaceEscape_verbatim "n" LF _ Hb).
    apply replaceEscape_verbatim.
    assert (Happ : forall x y,
      EstimatorSpec.allOf (fun c => negb (Ascii.eqb c "\")) x = true ->
      EstimatorSpec.allOf (fun c => negb (Ascii.eqb c "\")) y = true ->
      EstimatorSpec.allOf (fun c => negb (Ascii.eqb c "\")) (x ++ y) = true).
    { intros x y Hx Hy. induction x as [|c x IH]; [exact Hy|].
      cbn [EstimatorSpec.allOf] in *. apply andb_true_iff in Hx.
      destruct Hx as [H1 H2]. simpl. rewrite H1. apply IH, H2. }
    apply Happ; [exact Ha|]. apply (Happ LF b); [reflexivity | exact Hb].
  - apply String.eqb_neq in Ec.
    assert (Hcases : preset d = "newline" \/ preset d = "dash"
                     \/ preset d = "equals").
    { revert Hown. cbn [lookupPreset DELIMITER_PRESETS].
      destruct (String.eqb "newline" (preset d)) eqn:E1;
        [apply String.eqb_eq in E1; auto|].
      destruct (String.eqb "dash" (preset d)) eqn:E2;
        [apply String.eqb_eq in E2; auto|].
      destruct (String.eqb "equals" (preset d)) eqn:E3;
        [apply String.eqb_eq in E3; auto|].
      destruct (String.eqb "custom" (preset d)) eqn:E4;
        [apply String.eqb_eq in E4; congruence|].
      intro H. exfalso. apply H. reflexivity. }
    split; [destruct Hcases as [E | [E | E]]; rewrite E; discriminate|].
    split; [intros _; destruct Hcases as [E | [E | E]]; rewrite E;
            reflexivity|].
    repeat split; intros; congruence.
Qed.

Lemma join_nonempty (sep x : string) (rest : list string) :
  x <> "" -> join sep (x :: rest) <> "".
Proof.
  intro H. destruct x as [|a x]; [congruence|].
  destruct rest; simpl; discriminate.
Qed.

Lemma sortedEntries_nil (m : SelectionMap) :
  sortedEntries m = [] <-> m = [].
Proof.
  split; intro H.
  - apply length_zero_iff_nil.
    unfold sortedEntries in H.
    erewrite <- sort_length. rewrite H. reflexivity.
  - rewrite H. reflexivity.
Qed.

(** X16: what [copyAs] writes to the clipboard.  With nothing selected
    it writes nothing for the plain and the XML format, and the empty
    array for JSON; with something selected it writes the export, which
    is not empty, for each of the three formats; for any other format
    name it writes nothing, whatever is selected. *)
Theorem copyAs_writes (st : State) (format : string) :
  (selectedTurns st = [] ->
   copyAs st format = if String.eqb format "json" then Some "[]" else None)
  /\ (selectedTurns st <> [] ->
      format = "plain" \/ format = "json" \/ format = "xml" ->
      formatOutputAs st format <> ""
      /\ copyAs st format = Some (formatOutputAs st format))
  /\ (format <> "plain" -> format <> "json" -> format <> "xml" ->
      copyAs st format = None).
Proof.
  split; [|split].
  - intro E. unfold copyAs, formatOutputAs. rewrite E.
    change (sortedEntries []) with (@nil (nat * Entry)).
    destruct (String.eqb format "plain") eqn:Ep.
    + apply String.eqb_eq in Ep. subst format. reflexivity.
    + destruct (String.eqb format "json"); [reflexivity|].
      destruct (String.eqb format "xml"); reflexivity.
  - intros Hne Hf.
    assert (N : formatOutputAs st format <> "").
    { unfold formatOutputAs.
      destruct (sortedEntries (selectedTurns st)) as [|x rest] eqn:Es.
      { exfalso. apply Hne, sortedEntries_nil, Es. }
      destruct Hf as [-> | [-> | ->]]; cbn [String.eqb Ascii.eqb Bool.eqb].
      + cbn [map]. apply join_nonempty.
        destruct (roleIs (role (snd x)) "user"); discriminate.
      + unfold JSON_stringify_2. cbn [map serializeJSON]. discriminate.
      + cbn [map]. apply join_nonempty. discriminate. }
    split; [exact N|]. unfold copyAs.
    apply truthy_nonempty in N. rewrite N. reflexivity.
  - intros Hp Hj Hx. unfold copyAs, formatOutputAs.
    apply String.eqb_neq in Hp, Hj, Hx. rewrite Hp, Hj, Hx. reflexivity.
Qed.

(** A custom separator with an escape. *)
Lemma separator_never_empty_witness :
  let st := mkState [] (-1) [] (mkDelimiter "custom" "--\n--") in
  getDelimiterValue st <> "" /\ getDelimiterValue st = "--" ++ LF ++ "--".
Proof.
  intro st.
  assert (H : lookupPreset DELIMITER_PRESETS (preset (currentDelimiter st))
              <> None) by discriminate.
  split.
  - exact (proj1 (separator_never_empty st H)).
  - apply (proj2 (proj2 (proj2 (proj2 (separator_never_empty st H)))));
      reflexivity.
Defined.

End Separator.

End CollectorMore.

(* ================================================================== *)
(** * Properties of the session tracker                                *)
(* ================================================================== *)
Module SessionProofs.
Import Js Dom Scanner SessionTracker SessionSpec.
Local Open Scope Z_scope.

Lemma floor_quotient (a b : Z) :
  Qfloor (inject_Z a / inject_Z b) = a / b.
Proof. symmetry. apply Zdiv_Qdiv. Qed.

(** X17: the age a time is shown with.  A time that is not set shows
    as the dash.  Otherwise the age [now - timestamp] is shown in whole
    days from one day on, in whole hours (1 to 23) from one hour on, in
    whole minutes (1 to 59) from one minute on, and as "under a minute"
    below that, and also when the time lies in the future.  The nested
    roundings of the code lose nothing: each count is the age divided by
    the length of the unit, rounded down. *)
Theorem formatCompactTime_units (now t : Z) :
  formatCompactTime now None = NoTime
  /\ formatCompactTime now (Some 0) = NoTime
  /\ (t <> 0 ->
      let age := now - t in
      (age < 60000 -> formatCompactTime now (Some t) = UnderMinute)
      /\ (60000 <= age < 3600000 ->
          formatCompactTime now (Some t) = Minutes (age / 60000)
          /\ 1 <= age / 60000 <= 59)
      /\ (3600000 <= age < 86400000 ->
          formatCompactTime now (Some t) = Hours (age / 3600000)
          /\ 1 <= age / 3600000 <= 23)
      /\ (86400000 <= age ->
          formatCompactTime now (Some t) = Days (age / 86400000)
          /\ 1 <= age / 86400000)).
Proof.
  split; [reflexivity|]. split; [reflexivity|].
  intros Ht age. unfold formatCompactTime, isSet.
  apply Z.eqb_neq in Ht. rewrite Ht. cbn [negb]. fold age.
  change (60000%Q) with (inject_Z 60000).
  change (60%Q) with (inject_Z 60).
  change (24%Q) with (inject_Z 24).
  rewrite !floor_quotient.
  assert (Eh : age / 60000 / 60 = age / 3600000)
    by (rewrite Z.div_div by lia; reflexivity).
  assert (Ed : age / 3600000 / 24 = age / 86400000)
    by (rewrite Z.div_div by lia; reflexivity).
  rewrite Eh, Ed.
  pose proof (Z.div_mod age 60000 ltac:(lia)) as D1.
  pose proof (Z.mod_pos_bound age 60000 ltac:(lia)) as B1.
  pose proof (Z.div_mod age 3600000 ltac:(lia)) as D2.
  pose proof (Z.mod_pos_bound age 3600000 ltac:(lia)) as B2.
  pose proof (Z.div_mod age 86400000 ltac:(lia)) as D3.
  pose proof (Z.mod_pos_bound age 86400000 ltac:(lia)) as B3.
  repeat split; intros;
    repeat match goal with
           | |- context [?a <? ?b] =>
               let E := fresh "E" in
               destruct (a <? b) eqn:E;
               [apply Z.ltb_lt in E | apply Z.ltb_ge in E]
           end; try reflexivity; try lia.
Qed.

Lemma formatCompactTime_units_witness :
  formatCompactTime 7500000 (Some 1000) = Hours 2.
Proof.
  assert (H : (1000 <> 0)%Z) by discriminate.
  exact (proj1 (proj1 (proj2 (proj2
    (proj2 (proj2 (formatCompactTime_units 7500000 1000)) H)))
    ltac:(split; reflexivity || discriminate))).
Defined.

(** ** One check *)

Lemma check_count (st : State) (o : Observation) :
  lastPromptCount (observe st o) = Nat.max (lastPromptCount st) (seen o).
Proof.
  unfold observe, checkForNewPrompts. fold (seen o).
  destruct (lastPromptCount st <? seen o)%nat eqn:E; simpl.
  - apply Nat.ltb_lt in E. lia.
  - apply Nat.ltb_ge in E. lia.
Qed.

Lemma check_start (st : State) (o : Observation) :
  sessionStartTime (observe st o) = sessionStartTime st
  \/ (sessionStartTime (observe st o) = Some (now o)
      /\ isSet (sessionStartTime st) = false
      /\ seen o = 1%nat /\ lastPromptCount st = 0%nat).
Proof.
  unfold observe, checkForNewPrompts. fold (seen o).
  destruct (lastPromptCount st <? seen o)%nat eqn:E;
    cbn [sessionStartTime]; [|auto].
  apply Nat.ltb_lt in E.
  destruct (isSet (sessionStartTime st)) eqn:S; cbn [negb andb]; [auto|].
  destruct (seen o =? 1)%nat eqn:E1; [|auto].
  apply Nat.eqb_eq in E1. right. repeat split; try assumption. lia.
Qed.

Lemma check_last (st : State) (o : Observation) :
  lastPromptTime (observe st o) = lastPromptTime st
  \/ (lastPromptTime (observe st o) = Some (now o)
      /\ (2 <= seen o)%nat /\ (lastPromptCount st < seen o)%nat).
Proof.
  unfold observe, checkForNewPrompts. fold (seen o).
  destruct (lastPromptCount st <? seen o)%nat eqn:E;
    cbn [lastPromptTime]; [|auto].
  apply Nat.ltb_lt in E.
  destruct (2 <=? seen o)%nat eqn:E2; [|auto].
  apply Nat.leb_le in E2. right. repeat split; assumption.
Qed.

Lemma observeAll_snoc (st : State) (l : list Observation) (o : Observation) :
  observeAll st (l ++ [o]) = observe (observeAll st l) o.
Proof. unfold observeAll. rewrite fold_left_app. reflexivity. Qed.

Lemma sorted_snoc (l : list Z) (x : Z) :
  StronglySorted Z.le (l ++ [x]) ->
  StronglySorted Z.le l /\ forall y, In y l -> y <= x.
Proof.
  induction l as [|a l IH]; simpl; intro H.
  - split; [constructor | intros y []].
  - inversion H as [|? ? Hs Hall]; subst.
    destruct (IH Hs) as [Hl Hx]. split.
    + constructor; [exact Hl|].
      rewrite Forall_forall in *. intros y Hy. apply Hall.
      apply in_or_app. left. exact Hy.
    + intros y [<- | Hy]; [|apply Hx, Hy].
      rewrite Forall_forall in Hall. apply Hall.
      apply in_or_app. right. left. reflexivity.
Qed.

(** ** A run of checks *)

Lemma tracked_run (c0 : nat) (l : list Observation) :
  StronglySorted Z.le (map now l) ->
  tracked c0 l (observeAll (mkState None None c0) l).
Proof.
  induction l as [|o l IH] using rev_ind; intro Hs.
  - split; [simpl; lia|]. split; intros ? H; discriminate H.
  - rewrite map_app in Hs. simpl in Hs. apply sorted_snoc in Hs.
    destruct Hs as [Hs Hle]. specialize (IH Hs).
    rewrite observeAll_snoc.
    set (st := observeAll (mkState None None c0) l) in *.
    destruct IH as (Hc & Hstart & Hlast).
    pose proof (check_count st o) as Ec.
    assert (Hin : forall x, In x l -> In x (l ++ [o]))
      by (intros x Hx; apply in_or_app; left; exact Hx).
    assert (Ho : In o (l ++ [o]))
      by (apply in_or_app; right; left; reflexivity).
    split; [lia|]. split.
    + intros s Es.
      destruct (check_start st o) as [Same | (New & _ & E1 & E0)].
      * rewrite Same in Es.
        destruct (Hstart s Es) as (H0 & H1 & (x & Hx & Hxs & Hx1) & Hsl).
        split; [exact H0|]. split; [lia|].
        split; [exists x; auto|].
        intros t Et.
        destruct (check_last st o) as [SameL | (NewL & _)].
        -- rewrite SameL in Et. apply Hsl, Et.
        -- rewrite NewL in Et. injection Et as <-.
           apply Hle. rewrite <- Hxs. apply in_map, Hx.
      * rewrite New in Es. injection Es as <-.
        split; [lia|]. split; [lia|]. split; [exists o; auto|].
        intros t Et.
        destruct (check_last st o) as [SameL | (_ & H2 & _)]; [|lia].
        rewrite SameL in Et. destruct (Hlast t Et) as (H2 & _). lia.
    + intros t Et.
      destruct (check_last st o) as [SameL | (NewL & H2 & _)].
      * rewrite SameL in Et. destruct (Hlast t Et) as (H2 & x & Hx & Hxt).
        split; [lia|]. exists x. auto.
      * rewrite NewL in Et. injection Et as <-.
        split; [lia|]. exists o. auto.
Qed.

Lemma kept_run (st0 : State) (l : list Observation) :
  (lastPromptCount st0 <= lastPromptCount (observeAll st0 l))%nat
  /\ (isSet (sessionStartTime st0) = true
      \/ (1 <= lastPromptCount st0)%nat ->
      sessionStartTime (observeAll st0 l) = sessionStartTime st0).
Proof.
  induction l as [|o l IH] using rev_ind; [split; [simpl; lia | reflexivity]|].
  rewrite observeAll_snoc. destruct IH as [Hc Hk].
  pose proof (check_count (observeAll st0 l) o) as Ec.
  split; [lia|]. intro H. rewrite <- (Hk H).
  destruct (check_start (observeAll st0 l) o) as [Same | (_ & F & _ & E0)];
    [exact Same|].
  rewrite (Hk H) in F. destruct H as [H | H]; [congruence | lia].
Qed.

(** X18: what a run of checks can record, the clock never going back.
    The count of prompts seen never goes down.  A start time that was
    loaded, or any start time once a prompt has been seen, is never
    replaced.  In a conversation entered with no stored data, a start
    time is recorded only by a check that sees exactly one prompt after
    the conversation was entered with none, and it is the time of that
    check; the time of the last prompt is the time of a check that saw
    two prompts or more, and it is never earlier than the start
    time. *)
Theorem session_times (p : Page) (m : option (Element * list Element))
    (existing : option SessionData) (l : list Observation) :
  StronglySorted Z.le (map now l) ->
  let st0 := initSession p m existing in
  let st := observeAll st0 l in
  (lastPromptCount st0 <= lastPromptCount st)%nat
  /\ (isSet (sessionStartTime st0) = true
      \/ (1 <= lastPromptCount st0)%nat ->
      sessionStartTime st = sessionStartTime st0)
  /\ (existing = None ->
      (forall s, sessionStartTime st = Some s ->
         getCurrentPromptCount p m = 0%nat
         /\ (exists o, In o l /\ now o = s /\ seen o = 1%nat)
         /\ (forall t, lastPromptTime st = Some t -> s <= t))
      /\ (forall t, lastPromptTime st = Some t ->
            (2 <= lastPromptCount st)%nat
            /\ exists o, In o l /\ now o = t /\ (2 <= seen o)%nat)).
Proof.
  intros Hs st0 st.
  destruct (kept_run st0 l) as [Hc Hk].
  split; [exact Hc|]. split; [exact Hk|].
  intros ->.
  destruct (tracked_run (getCurrentPromptCount p m) l Hs)
    as (_ & Hstart & Hlast).
  split; [|exact Hlast].
  intros s Es. destruct (Hstart s Es) as (H0 & _ & Ho & Hl). auto.
Qed.

(** A conversation entered empty; one prompt is seen at time 5000 and
    two at time 9000. *)
Lemma session_times_witness :
  let st := observeAll (initSession (fst noPrompt) (snd noPrompt) None)
                       [onePrompt 5000; twoPrompts 9000] in
  sessionStartTime st = Some 5000
  /\ lastPromptTime st = Some 9000
  /\ lastPromptCount st = 2%nat
  /\ forall s t, sessionStartTime st = Some s -> lastPromptTime st = Some t ->
       s <= t.
Proof.
  intro st.
  split; [reflexivity|]. split; [reflexivity|]. split; [reflexivity|].
  intros s t Es Et.
  assert (Hs : StronglySorted Z.le
                 (map now [onePrompt 5000; twoPrompts 9000])).
  { repeat constructor; discriminate. }
  exact (proj2 (proj2 (proj1 (proj2 (proj2
    (session_times (fst noPrompt) (snd noPrompt) None _ Hs)) eq_refl) s Es))
    t Et).
Defined.

End SessionProofs.

(* ================================================================== *)
(** * Properties of the token counter                                  *)
(* ================================================================== *)
Module CounterProofs.
Import Js Dom Roles TokenEstimator TokenCounter EstimatorSpec CounterSpec.
Import EstimatorProofs.
Local Open Scope nat_scope.
Local Open Scope string_scope.

Section Counter.
Variable exponentNotation : Q -> string.

Local Abbreviation formatBytes := (formatBytes exponentNotation).
Local Abbreviation parseBytesValue := (parseBytesValue exponentNotation).
Local Abbreviation resolveFromText := (resolveFromText exponentNotation).
Local Abbreviation resolveFromAttributes :=
  (resolveFromAttributes exponentNotation).
Local Abbreviation resolveAttachmentSize :=
  (resolveAttachmentSize exponentNotation).

(** ** What the matcher consumes *)

Lemma star_rest {A : Type} (p : ascii -> bool) (s : string)
    (k : string -> option A) (x : A) :
  star p s k = Some x ->
  exists rest, k rest = Some x /\ String.length rest <= String.length s.
Proof.
  induction s as [|c s IH]; simpl.
  - intro H. exists "". auto.
  - destruct (p c).
    + destruct (star p s k) as [y|] eqn:E.
      * intro H. injection H as ->. destruct (IH eq_refl) as (rest & Hk & Hl).
        exists rest. split; [exact Hk | lia].
      * intro H. exists (String c s). auto.
    + intro H. exists (String c s). auto.
Qed.

Lemma matchAt_rest {A : Type} (r : Regex) :
  forall (s : string) (k : string -> option A) (x : A),
  matchAt r s k = Some x ->
  exists rest, k rest = Some x
    /\ String.length rest <= String.length s
    /\ (consumes r = true -> String.length rest < String.length s).
Proof.
  induction r as [p | a IHa b IHb | a IHa b IHb | a IHa | p | p];
    intros s k x H; simpl in H.
  - destruct s as [|c s]; [discriminate|]. destruct (p c); [|discriminate].
    exists s. simpl. split; [exact H|]. split; lia.
  - destruct (IHa _ _ _ H) as (mid & Hb & La & Ca).
    destruct (IHb _ _ _ Hb) as (rest & Hk & Lb & Cb).
    exists rest. split; [exact Hk|]. split; [lia|].
    simpl. intro C. apply orb_true_iff in C.
    destruct C as [C | C]; [specialize (Ca C) | specialize (Cb C)]; lia.
  - destruct (matchAt a s k) as [y|] eqn:E.
    + injection H as ->. destruct (IHa _ _ _ E) as (rest & Hk & L & C).
      exists rest. split; [exact Hk|]. split; [exact L|].
      simpl. intro Hc. apply andb_true_iff in Hc. apply C, Hc.
    + destruct (IHb _ _ _ H) as (rest & Hk & L & C).
      exists rest. split; [exact Hk|]. split; [exact L|].
      simpl. intro Hc. apply andb_true_iff in Hc. apply C, Hc.
  - destruct (matchAt a s k) as [y|] eqn:E.
    + injection H as ->. destruct (IHa _ _ _ E) as (rest & Hk & L & _).
      exists rest. split; [exact Hk|]. split; [exact L | discriminate].
    + exists s. split; [exact H|]. split; [lia | discriminate].
  - destruct (star_rest p s k x H) as (rest & Hk & L).
    exists rest. split; [exact Hk|]. split; [exact L | discriminate].
  - destruct s as [|c s]; [discriminate|]. destruct (p c); [|discriminate].
    destruct (star_rest p s k x H) as (rest & Hk & L).
    exists rest. simpl. split; [exact Hk|]. split; lia.
Qed.

Lemma substring_length (s : string) (n : nat) :
  n <= String.length s -> String.length (substring 0 n s) = n.
Proof.
  revert n. induction s as [|c s IH]; intros [|n] H; simpl in *;
    try reflexivity; try lia.
  rewrite IH by lia. reflexivity.
Qed.

Lemma matchedAt_nonempty (r : Regex) (s m : string) :
  consumes r = true -> matchedAt r s = Some m -> m <> "".
Proof.
  intros C H. unfold matchedAt in H.
  destruct (matchAt r s Some) as [rest|] eqn:E; [|discriminate].
  injection H as <-.
  destruct (matchAt_rest r s Some rest E) as (rest' & Hk & L & Hc).
  injection Hk as ->. specialize (Hc C).
  intro Hm. apply (f_equal String.length) in Hm.
  rewrite substring_length in Hm by lia. simpl in Hm. lia.
Qed.

Lemma matchFirst_nonempty (r : Regex) (s m : string) :
  consumes r = true -> matchFirst r s = Some m -> m <> "".
Proof.
  intro C. induction s as [|c s IH]; simpl.
  - destruct (matchedAt r "") as [x|] eqn:E; [|discriminate].
    intro H. injection H as ->. apply (matchedAt_nonempty r "" m C E).
  - destruct (matchedAt r (String c s)) as [x|] eqn:E; [|exact IH].
    intro H. injection H as ->. apply (matchedAt_nonempty r _ m C E).
Qed.

(** ** What [parseBytesValue] returns *)

Lemma formatBytes_some (b : Q) :
  (0 < b)%Q -> exists t, formatBytes (Some (Num b)) = Some t /\ t <> "".
Proof.
  intro H. unfold TokenCounter.formatBytes.
  destruct (Qle_bool b 0) eqn:E.
  { apply Qle_bool_iff in E. exfalso. apply (Qlt_not_le _ _ H E). }
  destruct (scale 4 b 0) as [value unitIndex].
  eexists. split; [reflexivity|].
  destruct (toFixed exponentNotation value _); discriminate.
Qed.

Lemma numberTruthy_positive (n : Number) :
  numberTruthy (Some n) = true -> (forall q, n = Num q -> (0 <= q)%Q) ->
  exists q, n = Num q /\ (0 < q)%Q.
Proof.
  destruct n as [q|]; simpl; [|discriminate]. intros T P.
  exists q. split; [reflexivity|]. specialize (P q eq_refl).
  apply negb_true_iff in T.
  destruct (Qlt_le_dec 0 q) as [L | G]; [exact L|].
  assert (E : (q == 0)%Q) by (apply Qle_antisym; assumption).
  apply Qeq_bool_iff in E. congruence.
Qed.

Lemma positive_truthy (q : Q) : (0 < q)%Q -> numberTruthy (Some (Num q)) = true.
Proof.
  intro H. simpl. apply negb_true_iff.
  destruct (Qeq_bool q 0) eqn:E; [|reflexivity].
  apply Qeq_bool_iff in E. rewrite E in H. discriminate H.
Qed.

Lemma parsed_shape (value : option string) (src : string) (size : Size) :
  parseBytesValue value src = Some size ->
  exists t b,
    sizeText size = Some t /\ t <> ""
    /\ bytes size = Some (Num b) /\ (0 < b)%Q
    /\ source size = Some src.
Proof.
  unfold TokenCounter.parseBytesValue.
  destruct value as [v|]; [|discriminate].
  destruct (negb (truthy (trim v))); [discriminate|].
  destruct (matchFirst SIZE_PATTERN (trim v)) as [m|] eqn:M.
  - destruct (numberTruthy (Some (parseFileSizeToBytes m))) eqn:T.
    + intro H. injection H as <-.
      destruct (numberTruthy_positive _ T
                  (EstimatorMore.parseFileSizeToBytes_nonneg m))
        as (q & Eq & Hq).
      exists m, q. simpl. rewrite Eq.
      split; [reflexivity|].
      split; [apply (matchFirst_nonempty SIZE_PATTERN (trim v) m eq_refl M)|].
      auto.
    + destruct (negb (truthy (keepDigitsAndDots (trim v)))); [discriminate|].
      destruct (toNumber (keepDigitsAndDots (trim v))) as [b| |];
      [|discriminate|discriminate].
      destruct (Qle_bool b 0) eqn:E; [discriminate|].
      intro H. injection H as <-.
      assert (Hb : (0 < b)%Q).
      { apply Qnot_le_lt. intro L. apply Qle_bool_iff in L. congruence. }
      destruct (formatBytes_some b Hb) as (t & Et & Ht).
      exists t, b. simpl. auto.
  - destruct (negb (truthy (keepDigitsAndDots (trim v)))); [discriminate|].
    destruct (toNumber (keepDigitsAndDots (trim v))) as [b| |];
      [|discriminate|discriminate].
    destruct (Qle_bool b 0) eqn:E; [discriminate|].
    intro H. injection H as <-.
    assert (Hb : (0 < b)%Q).
    { apply Qnot_le_lt. intro L. apply Qle_bool_iff in L. congruence. }
    destruct (formatBytes_some b Hb) as (t & Et & Ht).
    exists t, b. simpl. auto.
Qed.

Lemma parsed_complete (value : option string) (src : string) (size : Size) :
  parseBytesValue value src = Some size -> complete size = true.
Proof.
  intro H. destruct (parsed_shape _ _ _ H) as (t & b & Et & Ht & Eb & Hb & _).
  unfold complete. rewrite Et, Eb, (positive_truthy b Hb). simpl.
  rewrite andb_true_r. apply truthy_true, Ht.
Qed.

(** X19: what [parseBytesValue] can return.  For [null] and for a blank
    text it returns [null].  A result always carries a size text that is
    not empty, a number of bytes that is positive, hence worth at least
    one token, and the source it was given. *)
Theorem parseBytesValue_result (value : option string) (src : string)
    (size : Size) :
  parseBytesValue None src = None
  /\ (forall v, trim v = "" -> parseBytesValue (Some v) src = None)
  /\ (parseBytesValue value src = Some size ->
      exists t b,
        sizeText size = Some t /\ t <> ""
        /\ bytes size = Some (Num b) /\ (0 < b)%Q
        /\ (1 <= estimateTokensFromBytes (Num b))%Z
        /\ source size = Some src).
Proof.
  split; [reflexivity|]. split.
  - intros v E. unfold TokenCounter.parseBytesValue. rewrite E. reflexivity.
  - intro H. destruct (parsed_shape _ _ _ H) as (t & b & Et & Ht & Eb & Hb & Es).
    exists t, b. repeat split; try assumption.
    unfold estimateTokensFromBytes.
    pose proof (positive_truthy b Hb) as T. simpl in T.
    apply negb_true_iff in T. rewrite T. lia.
Qed.

(** ** The first value that parses *)

Lemma resolveFromText_first (candidates : list (option string)) :
  resolveFromText None candidates
  = firstSome (fun c => parseBytesValue (fst c) (snd c))
              (map (fun c => (c, "text")) candidates).
Proof.
  induction candidates as [|c rest IH];
    cbn [TokenCounter.resolveFromText TokenCounter.resolveFromAttributes
         firstSome map fst snd]; [reflexivity|].
  destruct (parseBytesValue c "text") as [parsed|] eqn:P; [|exact IH].
  rewrite (parsed_complete _ _ _ P). reflexivity.
Qed.

Lemma resolveFromAttributes_first (candidates : list (string * string)) :
  resolveFromAttributes None candidates
  = firstSome (fun c => parseBytesValue (fst c) (snd c))
              (map (fun a => (Some (fst a), snd a)) candidates).
Proof.
  induction candidates as [|c rest IH];
    cbn [TokenCounter.resolveFromText TokenCounter.resolveFromAttributes
         firstSome map fst snd]; [reflexivity|].
  destruct (parseBytesValue (Some (fst c)) (snd c)) as [parsed|] eqn:P;
    [|exact IH].
  rewrite (parsed_complete _ _ _ P). reflexivity.
Qed.

Lemma resolveFromAttributes_kept (r : Size)
    (candidates : list (string * string)) :
  complete r = true -> resolveFromAttributes (Some r) candidates = Some r.
Proof.
  intro C. induction candidates as [|c rest IH];
    cbn [TokenCounter.resolveFromText TokenCounter.resolveFromAttributes
         firstSome map fst snd]; [reflexivity|].
  destruct (parseBytesValue (Some (fst c)) (snd c)) as [parsed|]; [|exact IH].
  assert (T : numberTruthy (bytes r) = true).
  { unfold complete in C. apply andb_true_iff in C. apply C. }
  rewrite T. cbn [negb andb]. rewrite C. reflexivity.
Qed.

Lemma firstSome_app {A B : Type} (f : A -> option B) (l1 l2 : list A) :
  firstSome f (l1 ++ l2)
  = match firstSome f l1 with
    | Some y => Some y
    | None => firstSome f l2
    end.
Proof.
  induction l1 as [|x l1 IH]; simpl; [reflexivity|].
  destruct (f x); [reflexivity | exact IH].
Qed.

(** X20: [resolveAttachmentSize] returns what the first value that
    parses gives, the candidates coming before the size attributes and
    these in their fixed order; later values are never looked at and
    nothing is merged.  Without such a value all three fields are
    [null]; otherwise the size text and the number of bytes are both
    present. *)
Theorem resolveAttachmentSize_first (element : Element)
    (candidates : list (option string)) :
  let found :=
    firstSome (fun c => parseBytesValue (fst c) (snd c))
              (sizeCandidates element candidates) in
  resolveAttachmentSize element candidates
  = match found with
    | Some size => size
    | None => mkSize None None None
    end
  /\ (found = None \/ complete (resolveAttachmentSize element candidates)
                     = true).
Proof.
  intro found.
  assert (E : resolveAttachmentSize element candidates
              = match found with
                | Some size => size
                | None => mkSize None None None
                end).
  { unfold found, sizeCandidates, TokenCounter.resolveAttachmentSize.
    rewrite firstSome_app, resolveFromText_first.
    destruct (firstSome _ (map (fun c => (c, "text")) candidates))
      as [r|] eqn:F.
    - apply firstSome_some in F. destruct F as (c & _ & P).
      rewrite (resolveFromAttributes_kept r _ (parsed_complete _ _ _ P)).
      reflexivity.
    - rewrite resolveFromAttributes_first. reflexivity. }
  split; [exact E|].
  rewrite E. destruct found as [size|] eqn:F; [right | left; reflexivity].
  apply firstSome_some in F. destruct F as (c & _ & P).
  apply (parsed_complete _ _ _ P).
Qed.

End Counter.

(** A name that holds no size, before a size. *)
Lemma parseBytesValue_result_witness :
  exists size,
    TokenCounter.parseBytesValue someExponent (Some "notes.txt 2 KB") "text"
    = Some size
    /\ sizeText size = Some "2 KB" /\ bytes size = Some (Num 2048).
Proof.
  eexists. split; [reflexivity|].
  destruct (proj2 (proj2 (parseBytesValue_result someExponent
              (Some "notes.txt 2 KB") "text" _)) eq_refl)
    as (t & b & Et & _ & Eb & _).
  split; reflexivity.
Defined.

(** ** The text of a number of bytes *)
Section RoundTrip.
Variable exponentNotation : Q -> string.

Lemma append_length (a b : string) :
  String.length (a ++ b) = String.length a + String.length b.
Proof. induction a as [|c a IH]; simpl; [reflexivity | rewrite IH; reflexivity]. Qed.

Lemma allOf_append (p : ascii -> bool) (a b : string) :
  allOf p (a ++ b) = allOf p a && allOf p b.
Proof.
  induction a as [|c a IH]; simpl; [reflexivity|].
  rewrite IH, andb_assoc. reflexivity.
Qed.

Lemma allOf_impl (p q : ascii -> bool) (s : string) :
  (forall c, p c = true -> q c = true) ->
  allOf p s = true -> allOf q s = true.
Proof.
  intro H. induction s as [|c s IH]; simpl; [reflexivity|].
  intro A. apply andb_true_iff in A. destruct A as [A1 A2].
  rewrite (H c A1), (IH A2). reflexivity.
Qed.

Lemma substring_piece_length (s : string) :
  forall n k, n + k <= String.length s ->
  String.length (substring n k s) = k.
Proof.
  induction s as [|c s IH]; intros [|n] [|k] H; simpl in *;
    try reflexivity; try lia.
  - rewrite (IH 0 k) by lia. reflexivity.
  - apply (IH n 0). lia.
  - apply (IH n (S k)). lia.
Qed.

Lemma substring_split (s : string) :
  forall n k, n + k = String.length s ->
  substring 0 n s ++ substring n k s = s.
Proof.
  induction s as [|c s IH]; intros [|n] [|k] H; simpl in *;
    try reflexivity; try lia.
  - f_equal. specialize (IH 0 k ltac:(lia)).
    destruct s; exact IH.
  - f_equal. apply (IH n 0). lia.
  - f_equal. apply (IH n (S k)). lia.
Qed.

Lemma digitsValueFrom_append (a b : string) :
  forall acc,
  digitsValueFrom acc (a ++ b) = digitsValueFrom (digitsValueFrom acc a) b.
Proof.
  induction a as [|c a IH]; intro acc; [reflexivity|].
  change (digitsValueFrom acc (String c a ++ b))
    with (digitsValueFrom (10 * acc + digitValue c) (a ++ b)).
  apply IH.
Qed.

Lemma digitsValueFrom_shift (s : string) :
  forall acc,
  digitsValueFrom acc s
  = (acc * 10 ^ Z.of_nat (String.length s) + digitsValue s)%Z.
Proof.
  unfold digitsValue. induction s as [|c s IH]; intro acc.
  - simpl. lia.
  - change (digitsValueFrom acc (String c s))
      with (digitsValueFrom (10 * acc + digitValue c) s).
    change (digitsValueFrom 0 (String c s))
      with (digitsValueFrom (10 * 0 + digitValue c) s).
    rewrite (IH (10 * acc + digitValue c)%Z), (IH (10 * 0 + digitValue c)%Z).
    change (String.length (String c s)) with (S (String.length s)).
    rewrite Nat2Z.inj_succ, Z.pow_succ_r by lia. ring.
Qed.

Lemma digitsValue_append (a b : string) :
  digitsValue (a ++ b)
  = (digitsValue a * 10 ^ Z.of_nat (String.length b) + digitsValue b)%Z.
Proof.
  unfold digitsValue at 1. rewrite digitsValueFrom_append.
  apply digitsValueFrom_shift.
Qed.

Lemma digitChar_digit (d : Z) :
  (0 <= d < 10)%Z ->
  digitValue (digitChar d) = d /\ isDigit (digitChar d) = true.
Proof.
  intro H.
  assert (C : (d = 0 \/ d = 1 \/ d = 2 \/ d = 3 \/ d = 4 \/ d = 5 \/ d = 6
               \/ d = 7 \/ d = 8 \/ d = 9)%Z) by lia.
  repeat (destruct C as [-> | C]; [split; reflexivity|]).
  subst d. split; reflexivity.
Qed.

Lemma digitsOf_spec (fuel : nat) :
  forall n acc,
  (0 <= n < 2 ^ Z.of_nat fuel)%Z -> allOf isDigit acc = true ->
  digitsValue (digitsOf fuel n acc)
  = (n * 10 ^ Z.of_nat (String.length acc) + digitsValue acc)%Z
  /\ allOf isDigit (digitsOf fuel n acc) = true
  /\ String.length acc <= String.length (digitsOf fuel n acc)
  /\ (fuel <> 0 -> String.length acc < String.length (digitsOf fuel n acc)).
Proof.
  induction fuel as [|fuel IH]; intros n acc Hn Hacc.
  - simpl in *. split; [lia|]. split; [exact Hacc|]. split; [lia|].
    intro F. contradiction.
  - cbn [digitsOf].
    assert (Hd : (0 <= n mod 10 < 10)%Z) by (apply Z.mod_pos_bound; lia).
    destruct (digitChar_digit _ Hd) as [Dv Dd].
    set (acc' := String (digitChar (n mod 10)) acc).
    assert (Va : digitsValue acc'
                 = ((n mod 10) * 10 ^ Z.of_nat (String.length acc)
                    + digitsValue acc)%Z).
    { unfold acc', digitsValue.
      change (digitsValueFrom 0 (String (digitChar (n mod 10)) acc))
        with (digitsValueFrom (10 * 0 + digitValue (digitChar (n mod 10)))
                acc).
      rewrite digitsValueFrom_shift, Dv. unfold digitsValue. lia. }
    assert (Da : allOf isDigit acc' = true).
    { unfold acc'. cbn [allOf]. rewrite Dd, Hacc. reflexivity. }
    destruct (n <? 10)%Z eqn:L.
    + apply Z.ltb_lt in L. rewrite Va.
      rewrite (Z.mod_small n 10) by lia.
      split; [reflexivity|]. split; [exact Da|].
      unfold acc'. cbn [String.length]. split; lia.
    + apply Z.ltb_ge in L.
      assert (Hq : (0 <= n / 10 < 2 ^ Z.of_nat fuel)%Z).
      { split; [apply Z.div_pos; lia|].
        apply Z.div_lt_upper_bound; [lia|].
        rewrite Nat2Z.inj_succ, Z.pow_succ_r in Hn by lia. lia. }
      destruct (IH (n / 10)%Z acc' Hq Da) as (V & D & Le & _).
      split.
      * rewrite V, Va. unfold acc'.
        change (String.length (String (digitChar (n mod 10)) acc))
          with (S (String.length acc)).
        rewrite Nat2Z.inj_succ, Z.pow_succ_r by lia.
        pose proof (Z.div_mod n 10 ltac:(lia)) as E.
        set (q := (n / 10)%Z) in *. set (d := (n mod 10)%Z) in *.
        clearbody q d. rewrite E. ring.
      * split; [exact D|]. unfold acc' in Le. cbn [String.length] in Le.
        fold acc' in Le. split; lia.
Qed.

Lemma integerDigits_spec (n : Z) :
  (0 <= n)%Z ->
  digitsValue (integerDigits n) = n
  /\ allOf isDigit (integerDigits n) = true
  /\ 1 <= String.length (integerDigits n).
Proof.
  intro H. unfold integerDigits.
  assert (Hn : (0 <= n < 2 ^ Z.of_nat (S (Z.to_nat (Z.log2 n))))%Z).
  { split; [exact H|].
    rewrite Nat2Z.inj_succ, Z2Nat.id by apply Z.log2_nonneg.
    destruct (Z.eq_dec n 0) as [-> | N]; [reflexivity|].
    apply Z.log2_spec. lia. }
  destruct (digitsOf_spec _ n "" Hn eq_refl) as (V & D & _ & L).
  split.
  { rewrite V. change (String.length "") with 0.
    change (digitsValue "") with 0%Z. change (Z.of_nat 0) with 0%Z.
    rewrite Z.pow_0_r. lia. }
  split; [exact D|].
  specialize (L ltac:(discriminate)). change (String.length "") with 0 in L.
  lia.
Qed.

Lemma zeros_spec (k : nat) :
  allOf isDigit (zeros k) = true
  /\ String.length (zeros k) = k
  /\ forall s, digitsValue (zeros k ++ s) = digitsValue s.
Proof.
  induction k as [|k (A & L & V)]; [repeat split|].
  split; [exact A|]. split; [simpl; rewrite L; reflexivity|].
  intro s. rewrite <- (V s). reflexivity.
Qed.

(** What [toFixed] writes: the digits of the rounded number, the last
    [f] of them after the point. *)
Lemma toFixed_spec (x : Q) (f : nat) :
  (0 <= x)%Q -> (x < inject_Z (10 ^ 21))%Q ->
  exists int frac,
    toFixed exponentNotation x f
    = (if Nat.eqb f 0 then int else int ++ "." ++ frac)
    /\ (f = 0 -> frac = "")
    /\ int <> "" /\ allOf isDigit int = true /\ allOf isDigit frac = true
    /\ String.length frac = f
    /\ (digitsValue int * 10 ^ Z.of_nat f + digitsValue frac)%Z
       = Qfloor (x * inject_Z (10 ^ Z.of_nat f) + (1 # 2))%Q.
Proof.
  intros H0 H21. unfold toFixed.
  assert (E : Qle_bool (inject_Z (10 ^ 21)) x = false).
  { destruct (Qle_bool (inject_Z (10 ^ 21)) x) eqn:E; [|reflexivity].
    apply Qle_bool_iff in E. exfalso. apply (Qlt_not_le _ _ H21 E). }
  rewrite E. set (n := Qfloor (x * inject_Z (10 ^ Z.of_nat f) + (1 # 2))%Q).
  assert (Hn : (0 <= n)%Z).
  { change 0%Z with (Qfloor 0). apply Qfloor_resp_le.
    assert (P : (0 <= inject_Z (10 ^ Z.of_nat f))%Q).
    { change 0%Q with (inject_Z 0). rewrite <- Zle_Qle.
      apply Z.pow_nonneg. lia. }
    pose proof (Qmult_le_0_compat _ _ H0 P). lra. }
  destruct (integerDigits_spec n Hn) as (V & D & L).
  destruct f as [|f'].
  - exists (integerDigits n), "". cbn [Nat.eqb].
    split; [reflexivity|]. split; [reflexivity|].
    split; [intro C; rewrite C in L; simpl in L; lia|].
    split; [exact D|]. split; [reflexivity|]. split; [reflexivity|].
    rewrite V. change (digitsValue "") with 0%Z.
    change (10 ^ Z.of_nat 0)%Z with 1%Z. lia.
  - cbn [Nat.eqb]. set (f := S f') in *.
    destruct (zeros_spec (f + 1 - String.length (integerDigits n)))
      as (ZA & ZL & ZV).
    set (m := zeros (f + 1 - String.length (integerDigits n))
              ++ integerDigits n) in *.
    assert (Lm : f + 1 <= String.length m).
    { unfold m. rewrite append_length, ZL. lia. }
    assert (Sp : substring 0 (String.length m - f) m
                 ++ substring (String.length m - f) f m = m)
      by (apply substring_split; lia).
    assert (Am : allOf isDigit m = true).
    { unfold m. rewrite allOf_append, ZA, D. reflexivity. }
    rewrite <- Sp, allOf_append in Am. apply andb_true_iff in Am.
    destruct Am as [Ai Af].
    assert (Lf : String.length (substring (String.length m - f) f m) = f)
      by (apply substring_piece_length; lia).
    exists (substring 0 (String.length m - f) m),
           (substring (String.length m - f) f m).
    split; [reflexivity|]. split; [discriminate|].
    split.
    { intro C. apply (f_equal String.length) in C.
      rewrite substring_piece_length in C by lia. simpl in C. lia. }
    split; [exact Ai|]. split; [exact Af|]. split; [exact Lf|].
    pose proof (digitsValue_append (substring 0 (String.length m - f) m)
                  (substring (String.length m - f) f m)) as DA.
    rewrite Lf, Sp in DA. rewrite <- DA.
    unfold m. rewrite ZV. exact V.
Qed.

Lemma removeAll_append (c : ascii) (a b : string) :
  removeAll c (a ++ b) = removeAll c a ++ removeAll c b.
Proof.
  induction a as [|x a IH]; simpl; [reflexivity|].
  destruct (Ascii.eqb x c); simpl; rewrite IH; reflexivity.
Qed.

Lemma removeAll_numeral (s : string) :
  allOf isDigitOrDot s = true -> removeAll "," s = s.
Proof.
  induction s as [|x s IH]; simpl; [reflexivity|].
  intro A. apply andb_true_iff in A. destruct A as [A1 A2].
  destruct (Ascii.eqb_spec x ","); [subst x; discriminate A1|].
  rewrite (IH A2). reflexivity.
Qed.

(** The text of a value and a unit parses back to the rounded value. *)
Lemma numeral_parses (x : Q) (f k : nat) :
  (0 <= x)%Q -> (x < inject_Z (10 ^ 21))%Q -> k <= 4 ->
  exists w v,
    parseFileSizeToBytes
      (toFixed exponentNotation x f ++ " " ++ nth k units "") = Num v
    /\ (v == w * 1024 ^ Z.of_nat k)%Q
    /\ (w * inject_Z (10 ^ Z.of_nat f)
        == inject_Z (Qfloor (x * inject_Z (10 ^ Z.of_nat f) + (1 # 2))))%Q.
Proof.
  intros H0 H21 Hk.
  destruct (toFixed_spec x f H0 H21)
    as (int & frac & Et & Ef & Ni & Ai & Af & Lf & V).
  set (numeral := toFixed exponentNotation x f) in *.
  assert (Pn : parseFloat numeral = Num (decimalValue int frac)).
  { rewrite Et. destruct (Nat.eqb_spec f 0) as [F | F].
    - rewrite (Ef F). apply parseFloat_integer; assumption.
    - apply parseFloat_decimal; auto. }
  assert (An : allOf isDigitOrDot numeral = true).
  { assert (Wi : forall s, allOf isDigit s = true ->
                           allOf isDigitOrDot s = true).
    { intros s. apply allOf_impl. intros c Hc. unfold isDigitOrDot.
      rewrite Hc. reflexivity. }
    rewrite Et. destruct (Nat.eqb f 0); [apply Wi, Ai|].
    rewrite !allOf_append, (Wi _ Ai), (Wi _ Af). reflexivity. }
  assert (Nn : numeral <> "").
  { rewrite Et. destruct (Nat.eqb f 0); [exact Ni|].
    destruct int; [contradiction | discriminate]. }
  assert (U : unitExponent (toLowerCase (nth k units ""))
              = Some (Z.of_nat k)).
  { destruct k as [|[|[|[|[|k]]]]]; try reflexivity. lia. }
  pose proof (parseFileSizeToBytes_recognized
                (numeral ++ " " ++ nth k units "") "" numeral " "
                (nth k units "") "" (Z.of_nat k)) as R.
  assert (Rm : removeAll "," (numeral ++ " " ++ nth k units "")
               = "" ++ numeral ++ " " ++ nth k units "" ++ "").
  { rewrite removeAll_append, (removeAll_numeral _ An).
    destruct k as [|[|[|[|[|k]]]]]; try reflexivity. lia. }
  specialize (R Rm eq_refl Nn An eq_refl U).
  rewrite Pn in R. cbn [times] in R.
  destruct (parseFileSizeToBytes (numeral ++ " " ++ nth k units ""))
    as [v|]; [|contradiction].
  exists (decimalValue int frac), v.
  split; [reflexivity|]. split; [exact R|].
  unfold decimalValue. rewrite Lf, <- V, inject_Z_plus, inject_Z_mult.
  assert (P : ~ (inject_Z (10 ^ Z.of_nat f) == 0)%Q).
  { change 0%Q with (inject_Z 0). rewrite inject_Z_injective.
    apply Z.pow_nonzero; lia. }
  field. exact P.
Qed.

Lemma div_1024 (x : Q) : (x / 1024 * 1024 == x)%Q.
Proof. field. Qed.

Lemma scale_cases (b : Q) :
  (0 < b)%Q ->
  exists k value,
    scale 4 b 0 = (value, k) /\ k <= 4
    /\ (b == value * 1024 ^ Z.of_nat k)%Q
    /\ (0 < value)%Q
    /\ ((1 <= value)%Q \/ k = 0)
    /\ (k < 4 -> (value < 1024)%Q).
Proof.
  intro H.
  assert (T : forall v, Qle_bool 1024 v = true -> (1024 <= v)%Q)
    by (intros v E; apply Qle_bool_iff, E).
  assert (F : forall v, Qle_bool 1024 v = false -> (v < 1024)%Q).
  { intros v E. apply Qnot_le_lt. intro L. apply Qle_bool_iff in L.
    congruence. }
  cbn [scale]. change (List.length units - 1) with 4.
  pose proof (div_1024 b) as D1. set (v1 := (b / 1024)%Q) in *.
  pose proof (div_1024 v1) as D2. set (v2 := (v1 / 1024)%Q) in *.
  pose proof (div_1024 v2) as D3. set (v3 := (v2 / 1024)%Q) in *.
  pose proof (div_1024 v3) as D4. set (v4 := (v3 / 1024)%Q) in *.
  destruct (Qle_bool 1024 b) eqn:C1; cbn [andb Nat.ltb Nat.leb].
  2:{ exists 0, b. apply F in C1. constants.
      split; [reflexivity|]. split; [lia|]. split; [lra|].
      split; [exact H|]. split; [right; reflexivity|]. intros _. exact C1. }
  apply T in C1.
  destruct (Qle_bool 1024 v1) eqn:C2; cbn [andb Nat.ltb Nat.leb].
  2:{ exists 1, v1. apply F in C2. constants.
      split; [reflexivity|]. split; [lia|]. split; [lra|].
      split; [lra|]. split; [left; lra|]. intros _. exact C2. }
  apply T in C2.
  destruct (Qle_bool 1024 v2) eqn:C3; cbn [andb Nat.ltb Nat.leb].
  2:{ exists 2, v2. apply F in C3. constants.
      split; [reflexivity|]. split; [lia|]. split; [lra|].
      split; [lra|]. split; [left; lra|]. intros _. exact C3. }
  apply T in C3.
  destruct (Qle_bool 1024 v3) eqn:C4; cbn [andb Nat.ltb Nat.leb].
  2:{ exists 3, v3. apply F in C4. constants.
      split; [reflexivity|]. split; [lia|]. split; [lra|].
      split; [lra|]. split; [left; lra|]. intros _. exact C4. }
  apply T in C4.
  exists 4, v4. constants.
  split; [reflexivity|]. split; [lia|]. split; [lra|].
  split; [lra|]. split; [left; lra|]. intro L. lia.
Qed.

(** X21: the text [formatBytes] writes for a number of bytes reads back
    as nearly the same number.  For a positive number [b], below the
    size from which the host writes an exponent, [formatBytes] gives a
    text, and [parseFileSizeToBytes] reads from it a number that
    differs from [b] by at most half a percent of [b], or by at most
    0.005 when [b] is below one byte. *)
Theorem formatBytes_parses_back (b : Q) :
  (0 < b)%Q -> (b < inject_Z (10 ^ 21) * 1024 ^ 4)%Q ->
  exists t v,
    formatBytes exponentNotation (Some (Num b)) = Some t
    /\ parseFileSizeToBytes t = Num v
    /\ (b - Qmax 1 b / 200 <= v)%Q /\ (v <= b + Qmax 1 b / 200)%Q.
Proof.
  intros Hb Hmax.
  destruct (scale_cases b Hb) as (k & value & Es & Hk & Eb & Hv & H1 & Hlt).
  unfold formatBytes.
  assert (E0 : Qle_bool b 0 = false).
  { destruct (Qle_bool b 0) eqn:E; [|reflexivity].
    apply Qle_bool_iff in E. exfalso. apply (Qlt_not_le _ _ Hb E). }
  rewrite E0, Es. cbv beta iota zeta.
  set (f := if Qle_bool 100 value then 0
            else if Qle_bool 10 value then 1 else 2).
  assert (H21 : (value < inject_Z (10 ^ 21))%Q).
  { destruct (Nat.eq_dec k 4) as [-> | N].
    - change (inject_Z (10 ^ 21)) with (1000000000000000000000 # 1)%Q in *.
      change (1024 ^ 4)%Q with (1099511627776 # 1)%Q in Hmax.
      constants. lra.
    - specialize (Hlt ltac:(lia)).
      change (inject_Z (10 ^ 21)) with (1000000000000000000000 # 1)%Q. lra. }
  destruct (numeral_parses value f k (Qlt_le_weak _ _ Hv) H21 Hk)
    as (w & v & Ep & Ev & Ew).
  exists (toFixed exponentNotation value f ++ " " ++ nth k units ""), v.
  split; [reflexivity|]. split; [exact Ep|].
  pose proof (Qfloor_le (value * inject_Z (10 ^ Z.of_nat f) + (1 # 2))) as Lo.
  pose proof (Qlt_floor (value * inject_Z (10 ^ Z.of_nat f) + (1 # 2))) as Hi.
  rewrite inject_Z_plus in Hi. change (inject_Z 1) with 1%Q in Hi.
  set (N := inject_Z
              (Qfloor (value * inject_Z (10 ^ Z.of_nat f) + (1 # 2)))) in *.
  clearbody N.
  assert (Hf : (f = 0 /\ (100 <= value)%Q)
               \/ (f = 1 /\ (10 <= value)%Q /\ (value < 100)%Q)
               \/ (f = 2 /\ (value < 10)%Q)).
  { unfold f.
    destruct (Qle_bool 100 value) eqn:C100.
    - left. split; [reflexivity|]. apply Qle_bool_iff, C100.
    - assert (value < 100)%Q.
      { apply Qnot_le_lt. intro L. apply Qle_bool_iff in L. congruence. }
      destruct (Qle_bool 10 value) eqn:C10.
      + right. left. split; [reflexivity|]. split; [|assumption].
        apply Qle_bool_iff, C10.
      + right. right. split; [reflexivity|].
        apply Qnot_le_lt. intro L. apply Qle_bool_iff in L. congruence. }
  clearbody f. clear Ep Es Hmax H21 E0.
  assert (D : (Qmax 1 b / 200 * 200 == Qmax 1 b)%Q) by field.
  set (M := Qmax 1 b) in *. set (e := (M / 200)%Q) in *.
  destruct (Q.max_spec 1 b) as [[Hm Em] | [Hm Em]]; fold M in Em;
    clearbody e M;
    assert (K : k = 0 \/ k = 1 \/ k = 2 \/ k = 3 \/ k = 4) by lia;
    destruct K as [-> | [-> | [-> | [-> | ->]]]];
    destruct Hf as [[-> Hf] | [[-> [Hf Hf']] | [-> Hf]]];
    constants;
    destruct H1 as [H1 | H1]; try discriminate H1;
    split; lra.
Qed.

End RoundTrip.

Lemma formatBytes_parses_back_witness :
  formatBytes someExponent (Some (Num 1536)) = Some "1.50 KB"
  /\ NumEq (parseFileSizeToBytes "1.50 KB") (Num 1536)
  /\ exists t v,
       formatBytes someExponent (Some (Num 1536)) = Some t
       /\ parseFileSizeToBytes t = Num v
       /\ (1536 - Qmax 1 1536 / 200 <= v)%Q
       /\ (v <= 1536 + Qmax 1 1536 / 200)%Q.
Proof.
  split; [reflexivity|]. split; [vm_compute; reflexivity|].
  apply (formatBytes_parses_back someExponent 1536); reflexivity.
Defined.

(** ** A size given as a plain number *)
Section PlainNumber.
Variable exponentNotation : Q -> string.

Lemma digit_classes (c : ascii) :
  isDigit c = true ->
  isWhiteSpace c = false
  /\ isDigitOrDot c = true
  /\ isSizeDigit c = true
  /\ Ascii.eqb (toLowerCaseUnit c) "b" = false
  /\ (let l := toLowerCaseUnit c in
      Ascii.eqb l "k" || Ascii.eqb l "m" || Ascii.eqb l "g"
      || Ascii.eqb l "t") = false.
Proof.
  destruct c as [[] [] [] [] [] [] [] []]; vm_compute; intro H;
    try discriminate H; repeat split.
Qed.

Lemma star_fails {A : Type} (p : ascii -> bool) (k : string -> option A)
    (s : string) :
  (forall t, allOf isDigit t = true -> k t = None) ->
  allOf isDigit s = true -> star p s k = None.
Proof.
  intro K. induction s as [|c s IH]; intro D; [apply K, D|].
  cbn [star]. pose proof D as D'. cbn [allOf] in D'.
  apply andb_true_iff in D'. destruct D' as [_ Ds].
  destruct (p c); [rewrite (IH Ds)|]; apply K, D.
Qed.

Lemma unit_fails (t : string) :
  allOf isDigit t = true ->
  matchAt (Seq (Star isWhiteSpace)
             (Alt (Seq kmgt (Seq (Opt (letter "i")) (letter "b")))
             (Alt (Seq (Opt kmgt) (letter "b"))
                  (Seq (letter "b") (Seq (letter "y") (Seq (letter "t")
                    (Seq (letter "e") (Opt (letter "s")))))))))
          t (@Some string) = None.
Proof.
  intro D. destruct t as [|c r]; [reflexivity|].
  cbn [allOf] in D. apply andb_true_iff in D. destruct D as [Dc _].
  destruct (digit_classes c Dc) as (W & _ & _ & B & K).
  cbn [matchAt star kmgt letter]. rewrite W. cbv zeta in K.
  rewrite K, B. reflexivity.
Qed.

Lemma digits_hold_no_size (s : string) :
  allOf isDigit s = true -> matchFirst SIZE_PATTERN s = None.
Proof.
  assert (Here : forall t, allOf isDigit t = true ->
                           matchedAt SIZE_PATTERN t = None).
  { intros t D. unfold matchedAt.
    assert (E : matchAt SIZE_PATTERN t (@Some string) = None).
    { unfold SIZE_PATTERN. cbn [matchAt]. destruct t as [|c r]; [reflexivity|].
      pose proof D as D'. cbn [allOf] in D'. apply andb_true_iff in D'.
      destruct D' as [Dc Dr].
      destruct (digit_classes c Dc) as (_ & _ & S & _). rewrite S.
      apply star_fails; [|exact Dr]. intros u Du.
      exact (unit_fails u Du). }
    rewrite E. reflexivity. }
  induction s as [|c s IH]; intro D.
  - cbn [matchFirst]. rewrite (Here "" D). reflexivity.
  - cbn [matchFirst]. rewrite (Here _ D).
    cbn [allOf] in D. apply andb_true_iff in D. apply IH, D.
Qed.

Lemma keepDigitsAndDots_numeral (s : string) :
  allOf isDigitOrDot s = true -> keepDigitsAndDots s = s.
Proof.
  induction s as [|c s IH]; intro D; [reflexivity|].
  cbn [allOf] in D. apply andb_true_iff in D. destruct D as [Dc Ds].
  cbn [keepDigitsAndDots]. rewrite Dc, (IH Ds). reflexivity.
Qed.

Lemma toNumber_digits (d : string) :
  allOf isDigit d = true ->
  toNumber d = ofDecimal (inject_Z (digitsValue d)).
Proof.
  intro D. unfold toNumber.
  rewrite <- (append_empty d) at 1. rewrite (takeDigits_all d "" D I).
  reflexivity.
Qed.

(** *** Integers in binary64 *)

Lemma pow2_natural (k : Z) : (0 <= k)%Z -> pow2 k = inject_Z (2 ^ k).
Proof.
  intro H. unfold pow2. destruct (0 <=? k)%Z eqn:E; [reflexivity|].
  apply Z.leb_gt in E. lia.
Qed.

Lemma pow2_fraction (k : Z) :
  (k <= 0)%Z -> (pow2 k == / inject_Z (2 ^ (- k)))%Q.
Proof.
  intro H. unfold pow2. destruct (0 <=? k)%Z eqn:E; [|reflexivity].
  apply Z.leb_le in E. assert (k = 0%Z) as -> by lia. reflexivity.
Qed.

Lemma binaryExponent_integer (n : Z) :
  (0 < n)%Z -> binaryExponent (inject_Z n) = Z.log2 n.
Proof.
  intro H. unfold binaryExponent. cbn [Qnum Qden inject_Z].
  change (Z.log2 1) with 0%Z. rewrite Z.sub_0_r.
  pose proof (Z.log2_nonneg n) as L.
  pose proof (Z.log2_spec n H) as [Lo _].
  rewrite (pow2_natural _ L). unfold Js.Qlt_bool.
  destruct (inject_Z n ?= inject_Z (2 ^ Z.log2 n))%Q eqn:C;
    try reflexivity.
  apply Qlt_alt in C. rewrite <- Zlt_Qlt in C. lia.
Qed.

Lemma roundTiesToEven_integer (q : Q) (z : Z) :
  (q == inject_Z z)%Q -> roundTiesToEven q = z.
Proof.
  intro E. unfold roundTiesToEven.
  assert (F : Qfloor q = z) by (rewrite E; apply Qfloor_Z).
  rewrite F.
  assert (C : (q - inject_Z z ?= 1 # 2)%Q = Lt).
  { apply Qlt_alt. rewrite E. unfold Qminus. rewrite Qplus_opp_r.
    reflexivity. }
  rewrite C. reflexivity.
Qed.

Lemma roundTiesToEven_floor (q : Q) : (Qfloor q <= roundTiesToEven q)%Z.
Proof.
  unfold roundTiesToEven.
  destruct (q - inject_Z (Qfloor q) ?= 1 # 2)%Q; [|lia|lia].
  destruct (Z.even (Qfloor q)); lia.
Qed.

Lemma inject_Z_positive (z : Z) : (0 < z)%Z -> (0 < inject_Z z)%Q.
Proof. intro H. change 0%Q with (inject_Z 0). rewrite <- Zlt_Qlt. exact H. Qed.

Lemma positive_not_le (q : Q) : (0 < q)%Q -> Qle_bool q 0 = false.
Proof.
  intro H. destruct (Qle_bool q 0) eqn:E; [|reflexivity].
  apply Qle_bool_iff in E. exfalso. exact (Qlt_not_le _ _ H E).
Qed.

(** An integer below [2^53] is a binary64 value. *)
Lemma toBinary64_exact (n : Z) :
  (0 < n < 2 ^ 53)%Z ->
  exists b, toBinary64 (inject_Z n) = Some b /\ (b == inject_Z n)%Q.
Proof.
  intros [Pn Hn]. unfold toBinary64.
  rewrite (positive_not_le _ (inject_Z_positive n Pn)).
  rewrite (binaryExponent_integer n Pn).
  pose proof (Z.log2_nonneg n) as L0.
  assert (L : (Z.log2 n < 53)%Z) by (apply Z.log2_lt_pow2; lia).
  rewrite Z.max_l by lia.
  set (e := Z.log2 n) in *. set (j := (52 - e)%Z).
  assert (U : (pow2 (e - 52) == / inject_Z (2 ^ j))%Q).
  { rewrite pow2_fraction by lia. unfold j.
    replace (- (e - 52))%Z with (52 - e)%Z by lia. reflexivity. }
  assert (Pj : (0 < 2 ^ j)%Z) by (apply Z.pow_pos_nonneg; unfold j; lia).
  assert (Nj : ~ (inject_Z (2 ^ j) == 0)%Q).
  { intro Z0. pose proof (inject_Z_positive _ Pj) as P. rewrite Z0 in P.
    discriminate P. }
  assert (R : roundTiesToEven (inject_Z n / pow2 (e - 52)) = (n * 2 ^ j)%Z).
  { apply roundTiesToEven_integer. rewrite U, inject_Z_mult.
    field. exact Nj. }
  rewrite R.
  assert (V : (inject_Z (n * 2 ^ j) * pow2 (e - 52) == inject_Z n)%Q).
  { rewrite U, inject_Z_mult. field. exact Nj. }
  assert (B : Qle_bool (pow2 1024)
                (inject_Z (n * 2 ^ j) * pow2 (e - 52)) = false).
  { destruct (Qle_bool (pow2 1024) _) eqn:E; [|reflexivity].
    apply Qle_bool_iff in E. rewrite V in E.
    rewrite (pow2_natural 1024) in E by lia.
    rewrite <- Zle_Qle in E.
    assert (2 ^ 53 < 2 ^ 1024)%Z by (apply Z.pow_lt_mono_r; lia). lia. }
  rewrite B. eexists. split; [reflexivity|exact V].
Qed.

(** An integer of [2^1024] or more is [Infinity]. *)
Lemma toBinary64_overflow (n : Z) :
  (2 ^ 1024 <= n)%Z -> toBinary64 (inject_Z n) = None.
Proof.
  intro Hn.
  assert (P1024 : (0 < 2 ^ 1024)%Z) by (apply Z.pow_pos_nonneg; lia).
  assert (Pn : (0 < n)%Z) by lia.
  unfold toBinary64.
  rewrite (positive_not_le _ (inject_Z_positive n Pn)).
  rewrite (binaryExponent_integer n Pn).
  assert (L : (1024 <= Z.log2 n)%Z).
  { apply Z.log2_le_pow2; [exact Pn|exact Hn]. }
  pose proof (Z.log2_spec n Pn) as [Lo _].
  rewrite Z.max_l by lia.
  set (e := Z.log2 n) in *. set (k := (e - 52)%Z).
  rewrite (pow2_natural k) by (unfold k; lia).
  rewrite (pow2_natural 1024) by lia.
  assert (Pk : (0 < 2 ^ k)%Z) by (apply Z.pow_pos_nonneg; unfold k; lia).
  assert (Nk : ~ (inject_Z (2 ^ k) == 0)%Q).
  { intro Z0. pose proof (inject_Z_positive _ Pk) as P. rewrite Z0 in P.
    discriminate P. }
  assert (S : (2 ^ e = 2 ^ 52 * 2 ^ k)%Z).
  { rewrite <- Z.pow_add_r by (unfold k; lia). f_equal. unfold k. lia. }
  assert (F : (2 ^ 52 <= Qfloor (inject_Z n / inject_Z (2 ^ k)))%Z).
  { rewrite <- (Qfloor_Z (2 ^ 52)). apply Qfloor_resp_le.
    apply Qle_shift_div_l; [apply inject_Z_positive, Pk|].
    rewrite <- inject_Z_mult, <- Zle_Qle. lia. }
  pose proof (roundTiesToEven_floor (inject_Z n / inject_Z (2 ^ k))) as R.
  set (r := roundTiesToEven (inject_Z n / inject_Z (2 ^ k))) in *.
  assert (E : Qle_bool (inject_Z (2 ^ 1024)) (inject_Z r * inject_Z (2 ^ k))
              = true).
  { apply Qle_bool_iff. rewrite <- inject_Z_mult, <- Zle_Qle.
    assert (2 ^ 1024 <= 2 ^ e)%Z by (apply Z.pow_le_mono_r; lia).
    nia. }
  rewrite E. reflexivity.
Qed.

(** X23: a value that is a plain decimal number, white space around it
    apart, is read as that many bytes, in binary64.  With [n] the number
    written, [parseBytesValue] returns the binary64 value of [n] as the
    bytes, the text [formatBytes] writes for it as the size text, and
    the source it was given; it returns [null] where that value is 0 or
    [Infinity].  So for the number 0 it returns [null]; for [n] below
    [2^53] the bytes are [n] itself; and for [n] of [2^1024] or more,
    where [Number.isFinite] fails, it returns [null]. *)
Theorem plain_number_is_bytes (v d src : string) :
  trim v = d -> d <> "" -> allOf isDigit d = true ->
  let n := digitsValue d in
  let result := parseBytesValue exponentNotation (Some v) src in
  let sized (b : Q) :=
    Some (mkSize (formatBytes exponentNotation (Some (Num b)))
                 (Some (Num b)) (Some src)) in
  result = match toBinary64 (inject_Z n) with
           | Some b => if Qle_bool b 0 then None else sized b
           | None => None
           end
  /\ (n = 0%Z -> result = None)
  /\ ((0 < n < 2 ^ 53)%Z ->
      exists b, (b == inject_Z n)%Q /\ result = sized b)
  /\ ((2 ^ 1024 <= n)%Z -> result = None).
Proof.
  intros Ev Hd D n result sized.
  assert (General :
    result = match toBinary64 (inject_Z n) with
             | Some b => if Qle_bool b 0 then None else sized b
             | None => None
             end).
  { unfold result, parseBytesValue. rewrite Ev.
    apply truthy_true in Hd. rewrite Hd. cbn [negb].
    rewrite (digits_hold_no_size d D).
    assert (Dd : allOf isDigitOrDot d = true).
    { revert D. apply allOf_impl. intros c Hc.
      apply (digit_classes c Hc). }
    rewrite (keepDigitsAndDots_numeral d Dd), Hd. cbn [negb].
    rewrite (toNumber_digits d D). fold n. unfold ofDecimal.
    destruct (toBinary64 (inject_Z n)); reflexivity. }
  split; [exact General|]. split; [|split].
  - intro Z0. rewrite General, Z0. reflexivity.
  - intro Hn. destruct (toBinary64_exact n Hn) as (b & Eb & Hb).
    exists b. split; [exact Hb|]. rewrite General, Eb.
    rewrite positive_not_le; [reflexivity|].
    rewrite Hb. apply inject_Z_positive, Hn.
  - intro Hn. rewrite General, (toBinary64_overflow n Hn). reflexivity.
Qed.

End PlainNumber.

Lemma plain_number_is_bytes_witness :
  exists b, (b == 2048)%Q
    /\ TokenCounter.parseBytesValue someExponent (Some " 2048 ")
         "attr:data-size"
       = Some (mkSize (formatBytes someExponent (Some (Num b)))
                      (Some (Num b)) (Some "attr:data-size")).
Proof.
  apply (plain_number_is_bytes someExponent " 2048 " "2048" "attr:data-size"
           eq_refl ltac:(discriminate) eq_refl).
  vm_compute. split; reflexivity.
Defined.

(** [Number('9007199254740993')] is 9007199254740992: above [2^53] the
    odd integers are not binary64 values. *)
Lemma toNumber_rounds :
  exists b, toNumber "9007199254740993" = Finite b
            /\ (b == 9007199254740992)%Q.
Proof. eexists. split; [vm_compute; reflexivity|vm_compute; reflexivity]. Qed.

(** One tenth is not a binary64 value; the largest one is
    [2^1024 - 2^971], and halfway from it to [2^1024] the rounding
    overflows. *)
Lemma toBinary64_values :
  option_map Qred (toBinary64 (1 # 10))
  = Some (3602879701896397 # 36028797018963968)
  /\ option_map Qred (toBinary64 (inject_Z (2 ^ 1024 - 2 ^ 970 - 1)))
     = Some (inject_Z (2 ^ 1024 - 2 ^ 971))
  /\ toBinary64 (inject_Z (2 ^ 1024 - 2 ^ 970)) = None.
Proof. vm_compute. repeat split; reflexivity. Qed.

(** A 1 followed by 309 zeros is [Infinity], and [parseBytesValue]
    returns [null] for it. *)
Lemma toNumber_overflows :
  let numeral := String "1" (zeros 309) in
  toNumber numeral = Infinity
  /\ TokenCounter.parseBytesValue someExponent (Some numeral) "text" = None.
Proof. vm_compute. split; reflexivity. Qed.

(** ** A size written with a unit *)
Section SizeText.
Variable exponentNotation : Q -> string.

Lemma SIZE_PATTERN_parts :
  SIZE_PATTERN
  = Seq (Plus isSizeDigit) (Seq (Star isWhiteSpace) unitPattern).
Proof. reflexivity. Qed.

Lemma append_assoc3 (a b c : string) : (a ++ b) ++ c = a ++ b ++ c.
Proof. induction a as [|x a IH]; simpl; [|rewrite IH]; reflexivity. Qed.

Lemma star_longest {A : Type} (p : ascii -> bool) (k : string -> option A)
    (a b : string) (x : A) :
  allOf p a = true -> stopsAt p b -> k b = Some x ->
  star p (a ++ b) k = Some x.
Proof.
  intros Ha Hb Hk. induction a as [|c a IH].
  - destruct b as [|c b]; [exact Hk|]. cbn [append star].
    simpl in Hb. rewrite Hb. exact Hk.
  - cbn [allOf] in Ha. apply andb_true_iff in Ha. destruct Ha as [Hc Ha].
    change (String c a ++ b) with (String c (a ++ b)).
    cbn [star]. rewrite Hc, (IH Ha). reflexivity.
Qed.

Lemma space_class (c : ascii) :
  isWhiteSpace c = true ->
  isSizeDigit c = false /\ Ascii.eqb c "," = false.
Proof.
  destruct c as [[] [] [] [] [] [] [] []]; vm_compute; intro H;
    try discriminate H; split; reflexivity.
Qed.

Lemma unit_class (c : ascii) :
  isUnitLetter (toLowerCaseUnit c) = true ->
  isSizeDigit c = false /\ isWhiteSpace c = false
  /\ Ascii.eqb c "," = false.
Proof.
  destruct c as [[] [] [] [] [] [] [] []]; vm_compute; intro H;
    try discriminate H; repeat split.
Qed.

Lemma numeral_class (c : ascii) :
  isDigitOrDot c = true -> isSizeDigit c = true.
Proof.
  destruct c as [[] [] [] [] [] [] [] []]; vm_compute; intro H;
    try discriminate H; reflexivity.
Qed.

(** The unit part of the pattern matches each unit of the estimator as
    written, whatever follows. *)
Lemma unit_matches (u post : string) (k : Z) :
  unitExponent (toLowerCase u) = Some k ->
  matchAt unitPattern (u ++ post) (@Some string) = Some post
  /\ removeAll "," u = u.
Proof.
  intro H. apply unit_cases in H.
  assert (NC : forall a l, toLowerCaseUnit a = l ->
                 Ascii.eqb l "," = false -> Ascii.eqb a "," = false).
  { intros a l <- Hl. destruct (Ascii.eqb_spec a ","); [|reflexivity].
    subst a. discriminate Hl. }
  destruct H as [[H _]|[[H _]|[[H _]|[[H _]|[[H _]|[[H _]|[[H _]|[[H _]|[H _]]]]]]]]];
    destruct u as [|a [|b [|c [|d u']]]]; cbn [toLowerCase] in H;
    try discriminate H; injection H as; subst;
    repeat match goal with
           | E : toLowerCaseUnit ?x = ?l |- _ =>
               pose proof (NC x l E eq_refl); revert E
           end; intros;
    (split;
     [ unfold unitPattern; cbn [append matchAt letter kmgt];
       repeat match goal with
              | E : toLowerCaseUnit _ = _ |- _ => rewrite E
              end; reflexivity
     | cbn [removeAll];
       repeat match goal with
              | E : Ascii.eqb _ "," = false |- _ => rewrite E
              end; reflexivity ]).
Qed.

Lemma prefix_skipped (pre s : string) :
  allOf (fun c => negb (isSizeDigit c)) pre = true ->
  matchFirst SIZE_PATTERN (pre ++ s) = matchFirst SIZE_PATTERN s.
Proof.
  induction pre as [|c pre IH]; intro H; [reflexivity|].
  cbn [allOf] in H. apply andb_true_iff in H. destruct H as [Hc Hp].
  apply negb_true_iff in Hc.
  change (String c pre ++ s) with (String c (pre ++ s)).
  cbn [matchFirst]. unfold matchedAt at 1. rewrite SIZE_PATTERN_parts.
  cbn [matchAt]. rewrite Hc. rewrite <- SIZE_PATTERN_parts. apply IH, Hp.
Qed.

Lemma matchFirst_here (r : Regex) (s m : string) :
  matchedAt r s = Some m -> matchFirst r s = Some m.
Proof. intro H. destruct s; cbn [matchFirst]; rewrite H; reflexivity. Qed.

Lemma removeAll_space (s : string) :
  allOf isWhiteSpace s = true -> removeAll "," s = s.
Proof.
  induction s as [|c s IH]; intro H; [reflexivity|].
  cbn [allOf] in H. apply andb_true_iff in H. destruct H as [Hc Hs].
  cbn [removeAll]. rewrite (proj2 (space_class c Hc)).
  rewrite (IH Hs). reflexivity.
Qed.

(** X24: a size written as a number and a unit is read with the
    estimator's value.  When the text, trimmed, holds no digit, dot or
    comma before a run [n] of digits and dots, followed by optional
    white space and a unit of the estimator in any letter case, and [n]
    reads as a positive number [q], [parseBytesValue] returns the number,
    the white space and the unit as the size text, [q] times the unit's
    power of 1024 as the bytes, and the source it was given. *)
Theorem size_text_is_read (v pre n ws u post src : string) (k : Z) (q : Q) :
  trim v = pre ++ n ++ ws ++ u ++ post ->
  allOf (fun c => negb (isSizeDigit c)) pre = true ->
  n <> "" -> allOf isDigitOrDot n = true ->
  allOf isWhiteSpace ws = true ->
  unitExponent (toLowerCase u) = Some k ->
  parseFloat n = Num q -> (0 < q)%Q ->
  exists b,
    parseBytesValue exponentNotation (Some v) src
    = Some (mkSize (Some (n ++ ws ++ u)) (Some (Num b)) (Some src))
    /\ (b == q * 1024 ^ k)%Q.
Proof.
  intros Ev Hpre Hn Dn Dw Hu Pq Hq.
  destruct (unit_matches u post k Hu) as [Mu Ru].
  (* the pattern matches the number, the white space and the unit *)
  assert (M : matchFirst SIZE_PATTERN (trim v) = Some (n ++ ws ++ u)).
  { rewrite Ev, (prefix_skipped _ _ Hpre). apply matchFirst_here.
    unfold matchedAt.
    assert (E : matchAt SIZE_PATTERN (n ++ ws ++ u ++ post) (@Some string)
                = Some post).
    { rewrite SIZE_PATTERN_parts. cbn [matchAt].
      destruct n as [|c n']; [contradiction|].
      cbn [allOf] in Dn. apply andb_true_iff in Dn. destruct Dn as [Dc Dn'].
      change (String c n' ++ ws ++ u ++ post)
        with (String c (n' ++ ws ++ u ++ post)).
      cbv iota. rewrite (numeral_class c Dc).
      apply star_longest.
      - revert Dn'. apply allOf_impl. exact numeral_class.
      - apply (stopsAt_unit _ _ _ _ k); auto.
        + intros x Hx. apply (space_class x Hx).
        + intros x Hx. apply (unit_class x Hx).
      - apply star_longest; [exact Dw| |exact Mu].
        destruct (unit_first_letter u k Hu) as (x & r & -> & Hx).
        simpl. apply (unit_class x Hx). }
    rewrite E. f_equal.
    rewrite <- !append_assoc3, append_length.
    replace (String.length ((n ++ ws) ++ u) + String.length post
             - String.length post)
      with (String.length ((n ++ ws) ++ u)) by lia.
    apply substring_prefix. }
  (* the estimator reads the same number and unit *)
  pose proof (parseFileSizeToBytes_recognized (n ++ ws ++ u) "" n ws u ""
                k) as R.
  assert (Rm : removeAll "," (n ++ ws ++ u) = "" ++ n ++ ws ++ u ++ "").
  { rewrite !removeAll_append, (removeAll_numeral n Dn),
      (removeAll_space ws Dw), Ru, append_empty. reflexivity. }
  specialize (R Rm eq_refl Hn Dn Dw Hu). rewrite Pq in R. cbn [times] in R.
  destruct (parseFileSizeToBytes (n ++ ws ++ u)) as [b|] eqn:Pb;
    [|contradiction].
  cbn [NumEq] in R.
  assert (Hb : (0 < b)%Q).
  { rewrite R. apply unit_cases in Hu.
    destruct Hu as [[_ ->]|[[_ ->]|[[_ ->]|[[_ ->]|[[_ ->]|[[_ ->]|[[_ ->]|[[_ ->]|[_ ->]]]]]]]]];
      match goal with
      | |- context [(1024 ^ ?z)%Q] =>
          let c := eval vm_compute in (1024 ^ z)%Q in
          change (1024 ^ z)%Q with c
      end; lra. }
  exists b. split; [|exact R].
  unfold parseBytesValue.
  assert (T : truthy (trim v) = true).
  { apply truthy_true. intro E0. rewrite E0 in M. discriminate M. }
  rewrite T, M, Pb, (positive_truthy b Hb). reflexivity.
Qed.

End SizeText.

Lemma size_text_is_read_witness :
  exists b,
    TokenCounter.parseBytesValue someExponent (Some "notes 1.5 MB (pdf)") "text"
    = Some (mkSize (Some "1.5 MB") (Some (Num b)) (Some "text"))
    /\ (b == 1572864)%Q.
Proof.
  destruct (size_text_is_read someExponent "notes 1.5 MB (pdf)" "notes "
              "1.5" " " "MB" " (pdf)" "text" 2 (1 + 5 / 10)%Q
              eq_refl eq_refl ltac:(discriminate) eq_refl eq_refl eq_refl)
    as (b & E & B).
  - reflexivity.
  - reflexivity.
  - exists b. split; [exact E|]. rewrite B. reflexivity.
Defined.

(** ** The totals of a conversation *)
Section Totals.
Variable exponentNotation : Q -> string.
Variable segmenter : option Segmenter.

Local Abbreviation tokensOf :=
  (fun msg : Message => tokens (estimateTokensFromText segmenter (text msg))).
Local Abbreviation wordsOf :=
  (fun msg : Message => words (estimateTokensFromText segmenter (text msg))).
Local Abbreviation enrich :=
  (fun msg : Message => (msg, estimateTokensFromText segmenter (text msg))).

Lemma tokens_nonneg (t : string) :
  (0 <= tokens (estimateTokensFromText segmenter t))%Z.
Proof.
  unfold estimateTokensFromText.
  destruct (negb (truthy t)); [cbn [tokens]; lia|].
  destruct (negb (truthy (trim (replaceWhiteSpaceRuns " " t))));
    cbn [tokens]; lia.
Qed.

Lemma estimateTokensFromBytes_nonneg (n : Number) :
  (0 <= estimateTokensFromBytes n)%Z.
Proof.
  unfold estimateTokensFromBytes. destruct n as [b|]; [|lia].
  destruct (Qeq_bool b 0); lia.
Qed.

Lemma detailTokens_nonneg (att : Attachment) :
  (0 <= detailTokens (attachmentDetail exponentNotation att))%Z.
Proof.
  unfold attachmentDetail.
  destruct (negb (numberTruthy (attachmentBytes att))
            && isTruthy (attachmentSizeText att)).
  - cbn [detailTokens fst estimateTokensFromFileSizeString].
    apply estimateTokensFromBytes_nonneg.
  - destruct (numberTruthy (attachmentBytes att)); cbn [detailTokens]; [|lia].
    destruct (attachmentBytes att); [apply estimateTokensFromBytes_nonneg|lia].
Qed.

Lemma details_nonneg (l : list Attachment) :
  (0 <= total detailTokens (map (attachmentDetail exponentNotation) l))%Z.
Proof.
  induction l as [|a l IH]; [simpl; lia|].
  cbn [map]. unfold total in *. cbn [fold_right].
  pose proof (detailTokens_nonneg a). lia.
Qed.

Lemma total_nonneg {A : Type} (f : A -> Z) (l : list A) :
  (forall x, 0 <= f x)%Z -> (0 <= total f l)%Z.
Proof.
  intro H. induction l as [|x l IH]; simpl; [lia|].
  specialize (H x). lia.
Qed.

Lemma total_parts {A : Type} (f : A -> Z) (p q : A -> bool) (l : list A) :
  (forall x, 0 <= f x)%Z -> (forall x, p x = true -> q x = false) ->
  (total f (filter p l) + total f (filter q l) <= total f l)%Z.
Proof.
  intros Hf Hpq. induction l as [|x l IH]; simpl; [lia|].
  specialize (Hf x). specialize (Hpq x).
  destruct (p x); [rewrite Hpq by reflexivity|]; simpl;
    [|destruct (q x); simpl]; lia.
Qed.

Lemma total_cons {A : Type} (f : A -> Z) (x : A) (l : list A) :
  total f (x :: l) = (f x + total f l)%Z.
Proof. reflexivity. Qed.

Lemma fold_addMessage (messages : list Message) :
  forall (t w : Z) (byRole : list (string * Z)),
  exists byRole',
    fold_left addMessage (map enrich messages) (t, w, byRole)
    = ((t + total tokensOf messages)%Z, (w + total wordsOf messages)%Z,
       byRole')
    /\ forall key,
         lookupRole byRole' key
         = (lookupRole byRole key
            + total tokensOf
                (filter (fun msg => String.eqb (roleKey (role msg)) key)
                        messages))%Z.
Proof.
  induction messages as [|msg rest IH]; intros t w byRole.
  - exists byRole. simpl. rewrite !Z.add_0_r. split; [reflexivity|].
    intro key. lia.
  - cbn [map fold_left]. unfold addMessage at 2. cbn [fst snd].
    destruct (IH (t + tokensOf msg)%Z (w + wordsOf msg)%Z
                 ((roleKey (role msg),
                   (lookupRole byRole (roleKey (role msg)) + tokensOf msg)%Z)
                  :: byRole)) as (byRole' & E & L).
    exists byRole'. split.
    + rewrite E, !total_cons, !Z.add_assoc. reflexivity.
    + intro key. rewrite L. cbn [lookupRole filter].
      destruct (String.eqb (roleKey (role msg)) key) eqn:K.
      * apply String.eqb_eq in K. subst key. rewrite total_cons. lia.
      * lia.
Qed.

Lemma ofRole_key (r : string) (messages : list Message) :
  r <> "null" ->
  filter (fun msg => String.eqb (roleKey (role msg)) r) messages
  = ofRole r messages.
Proof.
  intro H. unfold ofRole. apply filter_ext. intro msg.
  destruct (role msg) as [s|]; cbn [roleKey]; [reflexivity|].
  apply String.eqb_neq. congruence.
Qed.

Lemma fold_detailTokens (l : list AttachmentDetail) (acc : Z) :
  fold_left (fun sum item => (sum + detailTokens item)%Z) l acc
  = (acc + total detailTokens l)%Z.
Proof.
  revert acc. induction l as [|x l IH]; intro acc; simpl; [lia|].
  rewrite IH. lia.
Qed.

(** X22: the totals the counter shows.  There is no estimate exactly
    when there is neither a message nor an attachment.  Otherwise the
    tokens shown for the user and for the assistant are the sums of the
    estimates of the messages of that role, the words are the sum over
    all messages, and the total is the sum over all messages, whatever
    their role, plus the tokens of the attachments; so the two roles
    together never exceed the total, and no count is negative. *)
Theorem conversation_totals (messages : list Message)
    (attachments : list Attachment) :
  (estimateConversationStats exponentNotation segmenter messages attachments
   = None <-> messages = [] /\ attachments = [])
  /\ forall e,
     estimateConversationStats exponentNotation segmenter messages attachments
     = Some e ->
     let s := snapshot e in
     userTokens s = total tokensOf (ofRole "user" messages)
     /\ assistantTokens s = total tokensOf (ofRole "assistant" messages)
     /\ totalWords s = total wordsOf messages
     /\ attachmentDetails e
        = map (attachmentDetail exponentNotation) attachments
     /\ totalTokens s
        = (total tokensOf messages
           + total detailTokens (attachmentDetails e))%Z
     /\ (0 <= userTokens s)%Z /\ (0 <= assistantTokens s)%Z
     /\ (userTokens s + assistantTokens s <= totalTokens s)%Z.
Proof.
  split.
  - unfold estimateConversationStats.
    destruct messages as [|m ms]; destruct attachments as [|a atts];
      split; intro H; try reflexivity; try discriminate;
      try (destruct H; discriminate); try (split; reflexivity);
      destruct (fold_left _ _ _) as [[? ?] ?]; discriminate.
  - intros e H s.
    assert (E : e = 
      let '(messageTokens, messageWords, byRole) :=
        fold_left addMessage (map enrich messages) (0%Z, 0%Z, []) in
      let details := map (attachmentDetail exponentNotation) attachments in
      mkEstimation (map enrich messages) details
        (mkSnapshot
           (messageTokens
            + fold_left (fun sum item => (sum + detailTokens item)%Z)
                        details 0)%Z
           (lookupRole byRole "user") (lookupRole byRole "assistant")
           messageWords
           (map (fun item => (detailLabel item, detailSizeText item,
                              detailTokens item)) details))).
    { unfold estimateConversationStats in H.
      destruct messages as [|m ms]; destruct attachments as [|a atts];
        [discriminate| | |];
        destruct (fold_left _ _ _) as [[? ?] ?]; injection H as <-;
        reflexivity. }
    destruct (fold_addMessage messages 0%Z 0%Z []) as (byRole' & F & L).
    rewrite F in E. subst s. rewrite E. cbn [snapshot userTokens
      assistantTokens totalWords totalTokens attachmentDetails].
    rewrite !L, fold_detailTokens.
    rewrite !ofRole_key by discriminate. cbn [lookupRole].
    assert (Hu : (0 <= total tokensOf (ofRole "user" messages))%Z)
      by (apply total_nonneg; intro x; apply tokens_nonneg).
    assert (Ha : (0 <= total tokensOf (ofRole "assistant" messages))%Z)
      by (apply total_nonneg; intro x; apply tokens_nonneg).
    assert (Hd : (0 <= total detailTokens
                         (map (attachmentDetail exponentNotation)
                              attachments))%Z).
    { apply details_nonneg. }
    assert (Hp : (total tokensOf (ofRole "user" messages)
                  + total tokensOf (ofRole "assistant" messages)
                  <= total tokensOf messages)%Z).
    { unfold ofRole. apply total_parts.
      - intro x. apply tokens_nonneg.
      - intros x. destruct (role x) as [r|]; [|discriminate].
        intro U. apply String.eqb_eq in U. subst r. reflexivity. }
    repeat split; try reflexivity; lia.
Qed.

End Totals.

(** Three messages and an attachment of one kilobyte. *)
Lemma conversation_totals_witness :
  exists e,
    estimateConversationStats someExponent None
      [mkMessage "a" (Some "user") "hello world";
       mkMessage "b" (Some "assistant") "hi there how are you";
       mkMessage "c" None "zzz"]
      [mkAttachment "f" (Some "1 KB") (Some (Num 1024))] = Some e
    /\ userTokens (snapshot e) = 3%Z
    /\ assistantTokens (snapshot e) = 7%Z
    /\ totalTokens (snapshot e) = 268%Z
    /\ (userTokens (snapshot e) + assistantTokens (snapshot e)
        <= totalTokens (snapshot e))%Z.
Proof.
  match goal with
  | |- context [estimateConversationStats _ _ ?ms ?atts] =>
      pose proof (proj2 (conversation_totals someExponent None ms atts)) as T
  end.
  eexists. split; [reflexivity|].
  split; [reflexivity|]. split; [reflexivity|]. split; [reflexivity|].
  exact (proj2 (proj2 (proj2 (proj2 (proj2 (proj2 (proj2
    (T _ eq_refl)))))))).
Defined.

End CounterProofs.

